(** * A shallow embedding of the ext4 reader (ext4.py)

    The development follows the layout of the Python module: exceptions,
    the low level ctypes structures, [MappingEntry], [Volume], [Inode] and
    [BlockReader].  Python integers are unbounded and are modelled by [Z];
    [//] and [%] are floor division and modulo, which is what [Z.div] and
    [Z.modulo] compute for a positive divisor.  Byte strings are lists of
    [Byte.byte]. *)

From Stdlib Require Import ZArith Lia.
From Stdlib.Strings Require Import Byte.
From stdpp Require Import base numbers list sorting strings.

Local Open Scope Z_scope.

(** ** Exceptions *)

(** The two places that raise the bare base class [Ext4Error] are told apart
    by their message. *)
Inductive ext4_msg :=
| NotADirectory
| UnknownStorage.

Inductive exn :=
| Ext4Error (m : ext4_msg)
| BlockMapError
| EndOfStreamError
| MagicError
| AttributeError
| FileNotFoundError
| IndexError
| ValueError
| ZeroDivisionError
| TypeError
| OverflowError
| UnboundLocalError
| OSError (errno : Z).

(** Outcome of a call: a value, a raised exception, or a loop that was cut
    off by the model's fuel. *)
Inductive result (A : Type) :=
| Ok (a : A)
| Raise (e : exn)
| OutOfFuel.

Arguments Ok {A} a.
Arguments Raise {A} e.
Arguments OutOfFuel {A}.

Definition bind {A B} (m : result A) (k : A → result B) : result B :=
  match m with
  | Ok a => k a
  | Raise e => Raise e
  | OutOfFuel => OutOfFuel
  end.

Declare Scope result_scope.
Delimit Scope result_scope with result.
Notation "'let*' x ':=' m 'in' k" := (bind m (fun x => k))
  (at level 10, x pattern, m at level 100, k at level 200) : result_scope.
Local Open Scope result_scope.


(** ** Bytes and Python sequence operations *)

Definition bytes := list byte.

Definition byte_val (b : byte) : Z := Z.of_N (Byte.to_N b).

Definition len {A} (l : list A) : Z := Z.of_nat (length l).

(** [l[i]] with Python's rule for a negative index. *)
Definition py_index {A} (l : list A) (i : Z) : result A :=
  let j := if i <? 0 then i + len l else i in
  if j <? 0 then Raise IndexError
  else match l !! Z.to_nat j with
       | Some x => Ok x
       | None => Raise IndexError
       end.

(** [l[a:b]] for non-negative [a] and [b]: out-of-range bounds are clipped. *)
Definition py_slice {A} (l : list A) (a b : Z) : list A :=
  take (Z.to_nat (b - a)) (drop (Z.to_nat a) l).

(** [int.from_bytes(bs, "little")] *)
Fixpoint int_from_bytes_little (bs : bytes) : Z :=
  match bs with
  | [] => 0
  | b :: rest => byte_val b + 256 * int_from_bytes_little rest
  end.

(** ** Low level: ctypes little-endian structures *)

(** A structure type is its table of scalar fields (name, byte offset, byte
    size) and its total size; an instance of type [t] is the copied buffer. *)
Record ctype := {
  c_fields : list (string * (nat * nat));
  c_sizeof : nat
}.

Record struct (t : ctype) := {
  s_raw : bytes
}.

Arguments s_raw {t} s.

Fixpoint find_field (tbl : list (string * (nat * nat))) (name : string)
  : option (nat * nat) :=
  match tbl with
  | [] => None
  | (n, f) :: rest => if String.eqb n name then Some f else find_field rest name
  end.

Definition read_field (raw : bytes) (f : nat * nat) : Z :=
  int_from_bytes_little (take (snd f) (drop (fst f) raw)).

(** Attribute access on an [ext4_struct].  A declared field is found by the
    normal lookup.  Otherwise [__getattr__] runs: it combines [name_lo] and
    [name_hi] as [(hi << (8 * size_lo)) | lo], and when either half is
    missing it falls back to the plain lookup of [name], which raises
    [AttributeError]. *)
Definition getattr {t} (s : struct t) (name : string) : result Z :=
  let tbl := c_fields t in
  match find_field tbl name with
  | Some f => Ok (read_field (s_raw s) f)
  | None =>
      match find_field tbl (name +:+ "_lo"), find_field tbl (name +:+ "_hi") with
      | Some lo_field, Some hi_field =>
          let size := Z.of_nat (snd lo_field) in
          let lo := read_field (s_raw s) lo_field in
          let hi := read_field (s_raw s) hi_field in
          Ok (Z.lor (Z.shiftl hi (8 * size)) lo)
      | _, _ => Raise AttributeError
      end
  end.

Definition ext4_extent : ctype := {|
  c_fields := [
    ("ee_block", (0x0, 4)); ("ee_len", (0x4, 2));
    ("ee_start_hi", (0x6, 2)); ("ee_start_lo", (0x8, 4))]%nat;
  c_sizeof := 12
|}.

Definition ext4_extent_header : ctype := {|
  c_fields := [
    ("eh_magic", (0x0, 2)); ("eh_entries", (0x2, 2)); ("eh_max", (0x4, 2));
    ("eh_depth", (0x6, 2)); ("eh_generation", (0x8, 4))]%nat;
  c_sizeof := 12
|}.

Definition ext4_extent_idx : ctype := {|
  c_fields := [
    ("ei_block", (0x0, 4)); ("ei_leaf_lo", (0x4, 4));
    ("ei_leaf_hi", (0x8, 2)); ("ei_unused", (0xA, 2))]%nat;
  c_sizeof := 12
|}.

Definition ext4_group_descriptor : ctype := {|
  c_fields := [
    ("bg_block_bitmap_lo", (0x00, 4)); ("bg_inode_bitmap_lo", (0x04, 4));
    ("bg_inode_table_lo", (0x08, 4)); ("bg_free_blocks_count_lo", (0x0C, 2));
    ("bg_free_inodes_count_lo", (0x0E, 2)); ("bg_used_dirs_count_lo", (0x10, 2));
    ("bg_flags", (0x12, 2)); ("bg_exclude_bitmap_lo", (0x14, 4));
    ("bg_block_bitmap_csum_lo", (0x18, 2)); ("bg_inode_bitmap_csum_lo", (0x1A, 2));
    ("bg_itable_unused_lo", (0x1C, 2)); ("bg_checksum", (0x1E, 2));
    ("bg_block_bitmap_hi", (0x20, 4)); ("bg_inode_bitmap_hi", (0x24, 4));
    ("bg_inode_table_hi", (0x28, 4)); ("bg_free_blocks_count_hi", (0x2C, 2));
    ("bg_free_inodes_count_hi", (0x2E, 2)); ("bg_used_dirs_count_hi", (0x30, 2));
    ("bg_itable_unused_hi", (0x32, 2)); ("bg_exclude_bitmap_hi", (0x34, 4));
    ("bg_block_bitmap_csum_hi", (0x38, 2)); ("bg_inode_bitmap_csum_hi", (0x3A, 2));
    ("bg_reserved", (0x3C, 4))]%nat;
  c_sizeof := 0x40
|}.

(** The array fields [i_block] (15 words at 0x28) and [osd2] (12 bytes at
    0x74) are not scalars and are left out of the table. *)
Definition ext4_inode : ctype := {|
  c_fields := [
    ("i_mode", (0x00, 2)); ("i_uid", (0x02, 2)); ("i_size_lo", (0x04, 4));
    ("i_atime", (0x08, 4)); ("i_ctime", (0x0C, 4)); ("i_mtime", (0x10, 4));
    ("i_dtime", (0x14, 4)); ("i_gid", (0x18, 2)); ("i_links_count", (0x1A, 2));
    ("i_blocks_lo", (0x1C, 4)); ("i_flags", (0x20, 4)); ("osd1", (0x24, 4));
    ("i_generation", (0x64, 4)); ("i_file_acl_lo", (0x68, 4));
    ("i_size_hi", (0x6C, 4)); ("i_obso_faddr", (0x70, 4));
    ("i_extra_isize", (0x80, 2)); ("i_checksum_hi", (0x82, 2));
    ("i_ctime_extra", (0x84, 4)); ("i_mtime_extra", (0x88, 4));
    ("i_atime_extra", (0x8C, 4)); ("i_crtime", (0x90, 4));
    ("i_crtime_extra", (0x94, 4)); ("i_version_hi", (0x98, 4));
    ("i_projid", (0x9C, 4))]%nat;
  c_sizeof := 0xA0
|}.

(** [ext4_inode.i_block.offset] *)
Definition i_block_offset : Z := 0x28.

Definition S_IFDIR : Z := 0x4000.
Definition S_IFBLK : Z := 0x6000.
Definition S_IFREG : Z := 0x8000.
Definition S_IFLNK : Z := 0xA000.
Definition S_IFSOCK : Z := 0xC000.

Definition EXT4_EXTENTS_FL : Z := 0x80000.
Definition EXT4_INLINE_DATA_FL : Z := 0x10000000.

(** The scalar fields; the array fields ([s_uuid], [s_volume_name],
    [s_last_mounted], [s_journal_uuid], [s_hash_seed], [s_jnl_blocks],
    [s_first_error_func], [s_last_error_func], [s_mount_opts],
    [s_backup_bgs], [s_encrypt_algos], [s_encrypt_pw_salt] and
    [s_reserved]) are not scalars and are left out of the table. *)
Definition ext4_superblock : ctype := {|
  c_fields := [
    ("s_inodes_count", (0x0000, 4)); ("s_blocks_count_lo", (0x0004, 4));
    ("s_r_blocks_count_lo", (0x0008, 4));
    ("s_free_blocks_count_lo", (0x000C, 4));
    ("s_free_inodes_count", (0x0010, 4)); ("s_first_data_block", (0x0014, 4));
    ("s_log_block_size", (0x0018, 4)); ("s_log_cluster_size", (0x001C, 4));
    ("s_blocks_per_group", (0x0020, 4)); ("s_clusters_per_group", (0x0024, 4));
    ("s_inodes_per_group", (0x0028, 4)); ("s_mtime", (0x002C, 4));
    ("s_wtime", (0x0030, 4)); ("s_mnt_count", (0x0034, 2));
    ("s_max_mnt_count", (0x0036, 2)); ("s_magic", (0x0038, 2));
    ("s_state", (0x003A, 2)); ("s_errors", (0x003C, 2));
    ("s_minor_rev_level", (0x003E, 2)); ("s_lastcheck", (0x0040, 4));
    ("s_checkinterval", (0x0044, 4)); ("s_creator_os", (0x0048, 4));
    ("s_rev_level", (0x004C, 4)); ("s_def_resuid", (0x0050, 2));
    ("s_def_resgid", (0x0052, 2)); ("s_first_ino", (0x0054, 4));
    ("s_inode_size", (0x0058, 2)); ("s_block_group_nr", (0x005A, 2));
    ("s_feature_compat", (0x005C, 4)); ("s_feature_incompat", (0x0060, 4));
    ("s_feature_ro_compat", (0x0064, 4));
    ("s_algorithm_usage_bitmap", (0x00C8, 4));
    ("s_prealloc_blocks", (0x00CC, 1)); ("s_prealloc_dir_blocks", (0x00CD, 1));
    ("s_reserved_gdt_blocks", (0x00CE, 2)); ("s_journal_inum", (0x00E0, 4));
    ("s_journal_dev", (0x00E4, 4)); ("s_last_orphan", (0x00E8, 4));
    ("s_def_hash_version", (0x00FC, 1)); ("s_jnl_backup_type", (0x00FD, 1));
    ("s_desc_size", (0x00FE, 2)); ("s_default_mount_opts", (0x0100, 4));
    ("s_first_meta_bg", (0x0104, 4)); ("s_mkfs_time", (0x0108, 4));
    ("s_blocks_count_hi", (0x0150, 4)); ("s_r_blocks_count_hi", (0x0154, 4));
    ("s_free_blocks_count_hi", (0x0158, 4));
    ("s_min_extra_isize", (0x015C, 2)); ("s_want_extra_isize", (0x015E, 2));
    ("s_flags", (0x0160, 4)); ("s_raid_stride", (0x0164, 2));
    ("s_mmp_interval", (0x0166, 2)); ("s_mmp_block", (0x0168, 8));
    ("s_raid_stripe_width", (0x0170, 4));
    ("s_log_groups_per_flex", (0x0174, 1)); ("s_checksum_type", (0x0175, 1));
    ("s_reserved_pad", (0x0176, 2)); ("s_kbytes_written", (0x0178, 8));
    ("s_snapshot_inum", (0x0180, 4)); ("s_snapshot_id", (0x0184, 4));
    ("s_snapshot_r_blocks_count", (0x0188, 8));
    ("s_snapshot_list", (0x0190, 4)); ("s_error_count", (0x0194, 4));
    ("s_first_error_time", (0x0198, 4)); ("s_first_error_ino", (0x019C, 4));
    ("s_first_error_block", (0x01A0, 8)); ("s_first_error_line", (0x01C8, 4));
    ("s_last_error_time", (0x01CC, 4)); ("s_last_error_ino", (0x01D0, 4));
    ("s_last_error_line", (0x01D4, 4)); ("s_last_error_block", (0x01D8, 8));
    ("s_usr_quota_inum", (0x0240, 4)); ("s_grp_quota_inum", (0x0244, 4));
    ("s_overhead_blocks", (0x0248, 4)); ("s_lpf_ino", (0x0268, 4));
    ("s_prj_quota_inum", (0x026C, 4)); ("s_checksum_seed", (0x0270, 4));
    ("s_checksum", (0x03FC, 4))]%nat;
  c_sizeof := 0x400
|}.

(** [structure.from_buffer_copy(buf)]: the buffer must hold at least
    [sizeof(structure)] bytes, which are copied. *)
Definition from_buffer_copy (t : ctype) (buf : bytes) : result (struct t) :=
  if len buf <? Z.of_nat (c_sizeof t) then Raise ValueError
  else Ok {| s_raw := take (c_sizeof t) buf |}.

(** An array type [t * n]: [n] consecutive structures. *)
Definition array_from_buffer_copy (t : ctype) (n : Z) (buf : bytes)
  : result (list (struct t)) :=
  if len buf <? Z.of_nat (c_sizeof t) * n then Raise ValueError
  else Ok (map (fun i : nat =>
                  {| s_raw := take (c_sizeof t) (drop (i * c_sizeof t) buf) |})
               (seq 0 (Z.to_nat n))).

(** ** The storage stream

    The volume reads from a seekable binary stream.  It is modelled as an
    [io.BytesIO]: a read returns the bytes that are left, at most the
    requested number (all of them for a negative size), and seeking to a
    negative position raises [ValueError].  A position or a size is
    converted to a C [ssize_t] first: one that does not fit in 64 bits
    raises [OverflowError].  The length of a buffer is an [ssize_t] too, so
    no buffer has 2^63 bytes or more; the model gives a read from one
    [OverflowError]. *)
Record BytesIO := {
  buf : bytes;
  pos : N
}.

Definition fits_ssize_t (n : Z) : bool := (- 2 ^ 63 <=? n) && (n <? 2 ^ 63).

Definition BytesIO_tell (s : BytesIO) : Z := Z.of_N (pos s).

Definition BytesIO_seek (s : BytesIO) (target : Z) : result BytesIO :=
  if negb (fits_ssize_t target) then Raise OverflowError
  else if target <? 0 then Raise ValueError
  else Ok {| buf := buf s; pos := Z.to_N target |}.

Definition BytesIO_read (s : BytesIO) (size : Z) : result (bytes * BytesIO) :=
  if negb (fits_ssize_t size && fits_ssize_t (len (buf s)))
  then Raise OverflowError
  else
    let rest := drop (N.to_nat (pos s)) (buf s) in
    let data := if size <? 0 then rest else take (Z.to_nat size) rest in
    Ok (data, {| buf := buf s; pos := (pos s + N.of_nat (length data))%N |}).

(** [Volume.read]: position the stream unless it is already there, then
    read.  Returns the bytes and the stream with its new position. *)
Definition read_at (stream : BytesIO) (base offset byte_len : Z)
  : result (bytes * BytesIO) :=
  let* stream :=
    (if negb (base + offset =? BytesIO_tell stream)
     then BytesIO_seek stream (base + offset)
     else Ok stream) in
  BytesIO_read stream byte_len.

(** The bytes obtained do not depend on where the stream stood before. *)
Definition read_bytes (data : bytes) (base offset byte_len : Z) : result bytes :=
  let* r := read_at {| buf := data; pos := 0 |} base offset byte_len in
  Ok (fst r).

(** ** Volume *)

Record Volume := {
  ignore_flags : bool;
  ignore_magic : bool;
  Volume_offset : Z;
  stream : bytes;
  superblock : struct ext4_superblock;
  group_descriptors : list (struct ext4_group_descriptor)
}.

Definition Volume_read (v : Volume) (offset byte_len : Z) : result bytes :=
  read_bytes (stream v) (Volume_offset v) offset byte_len.

Definition Volume_read_struct (v : Volume) (t : ctype) (offset : Z)
  : result (struct t) :=
  let* raw := Volume_read v offset (Z.of_nat (c_sizeof t)) in
  from_buffer_copy t raw.

Definition Volume_read_struct_array (v : Volume) (t : ctype) (n : Z) (offset : Z)
  : result (list (struct t)) :=
  let* raw := Volume_read v offset (Z.of_nat (c_sizeof t) * n) in
  array_from_buffer_copy t n raw.

Definition superblock_block_size (sb : struct ext4_superblock) : result Z :=
  let* s_log_block_size := getattr sb "s_log_block_size" in
  Ok (Z.shiftl 1 (10 + s_log_block_size)).

Definition Volume_block_size (v : Volume) : result Z :=
  superblock_block_size (superblock v).

(** [not ignore_magic and structure.field != expected]; [and] does not
    evaluate its right operand when the left one is false. *)
Definition magic_differs {t} (ignore_magic : bool) (s : struct t)
    (field : string) (expected : Z) : result bool :=
  if negb ignore_magic
  then let* magic := getattr s field in Ok (negb (magic =? expected))
  else Ok false.

Definition floordiv (a b : Z) : result Z :=
  if b =? 0 then Raise ZeroDivisionError else Ok (a / b).

Definition pymod (a b : Z) : result Z :=
  if b =? 0 then Raise ZeroDivisionError else Ok (a mod b).

Fixpoint mapM {A B} (f : A → result B) (l : list A) : result (list B) :=
  match l with
  | [] => Ok []
  | x :: rest =>
      let* y := f x in
      let* ys := mapM f rest in
      Ok (y :: ys)
  end.

(** [Volume.__init__] *)
Definition Volume_init (stream : bytes) (offset : Z)
    (ignore_flags ignore_magic : bool) : result Volume :=
  let* sb := (let* raw := read_bytes stream offset 0x400
                            (Z.of_nat (c_sizeof ext4_superblock)) in
              from_buffer_copy ext4_superblock raw) in
  let* wrong_magic := magic_differs ignore_magic sb "s_magic" 0xEF53 in
  if wrong_magic then Raise MagicError
  else
    let* s_inodes_count := getattr sb "s_inodes_count" in
    let* s_inodes_per_group := getattr sb "s_inodes_per_group" in
    let* group_count := floordiv s_inodes_count s_inodes_per_group in
    let* block_size := superblock_block_size sb in
    let group_desc_table_offset := (0x400 / block_size + 1) * block_size in
    let* gds :=
      mapM (fun group_desc_idx : nat =>
              let* s_desc_size := getattr sb "s_desc_size" in
              let group_desc_offset :=
                group_desc_table_offset + Z.of_nat group_desc_idx * s_desc_size in
              let* raw := read_bytes stream offset group_desc_offset
                            (Z.of_nat (c_sizeof ext4_group_descriptor)) in
              from_buffer_copy ext4_group_descriptor raw)
           (seq 0 (Z.to_nat group_count)) in
    Ok {| ignore_flags := ignore_flags; ignore_magic := ignore_magic;
          Volume_offset := offset; stream := stream;
          superblock := sb; group_descriptors := gds |}.

(** [Volume.get_inode_group] *)
Definition Volume_get_inode_group (v : Volume) (inode_idx : Z) : result (Z * Z) :=
  let* s_inodes_per_group := getattr (superblock v) "s_inodes_per_group" in
  let* group_idx := floordiv (inode_idx - 1) s_inodes_per_group in
  let* inode_table_entry_idx := pymod (inode_idx - 1) s_inodes_per_group in
  Ok (group_idx, inode_table_entry_idx).

(** ** MappingEntry *)

Record MappingEntry := {
  file_block_idx : Z;
  disk_block_idx : Z;
  block_count : Z
}.

(** [MappingEntry(file_block_idx, disk_block_idx, block_count)] *)
Definition MappingEntry_init (f d c : Z) : MappingEntry :=
  {| file_block_idx := f; disk_block_idx := d; block_count := c |}.

Definition MappingEntry_copy (e : MappingEntry) : MappingEntry :=
  {| file_block_idx := file_block_idx e;
     disk_block_idx := disk_block_idx e;
     block_count := block_count e |}.

(** [entry.block_count += n] *)
Definition add_block_count (e : MappingEntry) (n : Z) : MappingEntry :=
  {| file_block_idx := file_block_idx e;
     disk_block_idx := disk_block_idx e;
     block_count := block_count e + n |}.

(** [list.sort(key = ...)] is stable: an entry is placed in front of the
    first entry whose key is not smaller, and the entries are inserted from
    the last to the first, so entries with equal keys keep their order. *)
Section Sort.
Context {A : Type} (key : A → Z).

Fixpoint sort_insert (x : A) (l : list A) : list A :=
  match l with
  | [] => [x]
  | y :: rest =>
      if key x <=? key y then x :: y :: rest else y :: sort_insert x rest
  end.

Fixpoint list_sort (l : list A) : list A :=
  match l with
  | [] => []
  | x :: rest => sort_insert x (list_sort rest)
  end.

Definition key_le (x y : A) : Prop := key x ≤ key y.
End Sort.

(** The test of the inner [while] of [optimize], once [idx + 1] is in range. *)
Definition disk_adjacent (cur nxt : MappingEntry) : bool :=
  disk_block_idx cur + block_count cur =? disk_block_idx nxt.

(** The inner loop of [MappingEntry.optimize]: while the entry after [idx]
    starts on the disk where the entry at [idx] ends, pop it and add its
    count to the entry at [idx]. *)
Fixpoint optimize_inner (fuel : nat) (entries : list MappingEntry) (idx : nat)
  : result (list MappingEntry) :=
  match fuel with
  | O => OutOfFuel
  | S fuel =>
      if (idx + 1 <? length entries)%nat then
        let* cur := py_index entries (Z.of_nat idx) in
        let* nxt := py_index entries (Z.of_nat (idx + 1)) in
        if disk_adjacent cur nxt then
          let tmp := nxt in
          let entries := delete (idx + 1)%nat entries in
          let entries := <[idx := add_block_count cur (block_count tmp)]> entries in
          optimize_inner fuel entries idx
        else Ok entries
      else Ok entries
  end.

(** The outer loop. The inner loop shortens the list by one entry per
    round, so [length entries] rounds are enough for it. *)
Fixpoint optimize_outer (fuel : nat) (entries : list MappingEntry) (idx : nat)
  : result (list MappingEntry) :=
  match fuel with
  | O => OutOfFuel
  | S fuel =>
      if (idx <? length entries)%nat then
        let* entries := optimize_inner (length entries) entries idx in
        optimize_outer fuel entries (idx + 1)
      else Ok entries
  end.

(** [MappingEntry.optimize] on the values of the entries; the list is
    changed in place in Python and is returned here.  This is what the code
    does to a list of distinct entry objects; [Store_optimize] below follows
    the objects themselves, also when one object is in the list more than
    once. *)
Definition MappingEntry_optimize (entries : list MappingEntry)
  : result (list MappingEntry) :=
  let entries := list_sort file_block_idx entries in
  optimize_outer (S (length entries)) entries 0.

(** What the loops compute, by recursion on the list: [stitch_from cur rest]
    absorbs into [cur] every following entry that starts where the (grown)
    [cur] ends on the disk, and starts afresh at the first one that does
    not. *)
Fixpoint stitch_from (cur : MappingEntry) (rest : list MappingEntry)
  : list MappingEntry :=
  match rest with
  | [] => [cur]
  | nxt :: rest' =>
      if disk_adjacent cur nxt
      then stitch_from (add_block_count cur (block_count nxt)) rest'
      else cur :: stitch_from nxt rest'
  end.

Definition stitch (l : list MappingEntry) : list MappingEntry :=
  match l with
  | [] => []
  | cur :: rest => stitch_from cur rest
  end.

(** Whether two entries abut in the file, which [optimize] does not
    test. *)
Definition logically_abutting (cur nxt : MappingEntry) : bool :=
  file_block_idx cur + block_count cur =? file_block_idx nxt.

(** The inner loop alone: the entry and what is left after it. *)
Fixpoint absorb (cur : MappingEntry) (rest : list MappingEntry)
  : list MappingEntry :=
  match rest with
  | [] => [cur]
  | nxt :: rest' =>
      if disk_adjacent cur nxt
      then absorb (add_block_count cur (block_count nxt)) rest'
      else cur :: rest
  end.

(** [sum(entry.block_count for entry in block_map)] *)
Definition sum_block_count (l : list MappingEntry) : Z :=
  foldr (λ e acc, block_count e + acc) 0 l.

(** No two neighbours of the result can be merged any further. *)
Inductive coalesced : list MappingEntry → Prop :=
| coalesced_nil : coalesced []
| coalesced_one e : coalesced [e]
| coalesced_cons a b l :
    disk_adjacent a b = false → coalesced (b :: l) → coalesced (a :: b :: l).

(** ** BlockReader *)

Record BlockReader := {
  byte_size : Z;
  BlockReader_volume : Volume;
  cursor : Z;
  block_map : list MappingEntry
}.

Definition EINVAL : Z := 22.
Definition SEEK_SET : Z := 0.
Definition SEEK_CUR : Z := 1.
Definition SEEK_END : Z := 2.

(** [BlockReader.__init__] on the values of the entries.  The entries are
    copied first, so the caller's entries are not the ones that [optimize]
    changes; the store-level model below makes that explicit. *)
Definition BlockReader_init (volume : Volume) (byte_size : Z)
    (block_map : list MappingEntry) : result BlockReader :=
  let block_map := map MappingEntry_copy block_map in
  let block_count_sum := sum_block_count block_map in
  let* block_size := Volume_block_size volume in
  if negb (block_count_sum =? (byte_size - 1) / block_size + 1)
  then Raise BlockMapError
  else
    let* block_map := MappingEntry_optimize block_map in
    Ok {| byte_size := byte_size; BlockReader_volume := volume;
          cursor := 0; block_map := block_map |}.

(** [BlockReader.get_block_mapping] *)
Fixpoint get_block_mapping_scan (entries : list MappingEntry) (file_block : Z)
  : option Z :=
  match entries with
  | [] => None
  | entry :: rest =>
      if (file_block_idx entry <=? file_block)
         && (file_block <? file_block_idx entry + block_count entry)
      then
        let block_diff := file_block - file_block_idx entry in
        Some (disk_block_idx entry + block_diff)
      else get_block_mapping_scan rest file_block
  end.

Definition BlockReader_get_block_mapping (r : BlockReader) (file_block : Z)
  : result Z :=
  match get_block_mapping_scan (block_map r) file_block with
  | None => Raise BlockMapError
  | Some disk_block => Ok disk_block
  end.

(** The filter of [get_range_mapping]. *)
Definition intersects (file_block count : Z) (entry : MappingEntry) : bool :=
  (file_block_idx entry <=? file_block)
  && (file_block <? file_block_idx entry + block_count entry)
  || (file_block <=? file_block_idx entry)
     && (file_block_idx entry <? file_block + count).

(** [BlockReader.get_range_mapping].  [mapping[0]] and [mapping[-1]] are the
    same entry when one entry is selected: the right trim then sees the left
    trim. *)
Definition BlockReader_get_range_mapping (r : BlockReader)
    (file_block count : Z) : result (list MappingEntry) :=
  let mapping :=
    map MappingEntry_copy (List.filter (intersects file_block count) (block_map r)) in
  if len mapping =? 0 then Raise BlockMapError
  else
    let* first := py_index mapping 0 in
    let diff := file_block - file_block_idx first in
    let mapping :=
      if diff >? 0
      then <[0%nat := {| file_block_idx := file_block_idx first + diff;
                         disk_block_idx := disk_block_idx first + diff;
                         block_count := block_count first - diff |}]> mapping
      else mapping in
    let* last := py_index mapping (-1) in
    let diff := (file_block_idx last + block_count last) - (file_block + count) in
    let mapping :=
      if diff >? 0
      then <[(length mapping - 1)%nat := add_block_count last (- diff)]> mapping
      else mapping in
    Ok mapping.

(** The [for i in range(1, len(mapping) - 1)] loop of [read]: the blocks
    read so far and the bytes still wanted. *)
Fixpoint read_middle (volume : Volume) (block_size : Z)
    (mapping : list MappingEntry) (indices : list nat)
    (blocks : list bytes) (byte_len : Z) : result (list bytes * Z) :=
  match indices with
  | [] => Ok (blocks, byte_len)
  | i :: indices =>
      let* m := py_index mapping (Z.of_nat i) in
      let* part := Volume_read volume (disk_block_idx m * block_size)
                     (block_count m * block_size) in
      read_middle volume block_size mapping indices (blocks ++ [part])
        (byte_len - len part)
  end.

(** The part of [BlockReader.read] that fetches the bytes. *)
Definition BlockReader_fetch (r : BlockReader) (byte_len : Z) : result bytes :=
  let volume := BlockReader_volume r in
  let* block_size := Volume_block_size volume in
  let file_block := cursor r / block_size in
  let offset := cursor r mod block_size in
  if file_block =? (cursor r + byte_len - 1) / block_size then
    let* disk_block := BlockReader_get_block_mapping r file_block in
    Volume_read volume (disk_block * block_size + offset) byte_len
  else
    let block_count_ := (byte_len - 1) / block_size + 1 in
    let* mapping := BlockReader_get_range_mapping r file_block block_count_ in
    if len mapping =? 1 then
      let* m0 := py_index mapping 0 in
      Volume_read volume (disk_block_idx m0 * block_size + offset) byte_len
    else
      let* m0 := py_index mapping 0 in
      let* first := Volume_read volume (disk_block_idx m0 * block_size + offset)
                      (block_count m0 * block_size - offset) in
      let blocks := [first] in
      let byte_len := byte_len - len first in
      let* mid := read_middle volume block_size mapping
                    (seq 1 (length mapping - 2)) blocks byte_len in
      let '(blocks, byte_len) := mid in
      let* mlast := py_index mapping (-1) in
      let* last := Volume_read volume (disk_block_idx mlast * block_size) byte_len in
      Ok (concat (blocks ++ [last])).

Definition set_cursor (r : BlockReader) (c : Z) : BlockReader :=
  {| byte_size := byte_size r; BlockReader_volume := BlockReader_volume r;
     cursor := c; block_map := block_map r |}.

(** [BlockReader.read]: the outcome and the reader afterwards.  The cursor
    moves before the length check that may raise [EndOfStreamError]. *)
Definition BlockReader_read (r : BlockReader) (byte_len : Z)
  : result bytes * BlockReader :=
  if byte_len <? -1 then (Raise ValueError, r)
  else
    let bytes_remaining := byte_size r - cursor r in
    let byte_len :=
      if byte_len =? -1 then bytes_remaining
      else Z.max 0 (Z.min byte_len bytes_remaining) in
    if byte_len =? 0 then (Ok [], r)
    else
      let end_of_stream_check := byte_len in
      match BlockReader_fetch r byte_len with
      | Ok result =>
          let r := set_cursor r (cursor r + len result) in
          if negb (len result =? end_of_stream_check)
          then (Raise EndOfStreamError, r)
          else (Ok result, r)
      | Raise e => (Raise e, r)
      | OutOfFuel => (OutOfFuel, r)
      end.

(** [BlockReader.seek] *)
Definition BlockReader_seek (r : BlockReader) (seek seek_mode : Z)
  : result Z * BlockReader :=
  let seek :=
    if seek_mode =? SEEK_CUR then seek + cursor r
    else if seek_mode =? SEEK_END then seek + byte_size r
    else seek in
  if seek <? 0 then (Raise (OSError EINVAL), r)
  else (Ok seek, set_cursor r seek).

(** [BlockReader.tell] *)
Definition BlockReader_tell (r : BlockReader) : Z := cursor r.

(** Reading [n] bytes one at a time: [n] calls of [read(1)], joined. *)
Fixpoint read_bytewise (n : nat) (r : BlockReader) : result bytes * BlockReader :=
  match n with
  | O => (Ok [], r)
  | S n =>
      match BlockReader_read r 1 with
      | (Ok b, r) =>
          match read_bytewise n r with
          | (Ok rest, r) => (Ok (b ++ rest), r)
          | other => other
          end
      | other => other
      end
  end.

(** ** Inode *)

Definition IT_DIRECTORY : Z := 0x2.
Definition IT_CHECKSUM : Z := 0xDE.

Record Inode := {
  inode_idx : option Z;
  Inode_offset : Z;
  Inode_volume : Volume;
  inode : struct ext4_inode
}.

(** [Inode.__init__]; [inode_idx] defaults to [None]. *)
Definition Inode_init (volume : Volume) (offset : Z) (inode_idx : option Z)
  : result Inode :=
  let* inode := Volume_read_struct volume ext4_inode offset in
  Ok {| inode_idx := inode_idx; Inode_offset := offset;
        Inode_volume := volume; inode := inode |}.

(** [Volume.get_inode] *)
Definition Volume_get_inode (v : Volume) (inode_idx : Z) : result Inode :=
  let* g := Volume_get_inode_group v inode_idx in
  let '(group_idx, inode_table_entry_idx) := g in
  let* group_descriptor := py_index (group_descriptors v) group_idx in
  let* bg_inode_table := getattr group_descriptor "bg_inode_table" in
  let* block_size := Volume_block_size v in
  let inode_table_offset := bg_inode_table * block_size in
  let* s_inode_size := getattr (superblock v) "s_inode_size" in
  let inode_offset := inode_table_offset + inode_table_entry_idx * s_inode_size in
  Inode_init v inode_offset (Some inode_idx).

(** The [:d] format of an f-string: formatting [None] raises [TypeError]. *)
Definition format_d (x : option Z) : result unit :=
  match x with
  | Some _ => Ok tt
  | None => Raise TypeError
  end.

(** [len(self)]: [__len__] must fit an index-sized integer (64 bit). *)
Definition Inode_len (ino : Inode) : result Z :=
  let* i_size := getattr (inode ino) "i_size" in
  if i_size >? 2 ^ 63 - 1 then Raise OverflowError else Ok i_size.

Definition Inode_is_dir (ino : Inode) : result bool :=
  let* i_mode := getattr (inode ino) "i_mode" in
  Ok (negb (Z.land i_mode S_IFDIR =? 0)).

Definition Inode_is_file (ino : Inode) : result bool :=
  let* i_mode := getattr (inode ino) "i_mode" in
  Ok (negb (Z.land i_mode S_IFREG =? 0)).

(** [not volume.ignore_flags and not ino.is_dir]; [and] does not evaluate
    its right operand when the left one is false. *)
Definition flags_refuse (volume : Volume) (ino : Inode) : result bool :=
  if negb (ignore_flags volume)
  then let* is_dir := Inode_is_dir ino in Ok (negb is_dir)
  else Ok false.

(** What [open_read] returns: a [BlockReader], or an [io.BytesIO] for
    inline data. *)
Inductive Reader :=
| Reader_BlockReader (r : BlockReader)
| Reader_BytesIO (s : BytesIO).

(** The work queue loop of [open_read]: [nodes] is the queue and [mapping]
    the list of entries collected so far. *)
Fixpoint extent_walk (fuel : nat) (ino : Inode) (nodes : list Z)
    (mapping : list MappingEntry) : result (list MappingEntry) :=
  match fuel with
  | O => OutOfFuel
  | S fuel =>
      match nodes with
      | [] => Ok mapping
      | header_offset :: nodes =>
          let volume := Inode_volume ino in
          let* header := Volume_read_struct volume ext4_extent_header header_offset in
          let* wrong_magic :=
            magic_differs (ignore_magic volume) header "eh_magic" 0xF30A in
          if wrong_magic
          then let* _ := format_d (inode_idx ino) in Raise MagicError
          else
            let* eh_depth := getattr header "eh_depth" in
            let* eh_entries := getattr header "eh_entries" in
            if negb (eh_depth =? 0) then
              let* indices :=
                Volume_read_struct_array volume ext4_extent_idx eh_entries
                  (header_offset + Z.of_nat (c_sizeof ext4_extent_header)) in
              let* children :=
                mapM (fun idx =>
                        let* ei_leaf := getattr idx "ei_leaf" in
                        let* block_size := Volume_block_size volume in
                        Ok (ei_leaf * block_size)) indices in
              extent_walk fuel ino (nodes ++ children) mapping
            else
              let* extents :=
                Volume_read_struct_array volume ext4_extent eh_entries
                  (header_offset + Z.of_nat (c_sizeof ext4_extent_header)) in
              let* found :=
                mapM (fun extent =>
                        let* ee_block := getattr extent "ee_block" in
                        let* ee_start := getattr extent "ee_start" in
                        let* ee_len := getattr extent "ee_len" in
                        Ok (MappingEntry_init ee_block ee_start ee_len)) extents in
              extent_walk fuel ino nodes (mapping ++ found)
      end
  end.

(** [Inode.open_read].  The inline-data branch reads the attribute
    [I_flags], as the source does. *)
Definition Inode_open_read (fuel : nat) (ino : Inode) : result Reader :=
  let volume := Inode_volume ino in
  let* i_flags := getattr (inode ino) "i_flags" in
  if negb (Z.land i_flags EXT4_EXTENTS_FL =? 0) then
    let* mapping :=
      extent_walk fuel ino [Inode_offset ino + i_block_offset] [] in
    let* mapping := MappingEntry_optimize mapping in
    let* size := Inode_len ino in
    let* r := BlockReader_init volume size mapping in
    Ok (Reader_BlockReader r)
  else
    let* I_flags := getattr (inode ino) "I_flags" in
    if negb (Z.land I_flags EXT4_INLINE_DATA_FL =? 0) then
      let* i_size := getattr (inode ino) "i_size" in
      let* data := Volume_read volume (Inode_offset ino + i_block_offset) i_size in
      Ok (Reader_BytesIO {| buf := data; pos := 0 |})
    else Raise (Ext4Error UnknownStorage).

(** [reader.read()] with the default size [-1]. *)
Definition Reader_read_all (rd : Reader) : result bytes :=
  match rd with
  | Reader_BlockReader r => fst (BlockReader_read r (-1))
  | Reader_BytesIO s => let* r := BytesIO_read s (-1) in Ok (fst r)
  end.

(** A generator that was run: the values it yielded, in order, and how it
    ended ([Ok tt] when it returned, [OutOfFuel] when the model stopped
    following it). *)
Definition generator (A : Type) : Type := list A * result unit.

Definition gen_yield {A} (x : A) (g : generator A) : generator A :=
  (x :: fst g, snd g).

Section Names.
(** Entry names are whatever the decoder returns; [utf8] is the default
    decoder [raw.decode("utf8")] and [is_str] tells whether a name is a
    [str], which is what ["/".join] accepts. *)
Context {Name : Type} `{EqDecision Name}.
Variable utf8 : bytes → result Name.
Variable is_str : Name → bool.

Definition dirent : Type := Name * Z * Z.

(** The [while] loop of [open_dir] over the raw directory content. *)
Fixpoint open_dir_loop (fuel : nat) (decode_name : bytes → result Name)
    (raw_data : bytes) (offset : Z) : generator dirent :=
  match fuel with
  | O => ([], OutOfFuel)
  | S fuel =>
      if offset <? len raw_data then
        match
          (let* file_type := py_index raw_data (offset + 7) in
           let* hi := py_index raw_data (offset + 5) in
           let* lo := py_index raw_data (offset + 4) in
           Ok (byte_val file_type,
               Z.lor (Z.shiftl (byte_val hi) 8) (byte_val lo)))
        with
        | Ok (file_type, rec_len) =>
            if negb (file_type =? IT_CHECKSUM) then
              let inode :=
                int_from_bytes_little (py_slice raw_data offset (offset + 4)) in
              match
                (let* name_len := py_index raw_data (offset + 6) in
                 decode_name (py_slice raw_data (offset + 8)
                                (offset + 8 + byte_val name_len)))
              with
              | Ok name =>
                  gen_yield (name, inode, file_type)
                    (open_dir_loop fuel decode_name raw_data (offset + rec_len))
              | Raise e => ([], Raise e)
              | OutOfFuel => ([], OutOfFuel)
              end
            else open_dir_loop fuel decode_name raw_data (offset + rec_len)
        | Raise e => ([], Raise e)
        | OutOfFuel => ([], OutOfFuel)
        end
      else ([], Ok tt)
  end.

(** [Inode.open_dir] *)
Definition Inode_open_dir (fuel : nat) (ino : Inode)
    (decode_name : option (bytes → result Name)) : generator dirent :=
  let decode_name :=
    match decode_name with
    | None => utf8
    | Some f => f
    end in
  match
    (let* refused := flags_refuse (Inode_volume ino) ino in
     if refused
     then let* _ := format_d (inode_idx ino) in
          Raise (Ext4Error NotADirectory)
     else
       let* reader := Inode_open_read fuel ino in
       Reader_read_all reader)
  with
  | Ok raw_data => open_dir_loop fuel decode_name raw_data 0
  | Raise e => ([], Raise e)
  | OutOfFuel => ([], OutOfFuel)
  end.

(** [next((inode for file_name, inode, file_type in entries
          if file_name == part), None)]:
    the generator is only run as far as the first match. *)
Fixpoint first_match (yielded : list dirent) (ending : result unit)
    (part : Name) : result (option Z) :=
  match yielded with
  | [] =>
      match ending with
      | Ok _ => Ok None
      | Raise e => Raise e
      | OutOfFuel => OutOfFuel
      end
  | (file_name, inode, _) :: rest =>
      if decide (file_name = part) then Ok (Some inode)
      else first_match rest ending part
  end.

(** ["/".join(parts)] *)
Definition join_path (parts : list Name) : result unit :=
  if forallb is_str parts then Ok tt else Raise TypeError.

(** The [for] loop of [Inode.get_inode]: [i] parts are done, [rest] are
    left, and [last_idx] is the local variable [inode_idx], unbound before
    the first round. *)
Fixpoint get_inode_loop (fuel : nat) (self : Inode)
    (decode_name : option (bytes → result Name))
    (relative_path : list Name) (i : nat) (rest : list Name)
    (current_inode : Inode) (last_idx : option Z) : result Inode :=
  match rest with
  | [] => Ok current_inode
  | part :: rest =>
      let* refused := flags_refuse (Inode_volume self) current_inode in
      if refused then
        let* _ := join_path (take i relative_path) in
        match last_idx with
        | None => Raise UnboundLocalError
        | Some _ => Raise (Ext4Error NotADirectory)
        end
      else
        let g := Inode_open_dir fuel current_inode decode_name in
        let* found := first_match (fst g) (snd g) part in
        match found with
        | None =>
            let* _ := join_path (take i relative_path) in
            let* _ := format_d (inode_idx current_inode) in
            Raise FileNotFoundError
        | Some inode_idx =>
            let* next_inode :=
              Volume_get_inode (Inode_volume current_inode) inode_idx in
            get_inode_loop fuel self decode_name relative_path (S i) rest
              next_inode (Some inode_idx)
        end
  end.

(** [Inode.get_inode] *)
Definition Inode_get_inode (fuel : nat) (self : Inode)
    (relative_path : list Name)
    (decode_name : option (bytes → result Name)) : result Inode :=
  let* is_dir := Inode_is_dir self in
  if negb is_dir then
    let* _ := format_d (inode_idx self) in
    Raise (Ext4Error NotADirectory)
  else
    get_inode_loop fuel self decode_name relative_path 0 relative_path
      self None.
End Names.

(** ** A small image for the examples

    Eleven blocks of 1024 bytes: block 1 holds the superblock (16 inodes in
    one group, inode size 256, descriptor size 64), block 2 the group
    descriptor, blocks 3 to 6 the inode table, block 7 the data of the root
    directory and blocks 8, 9 and 10 are filled with "A", "B" and "C".
    - Inode 2, the root directory, has three records: an unused one
      (inode 0, type 1, name "old"), "f" for inode 12 (type 1) and a
      checksum record (type 0xDE).
    - Inode 12 is a regular file without the extents flag and with the
      inline-data flag, of size 42.
    - Inode 13 is a regular file of 2048 bytes with two extents: file
      block 0 on disk block 8 and file block 1 on disk block 10. *)

Definition byte_of (z : Z) : byte :=
  default "000"%byte (Byte.of_N (Z.to_N (z mod 256))).

Fixpoint le_bytes (n : nat) (v : Z) : bytes :=
  match n with
  | O => []
  | S n => byte_of v :: le_bytes n (v / 256)
  end.

Definition patch (off : Z) (data : bytes) (l : bytes) : bytes :=
  take (Z.to_nat off) l ++ data ++ drop (Z.to_nat off + length data) l.

Definition example_stream : bytes :=
  let inode_at (n : Z) := 3 * 1024 + (n - 1) * 256 in
  let extent_header (entries : Z) :=
    le_bytes 2 0xF30A ++ le_bytes 2 entries ++ le_bytes 2 4 ++ le_bytes 2 0
    ++ le_bytes 4 0 in
  let extent (ee_block ee_len ee_start : Z) :=
    le_bytes 4 ee_block ++ le_bytes 2 ee_len ++ le_bytes 2 0
    ++ le_bytes 4 ee_start in
  (* superblock *)
  patch (0x400 + 0x00) (le_bytes 4 16) $
  patch (0x400 + 0x18) (le_bytes 4 0) $
  patch (0x400 + 0x28) (le_bytes 4 16) $
  patch (0x400 + 0x38) (le_bytes 2 0xEF53) $
  patch (0x400 + 0x58) (le_bytes 2 256) $
  patch (0x400 + 0xFE) (le_bytes 2 64) $
  (* group descriptor 0: inode table at block 3 *)
  patch (2 * 1024 + 0x08) (le_bytes 4 3) $
  (* inode 2 *)
  patch (inode_at 2 + 0x00) (le_bytes 2 0x41ED) $
  patch (inode_at 2 + 0x04) (le_bytes 4 36) $
  patch (inode_at 2 + 0x20) (le_bytes 4 0x80000) $
  patch (inode_at 2 + 0x28) (extent_header 1 ++ extent 0 1 7) $
  (* inode 12 *)
  patch (inode_at 12 + 0x00) (le_bytes 2 0x81A4) $
  patch (inode_at 12 + 0x04) (le_bytes 4 42) $
  patch (inode_at 12 + 0x20) (le_bytes 4 0x10000000) $
  (* inode 13 *)
  patch (inode_at 13 + 0x00) (le_bytes 2 0x81A4) $
  patch (inode_at 13 + 0x04) (le_bytes 4 2048) $
  patch (inode_at 13 + 0x20) (le_bytes 4 0x80000) $
  patch (inode_at 13 + 0x28) (extent_header 2 ++ extent 0 1 8 ++ extent 1 1 10) $
  (* directory records *)
  patch (7 * 1024)
    (le_bytes 4 0 ++ le_bytes 2 12 ++ [byte_of 3; byte_of 1]
     ++ ["o"; "l"; "d"; "000"]%byte
     ++ le_bytes 4 12 ++ le_bytes 2 12 ++ [byte_of 1; byte_of 1]
     ++ ["f"; "000"; "000"; "000"]%byte
     ++ le_bytes 4 0 ++ le_bytes 2 12 ++ [byte_of 0; byte_of 0xDE]
     ++ le_bytes 4 0) $
  repeat "000"%byte (Z.to_nat (8 * 1024))
  ++ repeat "A"%byte (Z.to_nat 1024)
  ++ repeat "B"%byte (Z.to_nat 1024)
  ++ repeat "C"%byte (Z.to_nat 1024).

(** A decoder for the examples: every byte is one character. *)
Definition latin1 (raw : bytes) : result string :=
  Ok (String.string_of_list_byte raw).

(** The volume opened on the example image, strict or with
    [ignore_flags = True]. *)
Definition example_volume : result Volume :=
  Volume_init example_stream 0 false false.

Definition example_volume_ignore_flags : result Volume :=
  Volume_init example_stream 0 true false.

(** [volume.get_inode(13).open_read()] as a [BlockReader]. *)
Definition example_reader : result BlockReader :=
  let* volume := example_volume in
  let* ino := Volume_get_inode volume 13 in
  let* reader := Inode_open_read 4 ino in
  match reader with
  | Reader_BlockReader r => Ok r
  | Reader_BytesIO _ => Raise TypeError
  end.

(** An inode object whose record holds just the given mode. *)
Definition example_inode_with_mode (v : Volume) (i_mode : Z) : Inode :=
  {| inode_idx := Some 1; Inode_offset := 0; Inode_volume := v;
     inode := {| s_raw := le_bytes 2 i_mode ++ repeat "000"%byte 158 |} |}.

Definition empty_volume : Volume :=
  {| ignore_flags := false; ignore_magic := false; Volume_offset := 0;
     stream := []; superblock := {| s_raw := repeat "000"%byte (Z.to_nat 1024) |};
     group_descriptors := [] |}.

Definition volume_or_empty (r : result Volume) : Volume :=
  match r with
  | Ok v => v
  | _ => empty_volume
  end.

(** ** The directory format ([ext4_dir_entry_2])

    A record is an 8 byte header (inode number, record length, name length,
    file type) followed by the name; the next record starts [rec_len] bytes
    after the start of this one. *)
Record dir_record := {
  d_inode : Z;
  d_rec_len : Z;
  d_file_type : Z;
  d_name : bytes
}.

Definition record_at (raw_data : bytes) (offset : Z) : option dir_record :=
  match drop (Z.to_nat offset) raw_data with
  | i0 :: i1 :: i2 :: i3 :: l0 :: l1 :: name_len :: file_type :: rest =>
      Some {| d_inode := int_from_bytes_little [i0; i1; i2; i3];
              d_rec_len := int_from_bytes_little [l0; l1];
              d_file_type := byte_val file_type;
              d_name := take (Z.to_nat (byte_val name_len)) rest |}
  | _ => None
  end.

(** The records met from [offset] on, in on-disk order, at most [fuel] of
    them. *)
Fixpoint dir_records (fuel : nat) (raw_data : bytes) (offset : Z)
  : list dir_record :=
  match fuel with
  | O => []
  | S fuel =>
      if offset <? len raw_data then
        match record_at raw_data offset with
        | Some r => r :: dir_records fuel raw_data (offset + d_rec_len r)
        | None => []
        end
      else []
  end.

Definition is_checksum (r : dir_record) : bool := d_file_type r =? IT_CHECKSUM.

(** The tuple that stands for a record. *)
Definition entry_of {Name} (decode_name : bytes → result Name) (r : dir_record)
  : result (Name * Z * Z) :=
  let* name := decode_name (d_name r) in
  Ok (name, d_inode r, d_file_type r).

Definition inode_or_default (r : result Inode) : Inode :=
  match r with
  | Ok ino => ino
  | _ => example_inode_with_mode empty_volume 0
  end.

(** The root directory of the example image. *)
Definition example_root : Inode :=
  inode_or_default (let* volume := example_volume in Volume_get_inode volume 2).

(** ** MappingEntry objects in a store

    [optimize] changes its list and the entries in it in place.  To follow
    what a caller can observe, the entries and the lists are objects of a
    store: an entry is named by its position in [objects], a list by its
    position in [lists] and holds the names of its items.  New objects are
    added at the end. *)
Record store := {
  objects : list MappingEntry;
  lists : list (list nat)
}.

#[global] Instance MappingEntry_inhabited : Inhabited MappingEntry :=
  populate (MappingEntry_init 0 0 0).

Definition deref (s : store) (ref : nat) : MappingEntry := objects s !!! ref.

Definition items (s : store) (lst : nat) : list nat := lists s !!! lst.

(** The entries of a list, by value. *)
Definition list_values (s : store) (lst : nat) : list MappingEntry :=
  map (deref s) (items s lst).

Definition set_object (s : store) (ref : nat) (e : MappingEntry) : store :=
  {| objects := <[ref := e]> (objects s); lists := lists s |}.

Definition set_items (s : store) (lst : nat) (refs : list nat) : store :=
  {| objects := objects s; lists := <[lst := refs]> (lists s) |}.




(** The inner loop of [optimize] on the list object [lst]. *)
Fixpoint Store_optimize_inner (fuel : nat) (s : store) (lst idx : nat)
  : result unit * store :=
  match fuel with
  | O => (OutOfFuel, s)
  | S fuel =>
      let entries := items s lst in
      if (idx + 1 <? length entries)%nat then
        match entries !! idx, entries !! (idx + 1)%nat with
        | Some cur, Some nxt =>
            if disk_adjacent (deref s cur) (deref s nxt) then
              let tmp := nxt in
              let s := set_items s lst (delete (idx + 1)%nat entries) in
              let s :=
                set_object s cur
                  (add_block_count (deref s cur) (block_count (deref s tmp))) in
              Store_optimize_inner fuel s lst idx
            else (Ok tt, s)
        | _, _ => (Raise IndexError, s)
        end
      else (Ok tt, s)
  end.

Fixpoint Store_optimize_outer (fuel : nat) (s : store) (lst idx : nat)
  : result unit * store :=
  match fuel with
  | O => (OutOfFuel, s)
  | S fuel =>
      if (idx <? length (items s lst))%nat then
        match Store_optimize_inner (length (items s lst)) s lst idx with
        | (Ok _, s) => Store_optimize_outer fuel s lst (idx + 1)
        | other => other
        end
      else (Ok tt, s)
  end.

(** [MappingEntry.optimize(entries)] on the list object [lst]: the list is
    sorted in place, then stitched in place. *)
Definition Store_optimize (s : store) (lst : nat) : result unit * store :=
  let sorted := list_sort (λ ref, file_block_idx (deref s ref)) (items s lst) in
  let s := set_items s lst sorted in
  Store_optimize_outer (S (length sorted)) s lst 0.



(** [ceil(a / b)] for a positive [b]; it is 0 for [a = 0]. *)
Definition ceil_div (a b : Z) : Z :=
  if a mod b =? 0 then a / b else a / b + 1.




(** An outcome other than the not-a-directory error. *)
Abbreviation not_refused r := (r ≠ Raise (Ext4Error NotADirectory)) (only parsing).

(** ** More of the module *)

(** The loop of [MappingEntry.create_mapping], with its running
    [file_block_idx]. *)
Fixpoint create_mapping_from (file_block : Z) (entries : list (Z * Z))
  : list MappingEntry :=
  match entries with
  | [] => []
  | (disk_block, count) :: rest =>
      MappingEntry_init file_block disk_block count
      :: create_mapping_from (file_block + count) rest
  end.

(** [MappingEntry.create_mapping], called with the pairs as arguments. *)
Definition MappingEntry_create_mapping (entries : list (Z * Z))
  : list MappingEntry :=
  create_mapping_from 0 entries.

(** The test of [get_block_mapping]: the entry holds the file block. *)
Definition holds_block (file_block : Z) (entry : MappingEntry) : bool :=
  (file_block_idx entry <=? file_block)
  && (file_block <? file_block_idx entry + block_count entry).

(** Entries that follow one another in the file, the first one starting at
    [file_block]. *)
Fixpoint contiguous_from (file_block : Z) (l : list MappingEntry) : Prop :=
  match l with
  | [] => True
  | entry :: rest =>
      file_block_idx entry = file_block
      ∧ contiguous_from (file_block + block_count entry) rest
  end.

(** The number of bytes that [read] sets out to return. *)
Definition wanted_bytes (r : BlockReader) (byte_len : Z) : Z :=
  if byte_len =? -1 then byte_size r - cursor r
  else Z.max 0 (Z.min byte_len (byte_size r - cursor r)).


(** ** wcscmp and the sort key of directory entries *)

(** A [str] is the list of its code points, which is what iterating over it
    and [ord] give. *)
Fixpoint wcscmp_loop (pairs : list (Z * Z)) : option Z :=
  match pairs with
  | [] => None
  | (a, b) :: rest =>
      let tmp := a - b in
      if negb (tmp =? 0) then Some (if tmp <? 0 then -1 else 1)
      else wcscmp_loop rest
  end.

Definition wcscmp (str_a str_b : list Z) : Z :=
  match wcscmp_loop (zip str_a str_b) with
  | Some result => result
  | None =>
      let tmp := Z.of_nat (length str_a) - Z.of_nat (length str_b) in
      if tmp <? 0 then -1 else if tmp >? 0 then 1 else 0
  end.

Section DirectoryEntryKey.
(** [lower] is [str.lower]. *)
Variable lower : list Z → list Z.

Definition directory_entry_key (dir_a dir_b : list Z * Z * Z) : Z :=
  let '(file_name_a, _, file_type_a) := dir_a in
  let '(file_name_b, _, file_type_b) := dir_b in
  if (file_type_a =? IT_DIRECTORY) && (IT_DIRECTORY =? file_type_b)
     || negb (file_type_a =? IT_DIRECTORY) && negb (IT_DIRECTORY =? file_type_b)
  then
    let tmp := wcscmp (lower file_name_a) (lower file_name_b) in
    if negb (tmp =? 0) then tmp else wcscmp file_name_a file_name_b
  else if file_type_a =? IT_DIRECTORY then -1 else 1.

(** The comparison of two names in the first branch. *)
Definition name_cmp (file_name_a file_name_b : list Z) : Z :=
  let tmp := wcscmp (lower file_name_a) (lower file_name_b) in
  if negb (tmp =? 0) then tmp else wcscmp file_name_a file_name_b.

End DirectoryEntryKey.


(** ** Which exceptions a call can raise *)




(** ** Inode.mode_str *)

Definition S_IXOTH : Z := 0x1.
Definition S_IWOTH : Z := 0x2.
Definition S_IROTH : Z := 0x4.
Definition S_IXGRP : Z := 0x8.
Definition S_IWGRP : Z := 0x10.
Definition S_IRGRP : Z := 0x20.
Definition S_IXUSR : Z := 0x40.
Definition S_IWUSR : Z := 0x80.
Definition S_IRUSR : Z := 0x100.
Definition S_ISVTX : Z := 0x200.
Definition S_ISGID : Z := 0x400.
Definition S_ISUID : Z := 0x800.
Definition S_IFIFO : Z := 0x1000.
Definition S_IFCHR : Z := 0x2000.

(** [str.upper] and [str.lower], on ASCII letters. *)
Definition ascii_upper (c : Ascii.ascii) : Ascii.ascii :=
  let n := Ascii.nat_of_ascii c in
  if (97 <=? n)%nat && (n <=? 122)%nat then Ascii.ascii_of_nat (n - 32) else c.

Definition ascii_lower (c : Ascii.ascii) : Ascii.ascii :=
  let n := Ascii.nat_of_ascii c in
  if (65 <=? n)%nat && (n <=? 90)%nat then Ascii.ascii_of_nat (n + 32) else c.

Fixpoint str_upper (s : string) : string :=
  match s with
  | EmptyString => EmptyString
  | String c s => String (ascii_upper c) (str_upper s)
  end.

Fixpoint str_lower (s : string) : string :=
  match s with
  | EmptyString => EmptyString
  | String c s => String (ascii_lower c) (str_lower s)
  end.

(** The [special_flag] lambda: a lookup by [(execute, special)]. *)
Definition special_flag (letter : string) (execute special : bool) : string :=
  match execute, special with
  | false, false => "-"
  | false, true => str_upper letter
  | true, false => "x"
  | true, true => str_lower letter
  end%string.

(** The dictionary of device types, in the order of the source. *)
Definition device_types : list (Z * string) :=
  [(S_IFIFO, "p"); (S_IFCHR, "c"); (S_IFDIR, "d"); (S_IFBLK, "b");
   (S_IFREG, "-"); (S_IFLNK, "l"); (S_IFSOCK, "s")]%string.

Fixpoint dict_get (d : list (Z * string)) (key : Z) : option string :=
  match d with
  | [] => None
  | (k, v) :: rest => if k =? key then Some v else dict_get rest key
  end.

(** The [try] block: an unknown type gives ["?"]. *)
Definition device_type_of (i_mode : Z) : string :=
  match dict_get device_types (Z.land i_mode 0xF000) with
  | Some t => t
  | None => "?"%string
  end.

(** The nine permission entries of the joined list. *)
Definition permission_strings (i_mode : Z) : list string :=
  let bit mask := negb (Z.land i_mode mask =? 0) in
  [ if bit S_IRUSR then "r" else "-";
    if bit S_IWUSR then "w" else "-";
    special_flag "s" (bit S_IXUSR) (bit S_ISUID);
    if bit S_IRGRP then "r" else "-";
    if bit S_IWGRP then "w" else "-";
    special_flag "s" (bit S_IXGRP) (bit S_ISGID);
    if bit S_IROTH then "r" else "-";
    if bit S_IWOTH then "w" else "-";
    special_flag "t" (bit S_IXOTH) (bit S_ISVTX)
  ]%string.

Definition mode_string (i_mode : Z) : string :=
  let device_type := device_type_of i_mode in
  String.concat "" (device_type :: permission_strings i_mode).

(** [Inode.mode_str] *)
Definition Inode_mode_str (ino : Inode) : result string :=
  let* i_mode := getattr (inode ino) "i_mode" in
  Ok (mode_string i_mode).

(** Reading a mode string back: the permission bits that its nine
    permission characters stand for. *)
Definition permission_char (c : Ascii.ascii) (plain special : Z) : Z :=
  let among (l : list string) := existsb (String.eqb (String c EmptyString)) l in
  if among ["r"; "w"; "x"]%string then plain
  else if among ["s"; "t"]%string then Z.lor plain special
  else if among ["S"; "T"]%string then special
  else 0.

Definition permission_bits (s : string) : Z :=
  match String.list_ascii_of_string s with
  | [_; ru; wu; xu; rg; wg; xg; ro; wo; xo] =>
      permission_char ru S_IRUSR 0 + permission_char wu S_IWUSR 0
      + permission_char xu S_IXUSR S_ISUID
      + permission_char rg S_IRGRP 0 + permission_char wg S_IWGRP 0
      + permission_char xg S_IXGRP S_ISGID
      + permission_char ro S_IROTH 0 + permission_char wo S_IWOTH 0
      + permission_char xo S_IXOTH S_ISVTX
  | _ => -1
  end.

(** The check of [permission_bits] against the permission entries, for
    the [count] modes from [i_mode] on. *)
Definition mode_string_checked (i_mode : Z) : bool :=
  let s := String.concat "" ("?"%string :: permission_strings i_mode) in
  (permission_bits s =? i_mode) && (String.length s =? 10)%nat.

Fixpoint mode_strings_checked (count : nat) (i_mode : Z) : bool :=
  match count with
  | O => true
  | S count =>
      mode_string_checked i_mode && mode_strings_checked count (i_mode + 1)
  end.


(** An entry that is a part of another one: within its file blocks, and on
    the disk blocks the other one gives them. *)
Definition piece_of (piece entry : MappingEntry) : Prop :=
  file_block_idx entry ≤ file_block_idx piece
  ∧ file_block_idx piece + block_count piece
    ≤ file_block_idx entry + block_count entry
  ∧ disk_block_idx piece - file_block_idx piece
    = disk_block_idx entry - file_block_idx entry.

(** What [open_dir] does before its loop: the test of the inode and the
    read of the raw directory content. *)
Definition open_dir_raw_data (fuel : nat) (ino : Inode) : result bytes :=
  let* refused := flags_refuse (Inode_volume ino) ino in
  if refused
  then let* _ := format_d (inode_idx ino) in
       Raise (Ext4Error NotADirectory)
  else
    let* reader := Inode_open_read fuel ino in
    Reader_read_all reader.


(** The example image with a directory below the root: the first record of
    the root directory is "d" for inode 11 (type 2); inode 11 is a
    directory whose data, on disk block 9, is the one record "g" for
    inode 13 (type 1). *)
Definition example_tree_stream : bytes :=
  let inode_at (n : Z) := 3 * 1024 + (n - 1) * 256 in
  let extent_header (entries : Z) :=
    le_bytes 2 0xF30A ++ le_bytes 2 entries ++ le_bytes 2 4 ++ le_bytes 2 0
    ++ le_bytes 4 0 in
  let extent (ee_block ee_len ee_start : Z) :=
    le_bytes 4 ee_block ++ le_bytes 2 ee_len ++ le_bytes 2 0
    ++ le_bytes 4 ee_start in
  (* inode 11 *)
  patch (inode_at 11 + 0x00) (le_bytes 2 0x41ED) $
  patch (inode_at 11 + 0x04) (le_bytes 4 12) $
  patch (inode_at 11 + 0x20) (le_bytes 4 0x80000) $
  patch (inode_at 11 + 0x28) (extent_header 1 ++ extent 0 1 9) $
  (* the record of the directory "d" *)
  patch (9 * 1024)
    (le_bytes 4 13 ++ le_bytes 2 12 ++ [byte_of 1; byte_of 1]
     ++ ["g"; "000"; "000"; "000"]%byte) $
  (* the first record of the root directory *)
  patch (7 * 1024)
    (le_bytes 4 11 ++ le_bytes 2 12 ++ [byte_of 1; byte_of 2]
     ++ ["d"; "000"; "000"; "000"]%byte) $
  example_stream.

(** Its root directory. *)
Definition example_tree_root : Inode :=
  inode_or_default
    (let* volume := Volume_init example_tree_stream 0 false false in
     Volume_get_inode volume 2).

(** * Properties *)

(** ** The result type, bytes and the stream *)

Lemma bind_Ok {A B} (m : result A) (k : A → result B) b :
  bind m k = Ok b → ∃ a, m = Ok a ∧ k a = Ok b.
Proof. destruct m; simpl; intros H; try discriminate. eauto. Qed.

Lemma byte_val_range b : 0 ≤ byte_val b < 256.
Proof.
  unfold byte_val. pose proof (Byte.to_N_bounded b). lia.
Qed.

Lemma int_from_bytes_little_range bs :
  0 ≤ int_from_bytes_little bs < 2 ^ (8 * len bs).
Proof.
  induction bs as [|b bs IH]; simpl.
  - unfold len; simpl. lia.
  - pose proof (byte_val_range b).
    replace (8 * len (b :: bs)) with (8 + 8 * len bs)
      by (unfold len; simpl length; lia).
    rewrite Z.pow_add_r by (unfold len; lia).
    change (2 ^ 8) with 256. lia.
Qed.

(** The bytes read do not depend on where the stream stood (a stream never
    stands beyond the largest [ssize_t]). *)
Lemma read_at_bytes stream base offset byte_len :
  fits_ssize_t (BytesIO_tell stream) = true →
  (let* r := read_at stream base offset byte_len in Ok (fst r))
  = read_bytes (buf stream) base offset byte_len.
Proof.
  intros Hpos.
  unfold read_bytes, read_at, BytesIO_seek, BytesIO_read, BytesIO_tell in *.
  cbn [buf pos].
  destruct (Z.eqb_spec (base + offset) (Z.of_N (pos stream))) as [E|E];
    destruct (Z.eqb_spec (base + offset) (Z.of_N 0)) as [E0|E0];
    cbn [negb bind].
  - replace (pos stream) with 0%N by lia. reflexivity.
  - rewrite E, Hpos. cbn [negb].
    destruct (Z.ltb_spec (Z.of_N (pos stream)) 0); [lia|]. cbn [bind buf pos].
    rewrite N2Z.id.
    destruct (negb (fits_ssize_t byte_len && _)); reflexivity.
  - rewrite E0. cbn [Z.of_N].
    change (negb (fits_ssize_t 0)) with false. cbv iota.
    change (0 <? 0) with false. cbv iota. cbn [bind buf pos].
    destruct (negb (fits_ssize_t byte_len && _)); reflexivity.
  - destruct (negb (fits_ssize_t (base + offset))); [reflexivity|].
    destruct (base + offset <? 0); [reflexivity|]. cbn [bind buf pos].
    destruct (negb (fits_ssize_t byte_len && _)); reflexivity.
Qed.

(** The explicit form of [read_bytes]. *)
Lemma read_bytes_eq data base offset byte_len :
  read_bytes data base offset byte_len =
  if negb (fits_ssize_t (base + offset)) then Raise OverflowError
  else if base + offset <? 0 then Raise ValueError
  else if negb (fits_ssize_t byte_len && fits_ssize_t (len data))
  then Raise OverflowError
  else let rest := drop (Z.to_nat (base + offset)) data in
       Ok (if byte_len <? 0 then rest else take (Z.to_nat byte_len) rest).
Proof.
  unfold read_bytes, read_at, BytesIO_seek, BytesIO_tell, BytesIO_read.
  cbn [buf pos].
  destruct (Z.eqb_spec (base + offset) (Z.of_N 0)) as [E0|E0]; cbn [negb bind].
  - rewrite E0. cbn [Z.of_N].
    change (negb (fits_ssize_t 0)) with false. cbv iota.
    change (0 <? 0) with false. cbv iota.
    destruct (negb (fits_ssize_t byte_len && _)); reflexivity.
  - destruct (negb (fits_ssize_t (base + offset))); [reflexivity|].
    destruct (Z.ltb_spec (base + offset) 0); cbn [bind]; [reflexivity|].
    cbn [buf pos].
    destruct (negb (fits_ssize_t byte_len && _)); cbn [bind fst];
      [reflexivity|].
    rewrite Z_N_nat. reflexivity.
Qed.


(** ** Python sequences *)

Lemma py_index_nat {A} (l : list A) (i : nat) x :
  l !! i = Some x → py_index l (Z.of_nat i) = Ok x.
Proof.
  intros H. unfold py_index.
  assert (E : (Z.of_nat i <? 0) = false) by (apply Z.ltb_ge; lia).
  cbv zeta. rewrite E. cbv iota. rewrite E, Nat2Z.id, H. reflexivity.
Qed.

Lemma py_index_nonneg {A} (l : list A) (i : Z) :
  0 ≤ i →
  py_index l i = match l !! Z.to_nat i with
                 | Some x => Ok x
                 | None => Raise IndexError
                 end.
Proof.
  intros H. unfold py_index.
  assert (E : (i <? 0) = false) by (apply Z.ltb_ge; lia).
  cbv zeta. rewrite E. cbv iota. rewrite E. reflexivity.
Qed.

Lemma py_index_cases {A} (l : list A) (i : Z) :
  (∃ x, py_index l i = Ok x) ∨ py_index l i = Raise IndexError.
Proof. unfold py_index. repeat case_match; eauto. Qed.

Lemma len_nonneg {A} (l : list A) : 0 ≤ len l.
Proof. unfold len. lia. Qed.

Lemma len_app {A} (l k : list A) : len (l ++ k) = len l + len k.
Proof. unfold len. rewrite length_app. lia. Qed.

(** ** MappingEntry.optimize *)

Lemma absorb_cons cur rest :
  ∃ c r, absorb cur rest = c :: r ∧ (length r ≤ length rest)%nat
         ∧ stitch_from cur rest = c :: stitch r.
Proof.
  revert cur. induction rest as [|nxt rest IH]; intros cur; simpl.
  - exists cur, []. auto.
  - destruct (disk_adjacent cur nxt) eqn:E.
    + destruct (IH (add_block_count cur (block_count nxt)))
        as (c & r & -> & Hlen & ->).
      exists c, r. auto with lia.
    + exists cur, (nxt :: rest). simpl. auto.
Qed.

Lemma optimize_inner_absorb rest : ∀ fuel pre cur,
  (length rest < fuel)%nat →
  optimize_inner fuel (pre ++ cur :: rest) (length pre)
  = Ok (pre ++ absorb cur rest).
Proof.
  induction rest as [|nxt rest IH]; intros fuel pre cur Hfuel;
    (destruct fuel as [|fuel]; [lia|]); simpl.
  - rewrite length_app. simpl.
    destruct (Nat.ltb_spec (length pre + 1) (length pre + 1)); [lia|].
    reflexivity.
  - rewrite length_app. simpl.
    destruct (Nat.ltb_spec (length pre + 1) (length pre + S (S (length rest))));
      [|lia].
    rewrite (py_index_nat _ _ cur)
      by (rewrite lookup_app_r by lia; rewrite Nat.sub_diag; reflexivity).
    rewrite (py_index_nat _ _ nxt)
      by (rewrite lookup_app_r by lia;
          replace (length pre + 1 - length pre)%nat with 1%nat by lia;
          reflexivity).
    simpl. destruct (disk_adjacent cur nxt); [|reflexivity].
    replace (delete (length pre + 1)%nat (pre ++ cur :: nxt :: rest))
      with (pre ++ cur :: rest).
    2:{ clear. induction pre; simpl; [reflexivity|]. f_equal. assumption. }
    replace (<[length pre := add_block_count cur (block_count nxt)]>
               (pre ++ cur :: rest))
      with (pre ++ add_block_count cur (block_count nxt) :: rest).
    2:{ clear. induction pre; simpl; [reflexivity|]. f_equal. assumption. }
    apply IH. simpl in Hfuel. lia.
Qed.

Lemma optimize_outer_stitch fuel : ∀ pre cur rest,
  (length rest + 1 < fuel)%nat →
  optimize_outer fuel (pre ++ cur :: rest) (length pre)
  = Ok (pre ++ stitch_from cur rest).
Proof.
  induction fuel as [|fuel IH]; intros pre cur rest Hfuel; [lia|].
  simpl. rewrite length_app. simpl.
  destruct (Nat.ltb_spec (length pre) (length pre + S (length rest))); [|lia].
  rewrite optimize_inner_absorb by lia. simpl.
  destruct (absorb_cons cur rest) as (c & r & -> & Hlen & ->).
  destruct r as [|n r'].
  - destruct fuel as [|fuel]; [lia|]. simpl.
    rewrite length_app. simpl.
    destruct (Nat.ltb_spec (length pre + 1) (length pre + 1)); [lia|].
    reflexivity.
  - replace (pre ++ c :: n :: r') with ((pre ++ [c]) ++ n :: r')
      by (rewrite <- app_assoc; reflexivity).
    replace (length pre + 1)%nat with (length (pre ++ [c]))
      by (rewrite length_app; reflexivity).
    rewrite IH by (simpl in Hlen; lia).
    rewrite <- app_assoc. reflexivity.
Qed.

(** The loops of [optimize] terminate and compute [stitch] of the sorted
    list. *)
Lemma MappingEntry_optimize_stitch entries :
  MappingEntry_optimize entries = Ok (stitch (list_sort file_block_idx entries)).
Proof.
  unfold MappingEntry_optimize.
  destruct (list_sort file_block_idx entries) as [|cur rest] eqn:E.
  - reflexivity.
  - apply (optimize_outer_stitch _ [] cur rest). simpl. lia.
Qed.

(** ** The stable sort *)

Section SortProperties.
Context {A : Type} (key : A → Z).

Lemma sort_insert_perm x l : sort_insert key x l ≡ₚ x :: l.
Proof.
  induction l as [|y l IH]; simpl; [reflexivity|].
  destruct (key x <=? key y); [reflexivity|].
  rewrite IH. apply Permutation_swap.
Qed.

Lemma list_sort_perm l : list_sort key l ≡ₚ l.
Proof.
  induction l as [|x l IH]; simpl; [reflexivity|].
  rewrite sort_insert_perm, IH. reflexivity.
Qed.


Lemma sort_insert_sorted x l :
  StronglySorted (key_le key) l → StronglySorted (key_le key) (sort_insert key x l).
Proof.
  induction 1 as [|y l Hl IH Hy]; simpl.
  - repeat constructor.
  - destruct (Z.leb_spec (key x) (key y)) as [Hxy|Hxy].
    + constructor; [constructor; assumption|].
      constructor; [assumption|].
      eapply Forall_impl; [exact Hy|]. unfold key_le. intros; lia.
    + constructor; [assumption|].
      rewrite sort_insert_perm. constructor; [unfold key_le; lia|assumption].
Qed.

Lemma list_sort_sorted l : StronglySorted (key_le key) (list_sort key l).
Proof.
  induction l; simpl; [constructor|]. apply sort_insert_sorted. assumption.
Qed.

(** Stability: the entries of any one key keep their relative order. *)
Lemma sort_insert_stable k x l :
  filter (λ y, key y = k) (sort_insert key x l)
  = filter (λ y, key y = k) (x :: l).
Proof.
  induction l as [|y l IH]; simpl; [reflexivity|].
  destruct (Z.leb_spec (key x) (key y)) as [Hxy|Hxy]; [reflexivity|].
  rewrite (filter_cons _ y), IH, !filter_cons.
  destruct (decide (key y = k)), (decide (key x = k)); try reflexivity.
  lia.
Qed.

Lemma list_sort_stable k l :
  filter (λ y, key y = k) (list_sort key l) = filter (λ y, key y = k) l.
Proof.
  induction l as [|x l IH]; simpl; [reflexivity|].
  rewrite sort_insert_stable, !filter_cons, IH. reflexivity.
Qed.

Lemma list_sort_id l : StronglySorted (key_le key) l → list_sort key l = l.
Proof.
  induction 1 as [|x l Hl IH Hx]; simpl; [reflexivity|].
  rewrite IH. destruct l as [|y l]; simpl; [reflexivity|].
  apply Forall_cons in Hx as [Hxy _]. unfold key_le in Hxy.
  destruct (Z.leb_spec (key x) (key y)); [reflexivity|lia].
Qed.
End SortProperties.

(** ** Stitching *)



(** The first entry of the result is the first entry of the input, grown. *)
Lemma stitch_from_head cur rest :
  ∃ c tl, stitch_from cur rest = c :: tl
          ∧ file_block_idx c = file_block_idx cur
          ∧ disk_block_idx c = disk_block_idx cur.
Proof.
  revert cur. induction rest as [|nxt rest IH]; intros cur; simpl.
  - eauto.
  - destruct (disk_adjacent cur nxt).
    + destruct (IH (add_block_count cur (block_count nxt)))
        as (c & tl & -> & Hf & Hd). eauto.
    + eauto.
Qed.

Lemma stitch_from_coalesced cur rest : coalesced (stitch_from cur rest).
Proof.
  revert cur. induction rest as [|nxt rest IH]; intros cur; simpl.
  - constructor.
  - destruct (disk_adjacent cur nxt) eqn:E; [apply IH|].
    specialize (IH nxt).
    destruct (stitch_from_head nxt rest) as (c & tl & Heq & _ & Hd).
    rewrite Heq in *. constructor; [|assumption].
    unfold disk_adjacent in *. rewrite Hd. assumption.
Qed.

Lemma stitch_coalesced l : coalesced (stitch l).
Proof. destruct l; [constructor|]. apply stitch_from_coalesced. Qed.



(** ** Structures and the block size *)

Lemma read_field_nonneg raw f : 0 ≤ read_field raw f.
Proof. unfold read_field. apply int_from_bytes_little_range. Qed.

Lemma Volume_block_size_Ok v :
  ∃ block_size, Volume_block_size v = Ok block_size ∧ 1024 ≤ block_size.
Proof.
  unfold Volume_block_size, superblock_block_size.
  change (getattr (superblock v) "s_log_block_size")
    with (Ok (A:=Z) (read_field (s_raw (superblock v)) (0x18, 4)%nat)).
  simpl. eexists; split; [reflexivity|].
  pose proof (read_field_nonneg (s_raw (superblock v)) (0x18, 4)%nat) as H.
  rewrite Z.shiftl_mul_pow2 by lia.
  rewrite Z.pow_add_r by lia.
  assert (0 < 2 ^ read_field (s_raw (superblock v)) (24%nat, 4%nat))
    by (apply Z.pow_pos_nonneg; lia).
  change (2 ^ 10) with 1024. nia.
Qed.

(** A single mask bit is set exactly when the bit is. *)
Lemma land_pow2_eqb m n :
  0 ≤ n → (Z.land m (2 ^ n) =? 0) = negb (Z.testbit m n).
Proof.
  intros Hn. destruct (Z.testbit m n) eqn:E; simpl.
  - apply Z.eqb_neq. intros H0.
    assert (Z.testbit (Z.land m (2 ^ n)) n = false) as Hb
      by (rewrite H0; apply Z.bits_0).
    rewrite Z.land_spec, E, Z.pow2_bits_true in Hb by lia. discriminate.
  - apply Z.eqb_eq. apply Z.bits_inj'. intros k Hk.
    rewrite Z.land_spec, Z.bits_0, Z.pow2_bits_eqb by lia.
    destruct (Z.eqb_spec n k) as [->|]; [rewrite E; reflexivity|].
    apply andb_false_r.
Qed.

(** ** Inode.is_dir and Inode.is_file *)

Lemma mode_type_bit i_mode type_ bit :
  0 ≤ bit →
  Z.land i_mode 0xF000 = type_ →
  Z.testbit type_ bit = true →
  Z.testbit i_mode bit = true.
Proof.
  intros Hbit <- H. rewrite Z.land_spec in H.
  apply andb_true_iff in H as [H _]. exact H.
Qed.

(** C9. [Inode.is_dir] and [Inode.is_file] test the single mode bits 0x4000
    (bit 14) and 0x8000 (bit 15).  Hence [is_dir] is true for an inode whose
    mode type is block device (0x6000), and [is_file] is true for one whose
    mode type is symbolic link (0xA000) or socket (0xC000). *)
Theorem is_dir_is_file_single_bit_tests (ino blk lnk sock : Inode)
    (i_mode blk_mode lnk_mode sock_mode : Z) :
  getattr (inode ino) "i_mode" = Ok i_mode →
  getattr (inode blk) "i_mode" = Ok blk_mode →
  Z.land blk_mode 0xF000 = S_IFBLK →
  getattr (inode lnk) "i_mode" = Ok lnk_mode →
  Z.land lnk_mode 0xF000 = S_IFLNK →
  getattr (inode sock) "i_mode" = Ok sock_mode →
  Z.land sock_mode 0xF000 = S_IFSOCK →
  Inode_is_dir ino = Ok (Z.testbit i_mode 14)
  ∧ Inode_is_file ino = Ok (Z.testbit i_mode 15)
  ∧ Inode_is_dir blk = Ok true
  ∧ Inode_is_file lnk = Ok true
  ∧ Inode_is_file sock = Ok true.
Proof.
  intros Hino Hblk Tblk Hlnk Tlnk Hsock Tsock.
  unfold Inode_is_dir, Inode_is_file.
  rewrite Hino, Hblk, Hlnk, Hsock. simpl.
  change S_IFDIR with (2 ^ 14). change S_IFREG with (2 ^ 15).
  rewrite !land_pow2_eqb, !negb_involutive by lia.
  rewrite (mode_type_bit blk_mode S_IFBLK 14) by (done || lia).
  rewrite (mode_type_bit lnk_mode S_IFLNK 15) by (done || lia).
  rewrite (mode_type_bit sock_mode S_IFSOCK 15) by (done || lia).
  auto.
Qed.

Lemma is_dir_is_file_single_bit_tests_witness :
  let dir := example_inode_with_mode empty_volume 0x41ED in
  let blk := example_inode_with_mode empty_volume 0x61B0 in
  let lnk := example_inode_with_mode empty_volume 0xA1FF in
  let sock := example_inode_with_mode empty_volume 0xC1ED in
  Inode_is_dir dir = Ok (Z.testbit 0x41ED 14)
  ∧ Inode_is_file dir = Ok (Z.testbit 0x41ED 15)
  ∧ Inode_is_dir blk = Ok true
  ∧ Inode_is_file lnk = Ok true
  ∧ Inode_is_file sock = Ok true.
Proof.
  intros dir blk lnk sock.
  apply (is_dir_is_file_single_bit_tests dir blk lnk sock
           0x41ED 0x61B0 0xA1FF 0xC1ED); reflexivity.
Defined.

(** ** BlockReader.seek and BlockReader.tell *)

(** The absolute target that [seek] computes. *)
Lemma BlockReader_seek_target r seek seek_mode :
  let target :=
    if seek_mode =? SEEK_CUR then seek + cursor r
    else if seek_mode =? SEEK_END then seek + byte_size r
    else seek in
  BlockReader_seek r seek seek_mode =
  if target <? 0 then (Raise (OSError EINVAL), r)
  else (Ok target, set_cursor r target).
Proof. reflexivity. Qed.

Lemma BlockReader_seek_set r offset :
  0 ≤ offset →
  BlockReader_seek r offset SEEK_SET = (Ok offset, set_cursor r offset).
Proof.
  intros H. unfold BlockReader_seek. simpl.
  destruct (Z.ltb_spec offset 0); [lia|reflexivity].
Qed.

(** C10. When [seek] raises the invalid-argument error, which it does
    exactly when the computed absolute target is negative, the reader is
    left as it was: [tell] returns the same value as before. *)
Theorem seek_invalid_argument_keeps_cursor r seek seek_mode :
  fst (BlockReader_seek r seek seek_mode) = Raise (OSError EINVAL) →
  snd (BlockReader_seek r seek seek_mode) = r
  ∧ BlockReader_tell (snd (BlockReader_seek r seek seek_mode))
    = BlockReader_tell r.
Proof.
  rewrite BlockReader_seek_target. cbv zeta.
  destruct (_ <? 0); simpl; [auto|discriminate].
Qed.

Lemma seek_invalid_argument_keeps_cursor_witness :
  let r := {| byte_size := 100; BlockReader_volume := empty_volume;
              cursor := 7; block_map := [] |} in
  fst (BlockReader_seek r (-8) SEEK_CUR) = Raise (OSError EINVAL)
  ∧ snd (BlockReader_seek r (-8) SEEK_CUR) = r
  ∧ BlockReader_tell (snd (BlockReader_seek r (-8) SEEK_CUR))
    = BlockReader_tell r.
Proof.
  intros r. split; [reflexivity|].
  apply (seek_invalid_argument_keeps_cursor r (-8) SEEK_CUR). reflexivity.
Defined.

(** ** BlockReader.read with the cursor past the end *)

(** A non-negative size is clamped to zero bytes: the read is empty and the
    reader does not change. *)
Lemma read_past_end_nonneg r n :
  byte_size r < cursor r → 0 ≤ n → BlockReader_read r n = (Ok [], r).
Proof.
  intros Hpast Hn. unfold BlockReader_read.
  destruct (Z.ltb_spec n (-1)); [lia|].
  destruct (Z.eqb_spec n (-1)); [lia|].
  replace (Z.max 0 (Z.min n (byte_size r - cursor r))) with 0 by lia.
  reflexivity.
Qed.

(** The size [-1] is not clamped: the wanted length is negative, so the
    final length check can never succeed and no bytes are returned. *)
Lemma read_all_past_end_not_Ok r data :
  byte_size r < cursor r → fst (BlockReader_read r (-1)) ≠ Ok data.
Proof.
  intros Hpast. unfold BlockReader_read. simpl.
  destruct (Z.eqb_spec (byte_size r - cursor r) 0); [lia|].
  destruct (BlockReader_fetch r (byte_size r - cursor r)) as [res| |];
    simpl; try discriminate.
  destruct (Z.eqb_spec (len res) (byte_size r - cursor r)) as [E|E]; simpl;
    [|discriminate].
  pose proof (len_nonneg res). lia.
Qed.

(** C8 (the code departs from the claim).  On the two-extent file of the
    example image, of 2048 bytes, [seek(3000)] succeeds and a following
    [read(5)] is empty, but [read(-1)] raises [BlockMapError] instead of
    returning the empty byte string.  On a reader of 10 bytes over disk
    block 8, [seek(20)] then [read(-1)] asks the volume for a negative
    number of bytes, raises [EndOfStreamError] and moves the cursor. *)
Theorem read_all_after_seek_past_end_raises :
  (let* r := example_reader in
   let '(sought, r) := BlockReader_seek r 3000 SEEK_SET in
   Ok (byte_size r, sought, fst (BlockReader_read r 5),
       fst (BlockReader_read r (-1))))
  = Ok (2048, Ok 3000, Ok [], Raise BlockMapError)
  ∧ (let* volume := example_volume in
     let* r := BlockReader_init volume 10 [MappingEntry_init 0 8 1] in
     let '(sought, r) := BlockReader_seek r 20 SEEK_SET in
     let '(outcome, r') := BlockReader_read r (-1) in
     Ok (sought, outcome, BlockReader_tell r, BlockReader_tell r'))
    = Ok (Ok 20, Raise EndOfStreamError, 20, 20 + (3 * 1024 - 20)).
Proof. split; vm_compute; reflexivity. Qed.

(** ** Inode.open_read without the extents flag *)

(** [ext4_inode] declares [i_flags]; there is no [I_flags], [I_flags_lo] or
    [I_flags_hi], so reading the attribute raises. *)
Lemma getattr_I_flags (s : struct ext4_inode) :
  getattr s "I_flags" = Raise AttributeError.
Proof. reflexivity. Qed.

Lemma getattr_i_flags (s : struct ext4_inode) :
  getattr s "i_flags" = Ok (read_field (s_raw s) (0x20, 4)%nat).
Proof. reflexivity. Qed.

(** Whatever the inline-data flag says, an inode without the extents flag
    cannot be opened. *)
Lemma open_read_without_extents fuel ino i_flags :
  getattr (inode ino) "i_flags" = Ok i_flags →
  Z.land i_flags EXT4_EXTENTS_FL = 0 →
  Inode_open_read fuel ino = Raise AttributeError.
Proof.
  intros Hflags Hext. unfold Inode_open_read.
  rewrite Hflags. cbn [bind]. rewrite Hext.
  change (negb (0 =? 0)) with false. cbv iota.
  rewrite getattr_I_flags. reflexivity.
Qed.

(** C4 (the code departs from the claim).  Inode 12 of the example image
    has the inline-data flag set, the extents flag clear and size 42;
    [open_read()] raises [AttributeError] instead of returning a stream of
    42 bytes. *)
Theorem open_read_inline_data_raises :
  (let* volume := example_volume in
   let* ino := Volume_get_inode volume 12 in
   let* i_flags := getattr (inode ino) "i_flags" in
   let* i_size := getattr (inode ino) "i_size" in
   Ok (Z.land i_flags EXT4_INLINE_DATA_FL, Z.land i_flags EXT4_EXTENTS_FL,
       i_size, Inode_open_read 4 ino))
  = Ok (EXT4_INLINE_DATA_FL, 0, 42, Raise AttributeError).
Proof. vm_compute. reflexivity. Qed.

(** ** Volume.get_inode *)

Lemma Volume_get_inode_volume v idx ino :
  Volume_get_inode v idx = Ok ino →
  Inode_volume ino = v ∧ inode_idx ino = Some idx.
Proof.
  unfold Volume_get_inode. intros H.
  apply bind_Ok in H as ([g e] & _ & H).
  apply bind_Ok in H as (gd & _ & H).
  apply bind_Ok in H as (tbl & _ & H).
  apply bind_Ok in H as (bs & _ & H).
  apply bind_Ok in H as (isz & _ & H).
  unfold Inode_init in H.
  apply bind_Ok in H as (s & _ & H).
  injection H as <-. auto.
Qed.

(** C6, as the code has it.  There is no range check of its own in
    [get_inode]; the group descriptor is fetched by a Python list index.
    For an index of at least 1 (and a non-zero [s_inodes_per_group]) the
    call raises [IndexError] when [(index - 1) / inodes_per_group] is not
    below the number of group descriptors, and otherwise parses the inode
    record at [inode_table_base + ((index - 1) mod inodes_per_group) *
    inode_size] of that group. *)
Theorem get_inode_from_index_one v index inodes_per_group :
  1 ≤ index →
  getattr (superblock v) "s_inodes_per_group" = Ok inodes_per_group →
  inodes_per_group ≠ 0 →
  let group := (index - 1) / inodes_per_group in
  let entry := (index - 1) mod inodes_per_group in
  if len (group_descriptors v) <=? group
  then Volume_get_inode v index = Raise IndexError
  else ∃ descriptor inode_table block_size inode_size,
      group_descriptors v !! Z.to_nat group = Some descriptor
      ∧ getattr descriptor "bg_inode_table" = Ok inode_table
      ∧ Volume_block_size v = Ok block_size
      ∧ getattr (superblock v) "s_inode_size" = Ok inode_size
      ∧ Volume_get_inode v index
        = Inode_init v (inode_table * block_size + entry * inode_size)
            (Some index).
Proof.
  intros Hidx Hipg Hnz group entry.
  assert (0 ≤ inodes_per_group) as Hpos.
  { change (getattr (superblock v) "s_inodes_per_group")
      with (Ok (A:=Z) (read_field (s_raw (superblock v)) (0x28, 4)%nat)) in Hipg.
    injection Hipg as <-. apply read_field_nonneg. }
  assert (0 ≤ group) as Hgroup by (apply Z.div_pos; lia).
  unfold Volume_get_inode, Volume_get_inode_group, floordiv, pymod.
  rewrite Hipg. cbn [bind].
  destruct (Z.eqb_spec inodes_per_group 0); [lia|]. cbn [bind].
  fold group entry. rewrite py_index_nonneg by assumption.
  destruct (Z.leb_spec (len (group_descriptors v)) group) as [Hout|Hin].
  - rewrite lookup_ge_None_2 by (unfold len in Hout; lia). reflexivity.
  - destruct (lookup_lt_is_Some_2 (group_descriptors v) (Z.to_nat group))
      as [gd Hgd]; [unfold len in Hin; lia|].
    rewrite Hgd. cbn [bind].
    destruct (Volume_block_size_Ok v) as (bs & Hbs & _).
    exists gd. eexists. exists bs. eexists.
    split; [reflexivity|]. split; [reflexivity|].
    split; [exact Hbs|]. split; [reflexivity|].
    rewrite Hbs. reflexivity.
Qed.

Lemma get_inode_from_index_one_witness :
  let v := volume_or_empty example_volume in
  (1 ≤ 12 ∧ getattr (superblock v) "s_inodes_per_group" = Ok 16 ∧ 16 ≠ 0)
  ∧ (∃ descriptor inode_table block_size inode_size,
        group_descriptors v !! Z.to_nat ((12 - 1) / 16) = Some descriptor
        ∧ getattr descriptor "bg_inode_table" = Ok inode_table
        ∧ Volume_block_size v = Ok block_size
        ∧ getattr (superblock v) "s_inode_size" = Ok inode_size
        ∧ Volume_get_inode v 12
          = Inode_init v (inode_table * block_size + (12 - 1) mod 16 * inode_size)
              (Some 12))
  ∧ Volume_get_inode v 17 = Raise IndexError.
Proof.
  intros v.
  assert (getattr (superblock v) "s_inodes_per_group" = Ok 16) as Hipg
    by (vm_compute; reflexivity).
  split; [split; [lia|split; [exact Hipg|lia]]|]. split.
  - exact (get_inode_from_index_one v 12 16 ltac:(lia) Hipg ltac:(lia)).
  - exact (get_inode_from_index_one v 17 16 ltac:(lia) Hipg ltac:(lia)).
Defined.

(** C6, as stated, fails.  Index 0 is below 1, yet [get_inode(0)] raises
    nothing: the group index is [-1], which Python takes from the end of the
    descriptor list, and the record of the last inode of the last group
    (inode 16 of the example image, at 3 * 1024 + 15 * 256) is parsed. *)
Lemma get_inode_index_zero_returns_an_inode :
  (let* volume := example_volume in
   let* group := Volume_get_inode_group volume 0 in
   let* ino := Volume_get_inode volume 0 in
   Ok (len (group_descriptors volume), group, inode_idx ino, Inode_offset ino))
  = Ok (1, (-1, 15), Some 0, 3 * 1024 + 15 * 256).
Proof. vm_compute. reflexivity. Qed.

(** ** Inode.get_inode *)

(** The first test of [get_inode] does not consult [ignore_flags]. *)
Lemma get_inode_start_not_directory {Name} `{EqDecision Name}
    (utf8 : bytes → result Name) (is_str : Name → bool)
    fuel self relative_path decode_name idx :
  Inode_is_dir self = Ok false →
  inode_idx self = Some idx →
  Inode_get_inode utf8 is_str fuel self relative_path decode_name
  = Raise (Ext4Error NotADirectory).
Proof.
  intros Hdir Hidx. unfold Inode_get_inode.
  rewrite Hdir. cbn [bind negb]. rewrite Hidx. reflexivity.
Qed.

(** C7 (the code departs from the claim).  The example volume is opened
    with [ignore_flags = True]; inode 12 is a regular file.  Path resolution
    starting at it raises the not-a-directory error, for a path of one name
    and for the empty path alike. *)
Theorem get_inode_ignore_flags_start_not_directory :
  (let* volume := example_volume_ignore_flags in
   let* ino := Volume_get_inode volume 12 in
   let* is_dir := Inode_is_dir ino in
   Ok (ignore_flags volume, is_dir,
       Inode_get_inode latin1 (λ _, true) 4 ino ["f"%string] (Some latin1),
       Inode_get_inode latin1 (λ _, true) 4 ino [] (Some latin1)))
  = Ok (true, false,
        Raise (Ext4Error NotADirectory), Raise (Ext4Error NotADirectory)).
Proof. vm_compute. reflexivity. Qed.

(** ** Inode.open_dir *)

Lemma lor_shiftl_8 hi lo :
  0 ≤ lo < 256 → Z.lor (Z.shiftl hi 8) lo = lo + 256 * hi.
Proof.
  intros Hlo.
  assert (Z.land (Z.shiftl hi 8) lo = 0) as Hland.
  { apply Z.bits_inj'. intros k Hk. rewrite Z.land_spec, Z.bits_0.
    destruct (Z.lt_ge_cases k 8).
    - rewrite Z.shiftl_spec_low by lia. reflexivity.
    - destruct (Z.eq_dec lo 0) as [->|].
      + rewrite Z.bits_0. apply andb_false_r.
      + rewrite (Z.bits_above_log2 lo k); [apply andb_false_r|lia|].
        apply Z.log2_lt_pow2; [lia|].
        apply Z.lt_le_trans with (2 ^ 8); [simpl; lia|].
        apply Z.pow_le_mono_r; lia. }
  rewrite <- Z.lxor_lor by assumption.
  rewrite <- Z.add_nocarry_lxor by assumption.
  rewrite Z.shiftl_mul_pow2 by lia. change (2 ^ 8) with 256. lia.
Qed.

(** What the loop reads at [offset] is the record found there. *)
Lemma record_at_header raw_data offset r :
  0 ≤ offset →
  record_at raw_data offset = Some r →
  ∃ file_type hi lo name_len,
    py_index raw_data (offset + 7) = Ok file_type
    ∧ py_index raw_data (offset + 5) = Ok hi
    ∧ py_index raw_data (offset + 4) = Ok lo
    ∧ py_index raw_data (offset + 6) = Ok name_len
    ∧ d_file_type r = byte_val file_type
    ∧ d_rec_len r = Z.lor (Z.shiftl (byte_val hi) 8) (byte_val lo)
    ∧ d_inode r = int_from_bytes_little (py_slice raw_data offset (offset + 4))
    ∧ d_name r = py_slice raw_data (offset + 8) (offset + 8 + byte_val name_len).
Proof.
  intros Hoff. unfold record_at.
  destruct (drop (Z.to_nat offset) raw_data)
    as [|i0 [|i1 [|i2 [|i3 [|l0 [|l1 [|nl [|ft rest]]]]]]]] eqn:E;
    try discriminate.
  intros [= <-]. simpl.
  assert (∀ k x, (i0 :: i1 :: i2 :: i3 :: l0 :: l1 :: nl :: ft :: rest) !! k
                 = Some x →
                 py_index raw_data (offset + Z.of_nat k) = Ok x) as Hk.
  { intros k x Hx. rewrite <- E, lookup_drop in Hx.
    rewrite py_index_nonneg by lia.
    replace (Z.to_nat (offset + Z.of_nat k)) with (Z.to_nat offset + k)%nat
      by lia.
    rewrite Hx. reflexivity. }
  exists ft, l1, l0, nl.
  split; [apply (Hk 7%nat); reflexivity|].
  split; [apply (Hk 5%nat); reflexivity|].
  split; [apply (Hk 4%nat); reflexivity|].
  split; [apply (Hk 6%nat); reflexivity|].
  split; [reflexivity|].
  split.
  { rewrite lor_shiftl_8 by apply byte_val_range. lia. }
  unfold py_slice. split.
  - replace (Z.to_nat (offset + 4 - offset)) with 4%nat by lia.
    rewrite E. reflexivity.
  - replace (Z.to_nat (offset + 8 + byte_val nl - (offset + 8)))
      with (Z.to_nat (byte_val nl)) by lia.
    replace (Z.to_nat (offset + 8)) with (Z.to_nat offset + 8)%nat by lia.
    rewrite <- drop_drop, E. reflexivity.
Qed.

(** Where the loop can read the file type there is a whole header. *)
Lemma record_at_is_Some raw_data offset file_type :
  0 ≤ offset →
  py_index raw_data (offset + 7) = Ok file_type →
  is_Some (record_at raw_data offset).
Proof.
  intros Hoff H. rewrite py_index_nonneg in H by lia.
  destruct (raw_data !! Z.to_nat (offset + 7)) as [x|] eqn:E; [|discriminate].
  apply lookup_lt_Some in E.
  unfold record_at.
  pose proof (length_drop raw_data (Z.to_nat offset)) as Hlen.
  destruct (drop (Z.to_nat offset) raw_data)
    as [|i0 [|i1 [|i2 [|i3 [|l0 [|l1 [|nl [|ft rest]]]]]]]];
    simpl in Hlen; try lia.
  eauto.
Qed.

Lemma d_rec_len_nonneg raw_data offset r :
  record_at raw_data offset = Some r → 0 ≤ d_rec_len r.
Proof.
  unfold record_at.
  destruct (drop (Z.to_nat offset) raw_data)
    as [|i0 [|i1 [|i2 [|i3 [|l0 [|l1 [|nl [|ft rest]]]]]]]];
    try discriminate.
  intros [= <-]. simpl. apply (int_from_bytes_little_range [l0; l1]).
Qed.

Section OpenDir.
Context {Name : Type} (decode_name : bytes → result Name).

(** One round of the loop, in terms of the record at [offset]. *)
Lemma open_dir_loop_step fuel raw_data offset :
  0 ≤ offset →
  open_dir_loop (S fuel) decode_name raw_data offset =
  if offset <? len raw_data then
    match record_at raw_data offset with
    | None => ([], Raise IndexError)
    | Some r =>
        let continue :=
          open_dir_loop fuel decode_name raw_data (offset + d_rec_len r) in
        if is_checksum r then continue
        else
          match entry_of decode_name r with
          | Ok entry => gen_yield entry continue
          | Raise e => ([], Raise e)
          | OutOfFuel => ([], OutOfFuel)
          end
    end
  else ([], Ok tt).
Proof.
  intros Hoff. cbn [open_dir_loop].
  destruct (offset <? len raw_data); [|reflexivity].
  destruct (record_at raw_data offset) as [r|] eqn:Hr.
  - destruct (record_at_header _ _ _ Hoff Hr)
      as (ft & hi & lo & nl & -> & -> & -> & Hnl & Hft & Hlen & Hino & Hname).
    cbn [bind]. rewrite Hnl. cbn [bind].
    unfold is_checksum, entry_of. rewrite Hft, Hlen, Hino, Hname.
    destruct (byte_val ft =? IT_CHECKSUM); cbn [negb]; [reflexivity|].
    destruct (decode_name _); reflexivity.
  - destruct (py_index raw_data (offset + 7)) as [ft| |] eqn:Hft.
    + destruct (record_at_is_Some _ _ _ Hoff Hft) as [r Hr']. congruence.
    + destruct (py_index_cases raw_data (offset + 7)) as [[x Hx]|Hx];
        rewrite Hx in Hft; [discriminate|].
      injection Hft as <-. reflexivity.
    + destruct (py_index_cases raw_data (offset + 7)) as [[x Hx]|Hx];
        rewrite Hx in Hft; discriminate.
Qed.

(** When the generator returns, it has yielded, in order, the tuple of
    every record that is not a checksum record. *)
Lemma open_dir_loop_records fuel : ∀ raw_data offset yielded,
  0 ≤ offset →
  open_dir_loop fuel decode_name raw_data offset = (yielded, Ok tt) →
  mapM (entry_of decode_name)
       (List.filter (λ r, negb (is_checksum r))
                    (dir_records fuel raw_data offset))
  = Ok yielded.
Proof.
  induction fuel as [|fuel IH]; intros raw_data offset yielded Hoff;
    [discriminate|].
  rewrite open_dir_loop_step by assumption. cbn [dir_records].
  destruct (offset <? len raw_data); [|intros [= <-]; reflexivity].
  destruct (record_at raw_data offset) as [r|] eqn:Hr; [|discriminate].
  pose proof (d_rec_len_nonneg _ _ _ Hr) as Hlen.
  cbn [List.filter]. cbv zeta.
  destruct (is_checksum r); cbn [negb].
  - apply IH. lia.
  - destruct (entry_of decode_name r) as [entry| |] eqn:He;
      try discriminate.
    destruct (open_dir_loop fuel decode_name raw_data (offset + d_rec_len r))
      as [ys ending] eqn:Hloop.
    unfold gen_yield. cbn [fst snd]. intros [= <- ->].
    cbn [mapM bind]. rewrite He, (IH _ _ ys) by (lia || assumption).
    reflexivity.
Qed.
End OpenDir.

Lemma mapM_entry_of_types {Name} (decode_name : bytes → result Name) records :
  ∀ yielded,
  mapM (entry_of decode_name) records = Ok yielded →
  Forall2 (λ r entry, decode_name (d_name r) = Ok entry.1.1
                      ∧ entry.1.2 = d_inode r ∧ entry.2 = d_file_type r)
          records yielded.
Proof.
  induction records as [|r records IH]; intros yielded; cbn [mapM].
  - intros [= <-]. constructor.
  - intros H. apply bind_Ok in H as (entry & He & H).
    apply bind_Ok in H as (ys & Hys & [= <-]).
    constructor; [|apply IH; assumption].
    unfold entry_of in He. apply bind_Ok in He as (name & Hname & [= <-]).
    auto.
Qed.

Lemma gen_yield_ending {A} (x : A) g : snd (gen_yield x g) = snd g.
Proof. reflexivity. Qed.

(** The loop returns within [len(raw_data) + 1] rounds when every record it
    meets has a positive record length. *)
Lemma open_dir_loop_enough_fuel {Name} (decode_name : bytes → result Name)
    raw_data fuel : ∀ offset,
  (∀ name, decode_name name ≠ OutOfFuel) →
  (∀ n r, r ∈ dir_records n raw_data offset → 0 < d_rec_len r) →
  0 ≤ offset →
  Z.max 0 (len raw_data - offset) < Z.of_nat fuel →
  snd (open_dir_loop fuel decode_name raw_data offset) ≠ OutOfFuel.
Proof.
  induction fuel as [|fuel IH]; intros offset Hdec Hpos Hoff Hfuel; [lia|].
  - rewrite open_dir_loop_step by assumption.
    destruct (Z.ltb_spec offset (len raw_data)); [|discriminate].
    destruct (record_at raw_data offset) as [r|] eqn:Hr; [|discriminate].
    assert (0 < d_rec_len r) as Hlen.
    { apply (Hpos 1%nat). cbn [dir_records].
      destruct (Z.ltb_spec offset (len raw_data)); [|lia].
      rewrite Hr. apply list_elem_of_here. }
    assert (snd (open_dir_loop fuel decode_name raw_data (offset + d_rec_len r))
            ≠ OutOfFuel) as Hrest.
    { apply IH; [assumption| |lia|lia].
      intros n r' Hr'. apply (Hpos (S n)). cbn [dir_records].
      destruct (Z.ltb_spec offset (len raw_data)); [|lia].
      rewrite Hr. apply list_elem_of_further. assumption. }
    cbv zeta. destruct (is_checksum r); [assumption|].
    unfold entry_of. specialize (Hdec (d_name r)).
    destruct (decode_name (d_name r)); cbn [bind]; try discriminate;
      [|congruence].
    rewrite gen_yield_ending. assumption.
Qed.

(** A run of the loop, however it ends: the entries yielded are those of
    the records that are not checksum records among the first [n] records
    met; a run that returned has met all the records there are, and a run
    that raised has stopped at the record behind them, which has no
    complete header ([IndexError]) or a name that does not decode. *)
Lemma open_dir_loop_run {Name} (decode_name : bytes → result Name) fuel :
  ∀ raw_data offset yielded ending,
  0 ≤ offset →
  open_dir_loop fuel decode_name raw_data offset = (yielded, ending) →
  ∃ n, (n ≤ fuel)%nat
    ∧ mapM (entry_of decode_name)
           (List.filter (λ r, negb (is_checksum r))
                        (dir_records n raw_data offset))
      = Ok yielded
    ∧ match ending with
      | Ok _ =>
          ∀ m, (n ≤ m)%nat →
               dir_records m raw_data offset = dir_records n raw_data offset
      | Raise e =>
          (dir_records (S n) raw_data offset = dir_records n raw_data offset
           ∧ e = IndexError)
          ∨ (∃ r, dir_records (S n) raw_data offset
                  = dir_records n raw_data offset ++ [r]
                  ∧ is_checksum r = false
                  ∧ decode_name (d_name r) = Raise e)
      | OutOfFuel => True
      end.
Proof.
  induction fuel as [|fuel IH]; intros raw_data offset yielded ending Hoff.
  { intros [= <- <-]. exists 0%nat. split; [lia|]. split; [reflexivity|exact I]. }
  rewrite open_dir_loop_step by assumption.
  destruct (Z.ltb_spec offset (len raw_data)) as [Hin|Hout].
  2: { intros [= <- <-]. exists 0%nat. split; [lia|]. split; [reflexivity|].
       intros [|m] _; [reflexivity|]. cbn [dir_records].
       destruct (Z.ltb_spec offset (len raw_data)); [lia|reflexivity]. }
  assert (∀ k, dir_records (S k) raw_data offset
               = match record_at raw_data offset with
                 | Some r => r :: dir_records k raw_data (offset + d_rec_len r)
                 | None => []
                 end) as Hstep.
  { intros k. cbn [dir_records].
    destruct (Z.ltb_spec offset (len raw_data)); [reflexivity|lia]. }
  destruct (record_at raw_data offset) as [r|] eqn:Hr.
  2: { intros [= <- <-]. exists 0%nat. split; [lia|]. split; [reflexivity|].
       left. rewrite Hstep. split; reflexivity. }
  pose proof (d_rec_len_nonneg _ _ _ Hr) as Hlen. cbv zeta.
  destruct (is_checksum r) eqn:Hck.
  - intros Hrun. apply IH in Hrun as (n & Hn & Hmap & Hend); [|lia].
    exists (S n). split; [lia|]. rewrite Hstep. cbn [List.filter].
    rewrite Hck. cbn [negb]. split; [exact Hmap|].
    destruct ending as [u|e|]; [| |exact I].
    + intros [|m] Hm; [lia|]. rewrite Hstep. f_equal. apply Hend. lia.
    + rewrite Hstep. destruct Hend as [[Hsame ->]|(r' & Hmore & Hck' & Hdec)].
      * left. split; [f_equal; exact Hsame|reflexivity].
      * right. exists r'. rewrite Hmore. auto.
  - destruct (entry_of decode_name r) as [entry|e|] eqn:He.
    + destruct (open_dir_loop fuel decode_name raw_data (offset + d_rec_len r))
        as [ys ending'] eqn:Hloop.
      unfold gen_yield. cbn [fst snd]. intros [= <- <-].
      apply IH in Hloop as (n & Hn & Hmap & Hend); [|lia].
      exists (S n). split; [lia|]. rewrite Hstep. cbn [List.filter].
      rewrite Hck. cbn [negb mapM bind]. rewrite He, Hmap. cbn [bind].
      split; [reflexivity|].
      destruct ending' as [u|e|]; [| |exact I].
      * intros [|m] Hm; [lia|]. rewrite Hstep. f_equal. apply Hend. lia.
      * rewrite Hstep. destruct Hend as [[Hsame ->]|(r' & Hmore & Hck' & Hdec)].
        -- left. split; [f_equal; exact Hsame|reflexivity].
        -- right. exists r'. rewrite Hmore. auto.
    + intros [= <- <-]. exists 0%nat. split; [lia|]. split; [reflexivity|].
      right. exists r. rewrite Hstep. split; [reflexivity|].
      split; [exact Hck|]. unfold entry_of in He.
      destruct (decode_name (d_name r)); cbn [bind] in He;
        [discriminate|injection He as ->; reflexivity|discriminate].
    + intros [= <- <-]. exists 0%nat. split; [lia|]. split; [reflexivity|].
      exact I.
Qed.

Lemma Inode_open_dir_unfold {Name} (utf8 : bytes → result Name) fuel ino
    decode_name :
  Inode_open_dir utf8 fuel ino decode_name
  = match open_dir_raw_data fuel ino with
    | Ok raw_data => open_dir_loop fuel (default utf8 decode_name) raw_data 0
    | Raise e => ([], Raise e)
    | OutOfFuel => ([], OutOfFuel)
    end.
Proof. destruct decode_name; reflexivity. Qed.

(** C1, as the code has it.  However a run of [open_dir] ends (it
    returns, it raises, or it is still under way), the entries it has
    yielded are those of the records of the directory data in on-disk
    order, each one found [rec_len] bytes after the previous one, as tuples
    (decoded name, inode number, file type); the records of file type 0xDE
    are the only ones left out, and a record whose inode number is 0 is
    yielded like any other.  A run that returned has met all the records
    there are; a run that raised in the loop has stopped at the record
    behind the ones met, which has no complete header ([IndexError]) or a
    name that does not decode; and when the inode is refused or its content
    cannot be read, that error ends the run and nothing is yielded. *)
Theorem open_dir_yields_all_but_checksum_records {Name}
    (utf8 : bytes → result Name) fuel ino decode_name yielded ending :
  Inode_open_dir utf8 fuel ino decode_name = (yielded, ending) →
  Forall (λ entry : Name * Z * Z, entry.2 ≠ IT_CHECKSUM) yielded
  ∧ match open_dir_raw_data fuel ino with
    | Ok raw_data =>
        ∃ n, (n ≤ fuel)%nat
          ∧ mapM (entry_of (default utf8 decode_name))
                 (List.filter (λ r, negb (is_checksum r))
                              (dir_records n raw_data 0))
            = Ok yielded
          ∧ match ending with
            | Ok _ =>
                ∀ m, (n ≤ m)%nat →
                     dir_records m raw_data 0 = dir_records n raw_data 0
            | Raise e =>
                (dir_records (S n) raw_data 0 = dir_records n raw_data 0
                 ∧ e = IndexError)
                ∨ (∃ r, dir_records (S n) raw_data 0
                        = dir_records n raw_data 0 ++ [r]
                        ∧ is_checksum r = false
                        ∧ default utf8 decode_name (d_name r) = Raise e)
            | OutOfFuel => True
            end
    | Raise e => yielded = [] ∧ ending = Raise e
    | OutOfFuel => yielded = [] ∧ ending = OutOfFuel
    end.
Proof.
  rewrite Inode_open_dir_unfold. intros H.
  destruct (open_dir_raw_data fuel ino) as [raw_data|e|];
    [|injection H as <- <-; split; [constructor|split; reflexivity]..].
  apply open_dir_loop_run in H as (n & Hn & Hmap & Hend); [|lia].
  split; [|exists n; split; [exact Hn|split; [exact Hmap|exact Hend]]].
  pose proof (mapM_entry_of_types _ _ _ Hmap) as Htypes.
  assert (Forall (λ r, d_file_type r ≠ IT_CHECKSUM)
            (List.filter (λ r, negb (is_checksum r))
               (dir_records n raw_data 0))) as Hft.
  { apply Forall_forall. intros r Hr.
    apply list_elem_of_In, filter_In in Hr as [_ Hr].
    unfold is_checksum in Hr. apply negb_true_iff, Z.eqb_neq in Hr. exact Hr. }
  revert Hft. clear Hmap. induction Htypes as [|r entry rs ys (_ & _ & Heq) _ IH];
    intros Hft; constructor.
  - apply Forall_cons in Hft as [Hft _]. rewrite Heq. exact Hft.
  - apply IH. apply Forall_cons in Hft as [_ Hft]. exact Hft.
Qed.

Lemma open_dir_yields_all_but_checksum_records_witness :
  let yielded := [("old"%string, 0, 1); ("f"%string, 12, 1)] in
  Inode_open_dir latin1 4 example_root (Some latin1) = (yielded, Ok tt)
  ∧ Forall (λ entry : string * Z * Z, entry.2 ≠ IT_CHECKSUM) yielded
  ∧ match open_dir_raw_data 4 example_root with
    | Ok raw_data =>
        ∃ n, (n ≤ 4)%nat
          ∧ mapM (entry_of (default latin1 (Some latin1)))
                 (List.filter (λ r, negb (is_checksum r))
                              (dir_records n raw_data 0))
            = Ok yielded
          ∧ ∀ m, (n ≤ m)%nat →
                 dir_records m raw_data 0 = dir_records n raw_data 0
    | Raise e => yielded = [] ∧ Ok tt = Raise e
    | OutOfFuel => yielded = [] ∧ Ok tt = OutOfFuel
    end.
Proof.
  intros yielded.
  assert (Inode_open_dir latin1 4 example_root (Some latin1)
          = (yielded, Ok tt)) as H by (vm_compute; reflexivity).
  split; [exact H|].
  exact (open_dir_yields_all_but_checksum_records latin1 4 example_root
           (Some latin1) yielded (Ok tt) H).
Defined.

(** C1, as stated, fails.  The root directory of the example image holds an
    unused record (inode number 0, file type 1, name "old"), the record of
    "f" and a checksum record; [open_dir] yields the unused record. *)
Lemma open_dir_yields_entry_with_inode_zero :
  (let* volume := example_volume in
   let* root := Volume_get_inode volume 2 in
   Ok (Inode_open_dir latin1 4 root (Some latin1)))
  = Ok ([("old"%string, 0, 1); ("f"%string, 12, 1)], Ok tt).
Proof. vm_compute. reflexivity. Qed.

(** ** The claims on MappingEntry.optimize and on reads across extents *)

(** C2, as the code has it.  [optimize] sorts the entries by
    [file_block_idx] (a stable sort) and then goes through them from left to
    right; the next entry is merged into the current one, which may have
    grown by earlier merges, exactly when
    [current.disk_block_idx + current.block_count == next.disk_block_idx].
    Whether the logical ranges abut is not looked at. *)
Theorem optimize_merges_on_disk_adjacency (entries : list MappingEntry) :
  let sorted := list_sort file_block_idx entries in
  (sorted ≡ₚ entries
   ∧ StronglySorted (key_le file_block_idx) sorted
   ∧ ∀ k, filter (λ e, file_block_idx e = k) sorted
          = filter (λ e, file_block_idx e = k) entries)
  ∧ MappingEntry_optimize entries = Ok (stitch sorted)
  ∧ (∀ cur nxt rest,
       stitch (cur :: nxt :: rest) =
       if disk_block_idx cur + block_count cur =? disk_block_idx nxt
       then stitch (add_block_count cur (block_count nxt) :: rest)
       else cur :: stitch (nxt :: rest))
  ∧ (∀ cur, stitch [cur] = [cur])
  ∧ coalesced (stitch sorted).
Proof.
  intros sorted. split; [|split; [|split; [|split]]].
  - split; [apply list_sort_perm|]. split; [apply list_sort_sorted|].
    intros k. apply list_sort_stable.
  - apply MappingEntry_optimize_stitch.
  - reflexivity.
  - reflexivity.
  - apply stitch_coalesced.
Qed.

(** C2, as stated, fails.  The two entries are adjacent on the disk (block
    100, then block 101) but not in the file (block 0, then block 5), and
    they are merged into one entry of two blocks. *)
Lemma optimize_merges_entries_that_do_not_abut :
  let a := MappingEntry_init 0 100 1 in
  let b := MappingEntry_init 5 101 1 in
  disk_adjacent a b = true
  ∧ logically_abutting a b = false
  ∧ MappingEntry_optimize [a; b] = Ok [MappingEntry_init 0 100 2].
Proof. vm_compute. auto. Qed.

(** C3 (the code departs from the claim).  The file of inode 13 of the
    example image has file block 0 on disk block 8 (all "A") and file
    block 1 on disk block 10 (all "C"); disk block 9 is all "B".  With the
    cursor 5 bytes before the end of file block 0, [read(10)] returns five
    "A" and five "B", while ten reads of one byte return five "A" and five
    "C". *)
Theorem read_across_extents_differs_from_bytewise :
  (let* r := example_reader in
   let '(_, r) := BlockReader_seek r (1024 - 5) SEEK_SET in
   Ok (block_map r, fst (BlockReader_read r 10), fst (read_bytewise 10 r)))
  = Ok ([MappingEntry_init 0 8 1; MappingEntry_init 1 10 1],
        Ok (repeat "A"%byte 5 ++ repeat "B"%byte 5),
        Ok (repeat "A"%byte 5 ++ repeat "C"%byte 5)).
Proof. vm_compute. reflexivity. Qed.

(** ** The store: BlockReader.__init__ and the caller's list *)

Lemma MappingEntry_copy_eq e : MappingEntry_copy e = e.
Proof. destruct e; reflexivity. Qed.

Lemma map_MappingEntry_copy l : map MappingEntry_copy l = l.
Proof.
  induction l as [|e l IH]; simpl; [reflexivity|].
  rewrite MappingEntry_copy_eq, IH. reflexivity.
Qed.













(** [ceil_div a b] is the least number of blocks of [b] bytes that hold
    [a] bytes. *)
Lemma ceil_div_least a b :
  0 < b → (ceil_div a b - 1) * b < a ≤ ceil_div a b * b.
Proof.
  intros Hb. unfold ceil_div.
  pose proof (Z.div_mod a b ltac:(lia)) as Hdm.
  pose proof (Z.mod_pos_bound a b Hb) as Hmod.
  destruct (Z.eqb_spec (a mod b) 0); nia.
Qed.












(** ** Path resolution with [ignore_flags]

    With [ignore_flags = True], once the starting inode has passed the
    first test, nothing in the walk raises the not-a-directory error. *)

Lemma not_refused_bind {A B} (m : result A) (k : A → result B) :
  not_refused m → (∀ a, m = Ok a → not_refused (k a)) → not_refused (bind m k).
Proof.
  destruct m as [a|e|]; simpl; intros Hm Hk.
  - apply Hk. reflexivity.
  - intros [= ->]. apply Hm. reflexivity.
  - discriminate.
Qed.

Create HintDb not_refused.

Ltac not_refused_step :=
  match goal with
  | |- not_refused (bind _ _) => apply not_refused_bind; [|intros ? ?]
  | |- not_refused (Ok _) => discriminate
  | |- not_refused (Raise _) => discriminate
  | |- not_refused OutOfFuel => discriminate
  | |- not_refused (if ?b then _ else _) => destruct b eqn:?
  | |- not_refused (match ?x with _ => _ end) => destruct x eqn:?
  | |- not_refused _ => solve [eauto with not_refused]
  end.

Ltac not_refused := repeat not_refused_step.

Lemma getattr_not_refused {t} (s : struct t) name :
  not_refused (getattr s name).
Proof. unfold getattr. not_refused. Qed.

Lemma py_index_not_refused {A} (l : list A) i : not_refused (py_index l i).
Proof. unfold py_index. cbv zeta. not_refused. Qed.

Lemma format_d_not_refused x : not_refused (format_d x).
Proof. unfold format_d. not_refused. Qed.

Lemma floordiv_not_refused a b : not_refused (floordiv a b).
Proof. unfold floordiv. not_refused. Qed.

Lemma pymod_not_refused a b : not_refused (pymod a b).
Proof. unfold pymod. not_refused. Qed.

Lemma Volume_read_not_refused v offset byte_len :
  not_refused (Volume_read v offset byte_len).
Proof.
  unfold Volume_read. rewrite read_bytes_eq. cbv zeta. not_refused.
Qed.

Lemma from_buffer_copy_not_refused t raw : not_refused (from_buffer_copy t raw).
Proof. unfold from_buffer_copy. not_refused. Qed.

Lemma array_from_buffer_copy_not_refused t n raw :
  not_refused (array_from_buffer_copy t n raw).
Proof. unfold array_from_buffer_copy. not_refused. Qed.

#[local] Hint Resolve getattr_not_refused py_index_not_refused
  format_d_not_refused floordiv_not_refused pymod_not_refused
  Volume_read_not_refused from_buffer_copy_not_refused
  array_from_buffer_copy_not_refused : not_refused.

Lemma Volume_read_struct_not_refused v t offset :
  not_refused (Volume_read_struct v t offset).
Proof. unfold Volume_read_struct. not_refused. Qed.

Lemma Volume_read_struct_array_not_refused v t n offset :
  not_refused (Volume_read_struct_array v t n offset).
Proof. unfold Volume_read_struct_array. not_refused. Qed.

Lemma Volume_block_size_not_refused v : not_refused (Volume_block_size v).
Proof. unfold Volume_block_size, superblock_block_size. not_refused. Qed.

Lemma magic_differs_not_refused {t} b (s : struct t) field expected :
  not_refused (magic_differs b s field expected).
Proof. unfold magic_differs. not_refused. Qed.

#[local] Hint Resolve Volume_read_struct_not_refused
  Volume_read_struct_array_not_refused Volume_block_size_not_refused
  magic_differs_not_refused : not_refused.

Lemma mapM_not_refused {A B} (f : A → result B) l :
  (∀ x, not_refused (f x)) → not_refused (mapM f l).
Proof.
  intros Hf. induction l as [|x l IH]; cbn [mapM]; not_refused.
Qed.

Lemma MappingEntry_optimize_not_refused l :
  not_refused (MappingEntry_optimize l).
Proof. rewrite MappingEntry_optimize_stitch. discriminate. Qed.

#[local] Hint Resolve MappingEntry_optimize_not_refused : not_refused.

Lemma extent_walk_not_refused fuel : ∀ ino nodes mapping,
  not_refused (extent_walk fuel ino nodes mapping).
Proof.
  induction fuel as [|fuel IH]; intros ino nodes mapping;
    cbn [extent_walk]; [discriminate|].
  destruct nodes as [|header_offset nodes]; [discriminate|].
  cbv zeta. not_refused; try apply IH.
  - apply mapM_not_refused. intros. not_refused.
  - apply mapM_not_refused. intros. not_refused.
Qed.

Lemma Inode_len_not_refused ino : not_refused (Inode_len ino).
Proof. unfold Inode_len. not_refused. Qed.

Lemma BlockReader_init_not_refused v size mapping :
  not_refused (BlockReader_init v size mapping).
Proof. unfold BlockReader_init. cbv zeta. not_refused. Qed.

#[local] Hint Resolve extent_walk_not_refused Inode_len_not_refused
  BlockReader_init_not_refused : not_refused.

Lemma Inode_open_read_not_refused fuel ino :
  not_refused (Inode_open_read fuel ino).
Proof. unfold Inode_open_read. cbv zeta. not_refused. Qed.

Lemma BlockReader_get_block_mapping_not_refused r b :
  not_refused (BlockReader_get_block_mapping r b).
Proof. unfold BlockReader_get_block_mapping. not_refused. Qed.

Lemma BlockReader_get_range_mapping_not_refused r b n :
  not_refused (BlockReader_get_range_mapping r b n).
Proof. unfold BlockReader_get_range_mapping. cbv zeta. not_refused. Qed.

Lemma read_middle_not_refused v bs mapping indices : ∀ blocks byte_len,
  not_refused (read_middle v bs mapping indices blocks byte_len).
Proof.
  induction indices as [|i indices IH]; intros blocks byte_len;
    cbn [read_middle]; not_refused.
Qed.

#[local] Hint Resolve BlockReader_get_block_mapping_not_refused
  BlockReader_get_range_mapping_not_refused read_middle_not_refused
  Inode_open_read_not_refused : not_refused.

Lemma BlockReader_fetch_not_refused r byte_len :
  not_refused (BlockReader_fetch r byte_len).
Proof.
  unfold BlockReader_fetch. cbv zeta. not_refused.
Qed.

Lemma BlockReader_read_not_refused r byte_len :
  not_refused (fst (BlockReader_read r byte_len)).
Proof.
  unfold BlockReader_read. cbv zeta.
  destruct (byte_len <? -1); [discriminate|].
  set (wanted := if byte_len =? -1 then byte_size r - cursor r
                 else Z.max 0 (Z.min byte_len (byte_size r - cursor r))).
  destruct (wanted =? 0); [discriminate|].
  pose proof (BlockReader_fetch_not_refused r wanted) as Hfetch.
  destruct (BlockReader_fetch r wanted) as [data|e|]; cbn [fst].
  - destruct (negb _); discriminate.
  - intros [= ->]. apply Hfetch. reflexivity.
  - discriminate.
Qed.

Lemma Reader_read_all_not_refused rd : not_refused (Reader_read_all rd).
Proof.
  destruct rd; cbn [Reader_read_all]; [apply BlockReader_read_not_refused|].
  unfold BytesIO_read. cbv zeta. not_refused.
Qed.

Lemma Inode_init_not_refused v offset idx :
  not_refused (Inode_init v offset idx).
Proof. unfold Inode_init. not_refused. Qed.

Lemma Volume_get_inode_not_refused v idx :
  not_refused (Volume_get_inode v idx).
Proof.
  unfold Volume_get_inode, Volume_get_inode_group. not_refused.
  destruct a as [g e]. not_refused. apply Inode_init_not_refused.
Qed.

#[local] Hint Resolve Reader_read_all_not_refused
  Volume_get_inode_not_refused : not_refused.

Section IgnoreFlags.
Context {Name : Type} `{EqDecision Name}.
Variable utf8 : bytes → result Name.
Variable is_str : Name → bool.

Lemma open_dir_loop_not_refused (decode_name : bytes → result Name)
  raw_data fuel : ∀ offset,
  (∀ name, not_refused (decode_name name)) →
  not_refused (snd (open_dir_loop fuel decode_name raw_data offset)).
Proof.
  induction fuel as [|fuel IH]; intros offset Hdec; cbn [open_dir_loop];
    [discriminate|].
  destruct (offset <? len raw_data); [|discriminate].
  destruct (py_index_cases raw_data (offset + 7)) as [[ft ->]| ->];
    [|discriminate].
  destruct (py_index_cases raw_data (offset + 5)) as [[hi ->]| ->];
    [|discriminate].
  destruct (py_index_cases raw_data (offset + 4)) as [[lo ->]| ->];
    [|discriminate].
  cbn [bind]. destruct (negb _); [|apply IH; assumption].
  destruct (py_index_cases raw_data (offset + 6)) as [[nl ->]| ->];
    [|discriminate].
  cbn [bind]. pose proof (Hdec (py_slice raw_data (offset + 8)
                                  (offset + 8 + byte_val nl))) as Hname.
  destruct (decode_name _) as [name|e|]; cbn [snd].
  - rewrite gen_yield_ending. apply IH. assumption.
  - intros [= ->]. apply Hname. reflexivity.
  - discriminate.
Qed.

Lemma first_match_not_refused (yielded : list (Name * Z * Z)) ending
  (part : Name) :
  not_refused ending → not_refused (first_match yielded ending part).
Proof.
  intros Hend. induction yielded as [|[[name ino] ft] rest IH];
    cbn [first_match].
  - destruct ending as [[]|e|]; try discriminate.
    intros [= ->]. apply Hend. reflexivity.
  - destruct (decide (name = part)); [discriminate|exact IH].
Qed.

Lemma join_path_not_refused parts : not_refused (join_path is_str parts).
Proof. unfold join_path. not_refused. Qed.

Lemma Inode_open_dir_ignore_flags fuel ino decode_name :
  ignore_flags (Inode_volume ino) = true →
  (∀ name, not_refused (default utf8 decode_name name)) →
  not_refused (snd (Inode_open_dir utf8 fuel ino decode_name)).
Proof.
  intros Hflag Hdec. unfold Inode_open_dir, flags_refuse.
  rewrite Hflag. cbn [negb bind].
  replace (match decode_name with Some f => f | None => utf8 end)
    with (default utf8 decode_name) by (destruct decode_name; reflexivity).
  assert (not_refused (let* reader := Inode_open_read fuel ino in
                       Reader_read_all reader)) as Hraw by not_refused.
  destruct (let* reader := Inode_open_read fuel ino in Reader_read_all reader)
    as [raw_data|e|]; cbn [snd].
  - apply open_dir_loop_not_refused. exact Hdec.
  - intros [= ->]. apply Hraw. reflexivity.
  - discriminate.
Qed.

(** The walk itself never raises the not-a-directory error when the volume
    ignores flags, whatever the intermediate inodes are. *)
Lemma get_inode_loop_ignore_flags fuel self decode_name relative_path rest :
  ∀ i current_inode last_idx,
  ignore_flags (Inode_volume self) = true →
  Inode_volume current_inode = Inode_volume self →
  (∀ name, not_refused (default utf8 decode_name name)) →
  not_refused (get_inode_loop utf8 is_str fuel self decode_name relative_path
                 i rest current_inode last_idx).
Proof.
  induction rest as [|part rest IH]; intros i current_inode last_idx
    Hflag Hvol Hdec; cbn [get_inode_loop]; [discriminate|].
  unfold flags_refuse. rewrite Hflag. cbn [negb bind].
  apply not_refused_bind.
  - apply first_match_not_refused, Inode_open_dir_ignore_flags;
      [rewrite Hvol|]; assumption.
  - intros [idx|] _.
    + apply not_refused_bind; [apply Volume_get_inode_not_refused|].
      intros next Hnext. apply IH; try assumption.
      apply Volume_get_inode_volume in Hnext as [-> _]. exact Hvol.
    + pose proof join_path_not_refused. not_refused.
Qed.

(** So with [ignore_flags = True] the error comes from the first test and
    from nowhere else. *)
Lemma get_inode_ignore_flags_only_start fuel self relative_path decode_name :
  ignore_flags (Inode_volume self) = true →
  (∀ name, not_refused (default utf8 decode_name name)) →
  Inode_get_inode utf8 is_str fuel self relative_path decode_name
  = Raise (Ext4Error NotADirectory) →
  Inode_is_dir self = Ok false.
Proof.
  intros Hflag Hdec. unfold Inode_get_inode.
  destruct (Inode_is_dir self) as [[|]| |] eqn:Hdir; cbn [bind negb].
  - intros H. exfalso. revert H.
    apply get_inode_loop_ignore_flags; auto.
  - reflexivity.
  - unfold Inode_is_dir in Hdir.
    pose proof (getattr_not_refused (inode self) "i_mode") as Hm.
    destruct (getattr (inode self) "i_mode"); cbn [bind] in Hdir;
      try discriminate.
    injection Hdir as ->. intros [= ->]. exfalso. apply Hm. reflexivity.
  - discriminate.
Qed.
End IgnoreFlags.

(** * Further properties of the module *)

(** ** Volume.get_inode_group *)

(** X1. For every integer index, [get_inode_group] splits [index - 1] into
    a group and an entry within the group, [0 <= entry < inodes_per_group];
    with [s_inodes_per_group = 0] it raises [ZeroDivisionError]. *)
Theorem get_inode_group_splits_index v index inodes_per_group :
  getattr (superblock v) "s_inodes_per_group" = Ok inodes_per_group →
  if inodes_per_group =? 0
  then Volume_get_inode_group v index = Raise ZeroDivisionError
  else ∃ group entry,
      Volume_get_inode_group v index = Ok (group, entry)
      ∧ index = group * inodes_per_group + entry + 1
      ∧ 0 ≤ entry < inodes_per_group.
Proof.
  intros Hipg.
  assert (0 ≤ inodes_per_group) as Hpos.
  { change (getattr (superblock v) "s_inodes_per_group")
      with (Ok (A:=Z) (read_field (s_raw (superblock v)) (0x28, 4)%nat)) in Hipg.
    injection Hipg as <-. apply read_field_nonneg. }
  unfold Volume_get_inode_group, floordiv, pymod. rewrite Hipg. cbn [bind].
  destruct (Z.eqb_spec inodes_per_group 0) as [E|E]; [reflexivity|].
  cbn [bind]. eexists _, _. split; [reflexivity|].
  pose proof (Z.div_mod (index - 1) inodes_per_group E).
  pose proof (Z.mod_pos_bound (index - 1) inodes_per_group ltac:(lia)).
  lia.
Qed.

Lemma get_inode_group_splits_index_witness :
  let v := volume_or_empty example_volume in
  getattr (superblock v) "s_inodes_per_group" = Ok 16
  ∧ ∃ group entry,
      Volume_get_inode_group v (-20) = Ok (group, entry)
      ∧ -20 = group * 16 + entry + 1
      ∧ 0 ≤ entry < 16.
Proof.
  intros v.
  assert (getattr (superblock v) "s_inodes_per_group" = Ok 16) as Hipg
    by (vm_compute; reflexivity).
  split; [exact Hipg|].
  exact (get_inode_group_splits_index v (-20) 16 Hipg).
Defined.

(** ** BlockReader: the cursor *)

Lemma set_cursor_cursor r : set_cursor r (cursor r) = r.
Proof. destruct r; reflexivity. Qed.

Lemma set_cursor_set_cursor r a b : set_cursor (set_cursor r a) b = set_cursor r b.
Proof. reflexivity. Qed.

(** X2. [seek(tell())] changes nothing, and two relative seeks that both
    succeed are one relative seek by the sum. *)
Theorem seek_tell_and_relative_seeks r a b :
  0 ≤ cursor r →
  0 ≤ a + cursor r →
  0 ≤ b + (a + cursor r) →
  BlockReader_seek r (BlockReader_tell r) SEEK_SET = (Ok (cursor r), r)
  ∧ BlockReader_seek (snd (BlockReader_seek r a SEEK_CUR)) b SEEK_CUR
    = BlockReader_seek r (a + b) SEEK_CUR
  ∧ BlockReader_tell (snd (BlockReader_seek r (a + b) SEEK_CUR))
    = BlockReader_tell r + a + b.
Proof.
  intros Hc Ha Hb.
  assert (∀ x, 0 ≤ x → (x <? 0) = false) as Hnn
    by (intros; apply Z.ltb_ge; lia).
  unfold BlockReader_tell, BlockReader_seek, SEEK_SET, SEEK_CUR, SEEK_END.
  change (0 =? 1) with false. change (0 =? 2) with false.
  change (1 =? 1) with true. cbv iota.
  rewrite (Hnn (cursor r)), (Hnn (a + cursor r)) by assumption.
  cbn [snd cursor set_cursor].
  rewrite (Hnn (b + (a + cursor r))), (Hnn (a + b + cursor r)) by lia.
  cbn [snd cursor set_cursor].
  rewrite set_cursor_cursor, set_cursor_set_cursor.
  replace (b + (a + cursor r)) with (a + b + cursor r) by lia.
  repeat split. lia.
Qed.

Lemma seek_tell_and_relative_seeks_witness :
  let r := {| byte_size := 100; BlockReader_volume := empty_volume;
              cursor := 7; block_map := [] |} in
  (0 ≤ cursor r ∧ 0 ≤ 30 + cursor r ∧ 0 ≤ -35 + (30 + cursor r))
  ∧ BlockReader_seek r (BlockReader_tell r) SEEK_SET = (Ok (cursor r), r)
  ∧ BlockReader_seek (snd (BlockReader_seek r 30 SEEK_CUR)) (-35) SEEK_CUR
    = BlockReader_seek r (30 + -35) SEEK_CUR
  ∧ BlockReader_tell (snd (BlockReader_seek r (30 + -35) SEEK_CUR))
    = BlockReader_tell r + 30 + -35.
Proof.
  intros r. split; [simpl; lia|].
  apply (seek_tell_and_relative_seeks r 30 (-35)); simpl; lia.
Defined.

Lemma BlockReader_read_unfold r byte_len :
  BlockReader_read r byte_len =
  if byte_len <? -1 then (Raise ValueError, r)
  else if wanted_bytes r byte_len =? 0 then (Ok [], r)
  else match BlockReader_fetch r (wanted_bytes r byte_len) with
       | Ok result =>
           let r' := set_cursor r (cursor r + len result) in
           if negb (len result =? wanted_bytes r byte_len)
           then (Raise EndOfStreamError, r')
           else (Ok result, r')
       | Raise e => (Raise e, r)
       | OutOfFuel => (OutOfFuel, r)
       end.
Proof. reflexivity. Qed.

Lemma py_index_0 {A} (l : list A) x : l !! 0%nat = Some x → py_index l 0 = Ok x.
Proof. exact (py_index_nat l 0 x). Qed.

Lemma py_index_last {A} (l : list A) :
  (0 < length l)%nat →
  ∃ x, l !! (length l - 1)%nat = Some x ∧ py_index l (-1) = Ok x.
Proof.
  intros Hpos.
  destruct (lookup_lt_is_Some_2 l (length l - 1)) as [x Hx]; [lia|].
  exists x. split; [exact Hx|].
  unfold py_index. cbn [Z.ltb Z.compare]. cbv zeta iota.
  replace (-1 + len l <? 0) with false
    by (symmetry; apply Z.ltb_ge; unfold len; lia).
  replace (Z.to_nat (-1 + len l)) with (length l - 1)%nat
    by (unfold len; lia).
  rewrite Hx. reflexivity.
Qed.

Lemma get_range_mapping_outcome r file_block count :
  match BlockReader_get_range_mapping r file_block count with
  | Ok mapping =>
      length mapping
      = length (List.filter (intersects file_block count) (block_map r))
      ∧ (0 < length mapping)%nat
  | Raise e =>
      e = BlockMapError
      ∧ List.filter (intersects file_block count) (block_map r) = []
  | OutOfFuel => False
  end.
Proof.
  unfold BlockReader_get_range_mapping.
  set (mapping := map MappingEntry_copy _).
  assert (length mapping
          = length (List.filter (intersects file_block count) (block_map r)))
    as Hlen by apply length_map.
  destruct (Z.eqb_spec (len mapping) 0) as [E|E].
  - split; [reflexivity|]. unfold len in E.
    apply nil_length_inv. lia.
  - assert (0 < length mapping)%nat as Hpos by (unfold len in E; lia).
    destruct (lookup_lt_is_Some_2 mapping 0 Hpos) as [first Hfirst].
    rewrite (py_index_0 mapping first Hfirst). cbn [bind].
    set (mapping1 := if _ >? 0 then _ else mapping).
    assert (length mapping1 = length mapping) as Hlen1.
    { unfold mapping1. destruct (_ >? 0); [apply length_insert|reflexivity]. }
    destruct (py_index_last mapping1) as (last & _ & ->); [lia|].
    cbn [bind].
    destruct (file_block_idx last + block_count last - (file_block + count) >? 0);
      rewrite ?length_insert; lia.
Qed.

Lemma Volume_read_outcome v offset byte_len :
  match Volume_read v offset byte_len with
  | Ok _ => True
  | Raise e => e = ValueError ∨ e = OverflowError
  | OutOfFuel => False
  end.
Proof.
  unfold Volume_read. rewrite read_bytes_eq.
  destruct (negb _); [right; reflexivity|].
  destruct (_ <? 0); [left; reflexivity|].
  destruct (negb _); [right; reflexivity|exact I].
Qed.

Lemma read_middle_outcome v block_size mapping indices :
  ∀ blocks byte_len,
  Forall (λ i, (i < length mapping)%nat) indices →
  match read_middle v block_size mapping indices blocks byte_len with
  | Ok _ => True
  | Raise e => e = ValueError ∨ e = OverflowError
  | OutOfFuel => False
  end.
Proof.
  induction indices as [|i indices IH]; intros blocks byte_len Hin;
    cbn [read_middle]; [exact I|].
  apply Forall_cons in Hin as [Hi Hin].
  destruct (lookup_lt_is_Some_2 mapping i Hi) as [m Hm].
  rewrite (py_index_nat _ _ m Hm). cbn [bind].
  pose proof (Volume_read_outcome v (disk_block_idx m * block_size)
                (block_count m * block_size)) as Hread.
  destruct (Volume_read _ _ _); cbn [bind]; try exact Hread.
  apply IH. exact Hin.
Qed.

Lemma BlockReader_fetch_outcome r byte_len :
  match BlockReader_fetch r byte_len with
  | Ok _ => True
  | Raise e => e = ValueError ∨ e = OverflowError ∨ e = BlockMapError
  | OutOfFuel => False
  end.
Proof.
  assert (∀ e, e = ValueError ∨ e = OverflowError →
               e = ValueError ∨ e = OverflowError ∨ e = BlockMapError)
    as Hstream by (intros e [->| ->]; auto).
  unfold BlockReader_fetch.
  destruct (Volume_block_size_Ok (BlockReader_volume r)) as (bs & -> & _).
  cbn [bind]. cbv zeta.
  destruct (_ =? _).
  - unfold BlockReader_get_block_mapping.
    destruct (get_block_mapping_scan _ _) as [d|]; cbn [bind]; [|auto].
    pose proof (Volume_read_outcome (BlockReader_volume r)
                  (d * bs + cursor r mod bs) byte_len) as Hread.
    destruct (Volume_read _ _ _); auto.
  - pose proof (get_range_mapping_outcome r (cursor r / bs)
                  ((byte_len - 1) / bs + 1)) as Hrange.
    destruct (BlockReader_get_range_mapping r _ _) as [mapping|e'|];
      cbn [bind]; [|right; right; apply Hrange|exact Hrange].
    destruct Hrange as [_ Hpos].
    destruct (lookup_lt_is_Some_2 mapping 0 Hpos) as [m0 Hm0].
    rewrite (py_index_0 mapping m0 Hm0).
    destruct (py_index_last mapping Hpos) as (mlast & _ & Hl).
    destruct (len mapping =? 1); cbn [bind].
    + pose proof (Volume_read_outcome (BlockReader_volume r)
                    (disk_block_idx m0 * bs + cursor r mod bs) byte_len)
        as Hread.
      destruct (Volume_read _ _ _); auto.
    + pose proof (Volume_read_outcome (BlockReader_volume r)
                    (disk_block_idx m0 * bs + cursor r mod bs)
                    (block_count m0 * bs - cursor r mod bs)) as Hread.
      destruct (Volume_read _ _ _) as [first|e'|]; cbn [bind]; auto.
      pose proof (read_middle_outcome (BlockReader_volume r) bs mapping
                    (seq 1 (length mapping - 2)) [first]
                    (byte_len - len first)) as Hmid.
      destruct (read_middle _ _ _ _ _ _) as [[blocks n]|e'|]; cbn [bind].
      * rewrite Hl. cbn [bind].
        pose proof (Volume_read_outcome (BlockReader_volume r)
                      (disk_block_idx mlast * bs) n) as Hlast.
        destruct (Volume_read _ _ _); cbn [bind]; auto.
      * apply Hstream, Hmid. apply Forall_forall. intros i Hi.
        apply elem_of_seq in Hi. lia.
      * apply Hmid. apply Forall_forall. intros i Hi.
        apply elem_of_seq in Hi. lia.
Qed.

(** X3. A read that returns has returned exactly the number of bytes it
    set out for: [byte_size - cursor] for [-1], otherwise the requested
    number clamped to what is left; the cursor has advanced by that number
    and nothing else of the reader has changed.  A read that raises has
    raised [ValueError], [OverflowError] (a position or a size of the
    stream that does not fit in 64 bits), [BlockMapError] or
    [EndOfStreamError]; a size below [-1] raises [ValueError] and leaves
    the reader as it was. *)
Theorem read_returns_wanted_bytes r byte_len :
  match BlockReader_read r byte_len with
  | (Ok data, r') =>
      -1 ≤ byte_len
      ∧ len data = wanted_bytes r byte_len
      ∧ r' = set_cursor r (cursor r + len data)
      ∧ (0 ≤ byte_len → len data ≤ byte_len)
      ∧ (cursor r ≤ byte_size r → cursor r' ≤ byte_size r)
  | (Raise e, r') =>
      (e = ValueError ∨ e = OverflowError ∨ e = BlockMapError
       ∨ e = EndOfStreamError)
      ∧ (byte_len < -1 → e = ValueError ∧ r' = r)
  | (OutOfFuel, _) => False
  end.
Proof.
  rewrite BlockReader_read_unfold.
  destruct (Z.ltb_spec byte_len (-1)) as [Hlt|Hge]; [auto|].
  assert (0 ≤ byte_len → wanted_bytes r byte_len ≤ byte_len) as Hle.
  { unfold wanted_bytes. destruct (Z.eqb_spec byte_len (-1)); lia. }
  assert (cursor r ≤ byte_size r →
          cursor r + wanted_bytes r byte_len ≤ byte_size r) as Hcur.
  { unfold wanted_bytes. destruct (Z.eqb_spec byte_len (-1)); lia. }
  destruct (Z.eqb_spec (wanted_bytes r byte_len) 0) as [E|E].
  - change (len (@nil byte)) with 0. rewrite Z.add_0_r, set_cursor_cursor.
    repeat split; lia.
  - pose proof (BlockReader_fetch_outcome r (wanted_bytes r byte_len)) as Hfetch.
    destruct (BlockReader_fetch r (wanted_bytes r byte_len)) as [data|e|];
      [|split; [destruct Hfetch as [?|[?|?]]; auto|lia]|exact Hfetch].
    cbv zeta.
    destruct (Z.eqb_spec (len data) (wanted_bytes r byte_len)) as [El|El];
      cbn [negb].
    + rewrite El. cbn [cursor set_cursor]. repeat split; auto; lia.
    + split; [auto|lia].
Qed.

(** ** BlockReader.get_block_mapping *)

Lemma get_block_mapping_scan_spec entries file_block :
  match get_block_mapping_scan entries file_block with
  | Some disk_block =>
      ∃ before entry after,
        entries = before ++ entry :: after
        ∧ Forall (λ e, holds_block file_block e = false) before
        ∧ holds_block file_block entry = true
        ∧ disk_block = disk_block_idx entry + (file_block - file_block_idx entry)
  | None => Forall (λ e, holds_block file_block e = false) entries
  end.
Proof.
  induction entries as [|e entries IH]; cbn [get_block_mapping_scan].
  - constructor.
  - fold (holds_block file_block e).
    destruct (holds_block file_block e) eqn:He.
    + exists [], e, entries. repeat split; auto.
    + destruct (get_block_mapping_scan entries file_block) as [d|].
      * destruct IH as (before & entry & after & -> & Hb & Hh & ->).
        exists (e :: before), entry, after. repeat split; auto.
      * constructor; assumption.
Qed.

Lemma holds_block_iff file_block e :
  holds_block file_block e = true
  ↔ file_block_idx e ≤ file_block < file_block_idx e + block_count e.
Proof.
  unfold holds_block. rewrite andb_true_iff, Z.leb_le, Z.ltb_lt. reflexivity.
Qed.

Lemma holds_block_false file_block e :
  holds_block file_block e = false
  ↔ ¬ (file_block_idx e ≤ file_block < file_block_idx e + block_count e).
Proof.
  rewrite <- holds_block_iff. destruct (holds_block file_block e); split;
    congruence || auto.
Qed.

(** X4. [get_block_mapping] answers from the first entry of the mapping
    that holds the file block, with the disk block at the same distance
    from the start of that entry; it raises [BlockMapError] exactly when no
    entry holds the file block. *)
Theorem get_block_mapping_first_holder r file_block :
  match BlockReader_get_block_mapping r file_block with
  | Ok disk_block =>
      ∃ before entry after,
        block_map r = before ++ entry :: after
        ∧ Forall (λ e, holds_block file_block e = false) before
        ∧ file_block_idx entry ≤ file_block
          < file_block_idx entry + block_count entry
        ∧ disk_block - disk_block_idx entry = file_block - file_block_idx entry
  | Raise e =>
      e = BlockMapError
      ∧ Forall (λ e, ¬ (file_block_idx e ≤ file_block
                        < file_block_idx e + block_count e)) (block_map r)
  | OutOfFuel => False
  end.
Proof.
  unfold BlockReader_get_block_mapping.
  pose proof (get_block_mapping_scan_spec (block_map r) file_block) as H.
  destruct (get_block_mapping_scan (block_map r) file_block) as [d|].
  - destruct H as (before & entry & after & Heq & Hb & Hh & ->).
    apply holds_block_iff in Hh.
    exists before, entry, after. repeat split; auto; lia.
  - split; [reflexivity|]. eapply Forall_impl; [exact H|].
    intros e He. apply holds_block_false. exact He.
Qed.

(** ** MappingEntry.optimize: what it keeps *)






(** Without the condition the sum is not kept: in a list that holds the
    entry [a] twice, around an entry that follows it on the disk, the one
    object absorbs its neighbour and both places show the sum. *)
Lemma optimize_same_entry_twice :
  let s := {| objects := [MappingEntry_init 0 5 1; MappingEntry_init 0 6 1];
              lists := [[0; 1; 0]%nat] |} in
  sum_block_count (list_values s 0) = 3
  ∧ ∃ s', Store_optimize s 0 = (Ok tt, s')
          ∧ list_values s' 0
            = [MappingEntry_init 0 5 2; MappingEntry_init 0 5 2].
Proof.
  intros s. split; [reflexivity|]. eexists. split; vm_compute; reflexivity.
Qed.

(** ** MappingEntry.create_mapping *)

Lemma create_mapping_from_spec pairs : ∀ file_block,
  map (λ e, (disk_block_idx e, block_count e))
      (create_mapping_from file_block pairs) = pairs
  ∧ contiguous_from file_block (create_mapping_from file_block pairs)
  ∧ sum_block_count (create_mapping_from file_block pairs)
    = foldr (λ p acc, p.2 + acc) 0 pairs.
Proof.
  induction pairs as [|[d c] pairs IH]; intros file_block; simpl.
  - auto.
  - destruct (IH (file_block + c)) as (Hmap & Hcont & Hsum).
    rewrite Hmap, Hsum. auto.
Qed.

Lemma contiguous_from_neighbours l : ∀ f i a b,
  contiguous_from f l →
  l !! i = Some a → l !! S i = Some b →
  file_block_idx b = file_block_idx a + block_count a.
Proof.
  induction l as [|e l IH]; intros f i a b Hcont Ha Hb; [discriminate|].
  destruct Hcont as [He Hcont]. destruct i as [|i]; simpl in Ha, Hb.
  - injection Ha as <-. destruct l as [|e' l]; [discriminate|].
    injection Hb as <-. destruct Hcont as [He' _]. lia.
  - eapply IH; eassumption.
Qed.

(** X6. [create_mapping] keeps the disk blocks and counts of its pairs, in
    order, and gives them file block indices that start at 0 and follow one
    another without a gap: each entry starts where the previous one ends.
    The counts add up to the sum of the counts of the pairs. *)
Theorem create_mapping_contiguous (pairs : list (Z * Z)) :
  let mapping := MappingEntry_create_mapping pairs in
  map (λ e, (disk_block_idx e, block_count e)) mapping = pairs
  ∧ contiguous_from 0 mapping
  ∧ sum_block_count mapping = foldr (λ p acc, p.2 + acc) 0 pairs
  ∧ ∀ i a b, mapping !! i = Some a → mapping !! S i = Some b →
             file_block_idx b = file_block_idx a + block_count a.
Proof.
  intros mapping. destruct (create_mapping_from_spec pairs 0)
    as (Hmap & Hcont & Hsum).
  split; [exact Hmap|]. split; [exact Hcont|]. split; [exact Hsum|].
  intros i a b. apply (contiguous_from_neighbours _ 0). exact Hcont.
Qed.

(** ** Coalescing a contiguous mapping *)

Lemma contiguous_sorted l : ∀ f,
  contiguous_from f l →
  Forall (λ e, 0 ≤ block_count e) l →
  StronglySorted (key_le file_block_idx) l
  ∧ Forall (λ e, f ≤ file_block_idx e) l.
Proof.
  induction l as [|e l IH]; intros f Hcont Hnn.
  - split; constructor.
  - destruct Hcont as [He Hcont]. apply Forall_cons in Hnn as [Hc Hnn].
    destruct (IH _ Hcont Hnn) as [Hs Hge]. split.
    + constructor; [exact Hs|]. eapply Forall_impl; [exact Hge|].
      unfold key_le. simpl. intros; lia.
    + constructor; [lia|]. eapply Forall_impl; [exact Hge|].
      simpl. intros; lia.
Qed.

Lemma stitch_from_contiguous rest : ∀ cur,
  contiguous_from (file_block_idx cur + block_count cur) rest →
  0 ≤ block_count cur →
  Forall (λ e, 0 ≤ block_count e) rest →
  contiguous_from (file_block_idx cur) (stitch_from cur rest)
  ∧ Forall (λ e, 0 ≤ block_count e) (stitch_from cur rest)
  ∧ ∀ b, get_block_mapping_scan (stitch_from cur rest) b
         = get_block_mapping_scan (cur :: rest) b.
Proof.
  induction rest as [|nxt rest IH]; intros cur Hcont Hc Hnn.
  - simpl. repeat split; auto.
  - destruct Hcont as [Hnxt Hcont]. apply Forall_cons in Hnn as [Hn Hnn].
    cbn [stitch_from]. destruct (disk_adjacent cur nxt) eqn:Hadj.
    + destruct (IH (add_block_count cur (block_count nxt)))
        as (Hc' & Hnn' & Hscan).
      * simpl. rewrite Z.add_assoc. exact Hcont.
      * simpl. lia.
      * exact Hnn.
      * split; [exact Hc'|]. split; [exact Hnn'|].
        intros b. rewrite Hscan. cbn [get_block_mapping_scan].
        fold (holds_block b (add_block_count cur (block_count nxt))).
        fold (holds_block b cur). fold (holds_block b nxt).
        unfold disk_adjacent in Hadj. apply Z.eqb_eq in Hadj.
        destruct (holds_block b (add_block_count cur (block_count nxt))) eqn:H1;
          destruct (holds_block b cur) eqn:H2;
          destruct (holds_block b nxt) eqn:H3;
          try reflexivity;
          first [apply holds_block_iff in H1|apply holds_block_false in H1];
          first [apply holds_block_iff in H2|apply holds_block_false in H2];
          first [apply holds_block_iff in H3|apply holds_block_false in H3];
          simpl in H1; try (simpl; f_equal; lia); exfalso; lia.
    + destruct (IH nxt) as (Hc' & Hnn' & Hscan);
        [rewrite Hnxt; exact Hcont|assumption|assumption|].
      split; [cbn [contiguous_from]; split;
              [reflexivity|rewrite <- Hnxt; exact Hc']|].
      split; [constructor; assumption|].
      intros b. cbn [get_block_mapping_scan].
      destruct (_ && _); [reflexivity|]. apply Hscan.
Qed.

(** X7. For a mapping whose entries follow one another in the file and
    have non-negative counts, such as one from [create_mapping],
    [BlockReader.__init__] coalesces without changing the meaning: the
    stored mapping still starts at the same file block and is contiguous,
    and [get_block_mapping] finds for every file block the disk block that
    a scan of the caller's mapping finds (or fails as that scan does). *)
Theorem coalescing_keeps_block_lookup v size first_block mapping r file_block :
  contiguous_from first_block mapping →
  Forall (λ e, 0 ≤ block_count e) mapping →
  BlockReader_init v size mapping = Ok r →
  contiguous_from first_block (block_map r)
  ∧ coalesced (block_map r)
  ∧ BlockReader_get_block_mapping r file_block
    = match get_block_mapping_scan mapping file_block with
      | Some disk_block => Ok disk_block
      | None => Raise BlockMapError
      end.
Proof.
  intros Hcont Hnn Hinit. unfold BlockReader_init in Hinit.
  rewrite map_MappingEntry_copy, MappingEntry_optimize_stitch in Hinit.
  cbv zeta in Hinit.
  destruct (Volume_block_size v) as [bs| |]; cbn [bind] in Hinit;
    try discriminate.
  destruct (negb _); [discriminate|]. injection Hinit as <-.
  cbn [block_map]. unfold BlockReader_get_block_mapping. cbn [block_map].
  rewrite list_sort_id by (eapply contiguous_sorted; eassumption).
  split; [|split; [apply stitch_coalesced|]].
  - destruct mapping as [|cur rest]; [exact I|].
    destruct Hcont as [<- Hcont]. apply Forall_cons in Hnn as [Hc Hnn].
    apply stitch_from_contiguous; assumption.
  - destruct mapping as [|cur rest]; [reflexivity|].
    destruct Hcont as [<- Hcont]. apply Forall_cons in Hnn as [Hc Hnn].
    cbn [stitch].
    destruct (stitch_from_contiguous rest cur Hcont Hc Hnn) as (_ & _ & ->).
    reflexivity.
Qed.

Lemma coalescing_keeps_block_lookup_witness :
  let mapping := MappingEntry_create_mapping [(8, 1); (9, 1); (20, 2)] in
  let r := {| byte_size := 4000; BlockReader_volume := empty_volume;
              cursor := 0;
              block_map := [MappingEntry_init 0 8 2; MappingEntry_init 2 20 2] |} in
  (contiguous_from 0 mapping
   ∧ Forall (λ e, 0 ≤ block_count e) mapping
   ∧ BlockReader_init empty_volume 4000 mapping = Ok r)
  ∧ contiguous_from 0 (block_map r)
  ∧ coalesced (block_map r)
  ∧ BlockReader_get_block_mapping r 1
    = match get_block_mapping_scan mapping 1 with
      | Some disk_block => Ok disk_block
      | None => Raise BlockMapError
      end.
Proof.
  intros mapping r.
  assert (contiguous_from 0 mapping) as Hcont by (simpl; auto).
  assert (Forall (λ e, 0 ≤ block_count e) mapping) as Hnn
    by (repeat constructor; simpl; lia).
  assert (BlockReader_init empty_volume 4000 mapping = Ok r) as Hinit
    by (vm_compute; reflexivity).
  split; [auto|].
  exact (coalescing_keeps_block_lookup empty_volume 4000 0 mapping r 1
           Hcont Hnn Hinit).
Defined.


(** ** wcscmp *)

Lemma wcscmp_nil_l str_b : wcscmp [] str_b = match str_b with [] => 0 | _ => -1 end.
Proof. destruct str_b; reflexivity. Qed.

Lemma wcscmp_nil_r str_a : wcscmp str_a [] = match str_a with [] => 0 | _ => 1 end.
Proof.
  destruct str_a as [|a rest]; [reflexivity|].
  unfold wcscmp. cbn [zip zip_with wcscmp_loop length]. cbv zeta.
  destruct (Z.ltb_spec (Z.of_nat (S (length rest)) - Z.of_nat 0) 0); [lia|].
  destruct (Z.gtb_spec (Z.of_nat (S (length rest)) - Z.of_nat 0) 0); [reflexivity|lia].
Qed.

Lemma wcscmp_cons a rest_a b rest_b :
  wcscmp (a :: rest_a) (b :: rest_b)
  = if a <? b then -1 else if b <? a then 1 else wcscmp rest_a rest_b.
Proof.
  unfold wcscmp. cbn [zip zip_with wcscmp_loop length]. cbv zeta.
  destruct (Z.eqb_spec (a - b) 0) as [E|E]; cbn [negb].
  - destruct (Z.ltb_spec a b); [lia|]. destruct (Z.ltb_spec b a); [lia|].
    replace (Z.of_nat (S (length rest_a)) - Z.of_nat (S (length rest_b)))
      with (Z.of_nat (length rest_a) - Z.of_nat (length rest_b)) by lia.
    reflexivity.
  - destruct (Z.ltb_spec (a - b) 0), (Z.ltb_spec a b); try lia.
    destruct (Z.ltb_spec b a); [reflexivity|lia].
Qed.

Lemma wcscmp_sign str_a : ∀ str_b,
  wcscmp str_a str_b = -1 ∨ wcscmp str_a str_b = 0 ∨ wcscmp str_a str_b = 1.
Proof.
  induction str_a as [|a rest_a IH]; intros [|b rest_b];
    rewrite ?wcscmp_nil_l, ?wcscmp_nil_r, ?wcscmp_cons; auto.
  destruct (a <? b); [auto|]. destruct (b <? a); auto.
Qed.

Lemma wcscmp_eq str_a : ∀ str_b, wcscmp str_a str_b = 0 ↔ str_a = str_b.
Proof.
  induction str_a as [|a rest_a IH]; intros [|b rest_b];
    rewrite ?wcscmp_nil_l, ?wcscmp_nil_r, ?wcscmp_cons;
    try (split; [lia|discriminate]); [tauto|].
  destruct (Z.ltb_spec a b); [split; [lia|intros [= -> _]; lia]|].
  destruct (Z.ltb_spec b a); [split; [lia|intros [= -> _]; lia]|].
  rewrite IH. assert (a = b) as -> by lia.
  split; [intros ->; reflexivity|intros [= ->]; reflexivity].
Qed.

Lemma wcscmp_refl str_a : wcscmp str_a str_a = 0.
Proof. apply wcscmp_eq. reflexivity. Qed.

Lemma wcscmp_antisym str_a : ∀ str_b, wcscmp str_b str_a = - wcscmp str_a str_b.
Proof.
  induction str_a as [|a rest_a IH]; intros [|b rest_b];
    rewrite ?wcscmp_nil_l, ?wcscmp_nil_r, ?wcscmp_cons; try reflexivity.
  destruct (Z.ltb_spec a b), (Z.ltb_spec b a); try lia; try reflexivity.
  apply IH.
Qed.

Lemma wcscmp_trans str_a : ∀ str_b str_c,
  wcscmp str_a str_b = -1 → wcscmp str_b str_c = -1 → wcscmp str_a str_c = -1.
Proof.
  induction str_a as [|a rest_a IH]; intros [|b rest_b] [|c rest_c];
    rewrite ?wcscmp_nil_l, ?wcscmp_nil_r, ?wcscmp_cons; try lia.
  destruct (Z.ltb_spec a b), (Z.ltb_spec b c), (Z.ltb_spec a c); try lia;
    destruct (Z.ltb_spec b a), (Z.ltb_spec c b), (Z.ltb_spec c a); try lia.
  apply IH.
Qed.

Lemma wcscmp_common_prefix prefix : ∀ str_a str_b,
  wcscmp (prefix ++ str_a) (prefix ++ str_b) = wcscmp str_a str_b.
Proof.
  induction prefix as [|x prefix IH]; intros str_a str_b; [reflexivity|].
  simpl. rewrite wcscmp_cons, Z.ltb_irrefl. apply IH.
Qed.

(** X8. [wcscmp] is a three-way comparison by a total order, the
    lexicographic one on code points: its result is -1, 0 or 1; it is 0
    exactly for equal strings; swapping the arguments negates it; "less" is
    transitive; a proper prefix is less than the string; and the first
    position where two strings differ decides. *)
Theorem wcscmp_lexicographic_order (str_a str_b : list Z) :
  (wcscmp str_a str_b = -1 ∨ wcscmp str_a str_b = 0 ∨ wcscmp str_a str_b = 1)
  ∧ (wcscmp str_a str_b = 0 ↔ str_a = str_b)
  ∧ wcscmp str_b str_a = - wcscmp str_a str_b
  ∧ (∀ str_c, wcscmp str_a str_b = -1 → wcscmp str_b str_c = -1 →
              wcscmp str_a str_c = -1)
  ∧ (∀ c rest, wcscmp str_a (str_a ++ c :: rest) = -1)
  ∧ (∀ prefix a b rest_a rest_b,
       str_a = prefix ++ a :: rest_a → str_b = prefix ++ b :: rest_b →
       a ≠ b → wcscmp str_a str_b = if a <? b then -1 else 1).
Proof.
  split; [apply wcscmp_sign|]. split; [apply wcscmp_eq|].
  split; [apply wcscmp_antisym|]. split; [intros c; apply wcscmp_trans|].
  split.
  - intros c rest. rewrite <- (app_nil_r str_a) at 1.
    rewrite wcscmp_common_prefix. reflexivity.
  - intros prefix a b rest_a rest_b -> -> Hab.
    rewrite wcscmp_common_prefix, wcscmp_cons.
    destruct (Z.ltb_spec a b); [reflexivity|].
    destruct (Z.ltb_spec b a); [reflexivity|lia].
Qed.

(** ** Inode.directory_entry_key *)

Section DirectoryEntryKeyProperties.
Variable lower : list Z → list Z.

Lemma name_cmp_sign a b : name_cmp lower a b = -1 ∨ name_cmp lower a b = 0 ∨ name_cmp lower a b = 1.
Proof.
  unfold name_cmp. cbv zeta. destruct (negb _); apply wcscmp_sign.
Qed.

Lemma name_cmp_eq a b : name_cmp lower a b = 0 ↔ a = b.
Proof.
  unfold name_cmp. cbv zeta.
  destruct (Z.eqb_spec (wcscmp (lower a) (lower b)) 0) as [E|E]; cbn [negb].
  - apply wcscmp_eq.
  - split; [intros H; contradiction|].
    intros ->. rewrite wcscmp_refl in E. contradiction.
Qed.

Lemma name_cmp_antisym a b : name_cmp lower b a = - name_cmp lower a b.
Proof.
  unfold name_cmp. cbv zeta. rewrite (wcscmp_antisym (lower a) (lower b)).
  destruct (Z.eqb_spec (wcscmp (lower a) (lower b)) 0) as [E|E];
    destruct (Z.eqb_spec (- wcscmp (lower a) (lower b)) 0) as [E'|E'];
    cbn [negb]; try lia.
  apply wcscmp_antisym.
Qed.

Lemma name_cmp_less a b :
  name_cmp lower a b = -1
  ↔ wcscmp (lower a) (lower b) = -1
    ∨ lower a = lower b ∧ wcscmp a b = -1.
Proof.
  unfold name_cmp. cbv zeta.
  destruct (Z.eqb_spec (wcscmp (lower a) (lower b)) 0) as [E|E]; cbn [negb].
  - pose proof E as E'. apply wcscmp_eq in E'. split; [auto|].
    intros [H|[_ H]]; [lia|exact H].
  - split; [auto|]. intros [H|[H _]]; [exact H|].
    apply wcscmp_eq in H. contradiction.
Qed.

Lemma name_cmp_trans a b c :
  name_cmp lower a b = -1 → name_cmp lower b c = -1 → name_cmp lower a c = -1.
Proof.
  rewrite !name_cmp_less. intros [Hab|[Eab Hab]] [Hbc|[Ebc Hbc]].
  - left. eapply wcscmp_trans; eassumption.
  - left. rewrite <- Ebc. exact Hab.
  - left. rewrite Eab. exact Hbc.
  - right. split; [congruence|]. eapply wcscmp_trans; eassumption.
Qed.

Lemma directory_entry_key_cases name_a inode_a type_a name_b inode_b type_b :
  directory_entry_key lower (name_a, inode_a, type_a) (name_b, inode_b, type_b)
  = if type_a =? IT_DIRECTORY
    then if type_b =? IT_DIRECTORY then name_cmp lower name_a name_b else -1
    else if type_b =? IT_DIRECTORY then 1 else name_cmp lower name_a name_b.
Proof.
  unfold directory_entry_key, name_cmp. rewrite (Z.eqb_sym IT_DIRECTORY type_b).
  destruct (type_a =? IT_DIRECTORY), (type_b =? IT_DIRECTORY); reflexivity.
Qed.

(** X9. [directory_entry_key] compares by a total preorder, whatever
    [lower] does: a directory comes before every entry that is not one;
    the result is -1, 0 or 1 and is negated when the arguments are swapped;
    it is 0 exactly when the names are equal and both or neither entry is a
    directory; and "before" is transitive.  Between two entries of the same
    kind, different lower-case names decide, the names themselves
    otherwise. *)
Theorem directory_entry_key_order (dir_a dir_b : list Z * Z * Z) :
  let key := directory_entry_key lower in
  let is_directory (d : list Z * Z * Z) := d.2 = IT_DIRECTORY in
  (is_directory dir_a → ¬ is_directory dir_b → key dir_a dir_b = -1)
  ∧ (key dir_a dir_b = -1 ∨ key dir_a dir_b = 0 ∨ key dir_a dir_b = 1)
  ∧ key dir_b dir_a = - key dir_a dir_b
  ∧ (key dir_a dir_b = 0
     ↔ dir_a.1.1 = dir_b.1.1 ∧ (is_directory dir_a ↔ is_directory dir_b))
  ∧ (∀ dir_c, key dir_a dir_b = -1 → key dir_b dir_c = -1 →
              key dir_a dir_c = -1)
  ∧ ((is_directory dir_a ↔ is_directory dir_b) →
     key dir_a dir_b
     = if wcscmp (lower dir_a.1.1) (lower dir_b.1.1) =? 0
       then wcscmp dir_a.1.1 dir_b.1.1
       else wcscmp (lower dir_a.1.1) (lower dir_b.1.1)).
Proof.
  destruct dir_a as [[name_a inode_a] type_a].
  destruct dir_b as [[name_b inode_b] type_b].
  intros key is_directory. subst key is_directory. cbn [fst snd].
  rewrite !directory_entry_key_cases.
  pose proof (name_cmp_sign name_a name_b) as Hsign.
  pose proof (name_cmp_antisym name_a name_b) as Hanti.
  pose proof (name_cmp_eq name_a name_b) as Heq.
  destruct (Z.eqb_spec type_a IT_DIRECTORY) as [Ea|Ea],
           (Z.eqb_spec type_b IT_DIRECTORY) as [Eb|Eb].
  all: repeat split; try tauto; try lia.
  all: try (intros [[name_c inode_c] type_c];
            rewrite !directory_entry_key_cases;
            destruct (Z.eqb_spec type_a IT_DIRECTORY);
            destruct (Z.eqb_spec type_b IT_DIRECTORY);
            destruct (Z.eqb_spec type_c IT_DIRECTORY);
            try lia; apply name_cmp_trans).
  all: try (intros _; unfold name_cmp; cbv zeta;
            destruct (_ =? 0); reflexivity).
Qed.

End DirectoryEntryKeyProperties.


(** ** Volume.read *)

Lemma take_add {A} (l : list A) (n m : nat) :
  take (n + m) l = take n l ++ take m (drop n l).
Proof.
  revert l. induction n as [|n IH]; intros [|x l]; simpl;
    rewrite ?take_nil; try reflexivity.
  rewrite IH. reflexivity.
Qed.

Lemma fits_ssize_t_iff n : fits_ssize_t n = true ↔ - 2 ^ 63 ≤ n < 2 ^ 63.
Proof.
  unfold fits_ssize_t. rewrite andb_true_iff, Z.leb_le, Z.ltb_lt. reflexivity.
Qed.

Lemma fits_ssize_t_false n :
  fits_ssize_t n = false ↔ ¬ (- 2 ^ 63 ≤ n < 2 ^ 63).
Proof.
  rewrite <- fits_ssize_t_iff. destruct (fits_ssize_t n); split;
    congruence || auto.
Qed.

Lemma read_at_eq s base offset byte_len :
  read_at s base offset byte_len
  = if negb (base + offset =? BytesIO_tell s)
       && negb (fits_ssize_t (base + offset))
    then Raise OverflowError
    else if base + offset <? 0 then Raise ValueError
    else if negb (fits_ssize_t byte_len && fits_ssize_t (len (buf s)))
    then Raise OverflowError
    else
      let rest := drop (Z.to_nat (base + offset)) (buf s) in
      let data := if byte_len <? 0 then rest else take (Z.to_nat byte_len) rest in
      Ok (data, {| buf := buf s;
                   pos := (Z.to_N (base + offset) + N.of_nat (length data))%N |}).
Proof.
  unfold read_at, BytesIO_seek, BytesIO_tell, BytesIO_read.
  destruct (Z.eqb_spec (base + offset) (Z.of_N (pos s))) as [E|E];
    cbn [negb bind andb].
  - destruct (Z.ltb_spec (base + offset) 0); [lia|].
    destruct (negb (fits_ssize_t byte_len && _)); [reflexivity|]. cbv zeta.
    rewrite E, N2Z.id.
    replace (Z.to_nat (Z.of_N (pos s))) with (N.to_nat (pos s)) by lia.
    reflexivity.
  - destruct (negb (fits_ssize_t (base + offset))); [reflexivity|].
    destruct (Z.ltb_spec (base + offset) 0); cbn [bind]; [reflexivity|].
    cbn [buf pos].
    destruct (negb (fits_ssize_t byte_len && _)); [reflexivity|].
    rewrite Z_N_nat. reflexivity.
Qed.

(** X10. [Volume.read] returns the bytes of the stream from [self.offset +
    offset] on, at most [byte_len] of them (all of them for a negative
    [byte_len]), wherever the stream stood before; the stream then stands
    behind the bytes returned.  A read that reaches past the end of the
    stream does not raise: it returns fewer bytes.  What it raises is
    [ValueError], for a negative position, or [OverflowError], for a
    position or a size that does not fit in 64 bits.  Reading [a] bytes and
    then the next [b] bytes gives the two parts of one read of [a + b]
    bytes. *)
Theorem Volume_read_is_a_slice_of_the_stream (s : BytesIO) (base offset a b : Z) :
  len (buf s) < 2 ^ 63 →
  match read_at s base offset a with
  | Ok (data, s1) =>
      0 ≤ base + offset
      ∧ - 2 ^ 63 ≤ a < 2 ^ 63
      ∧ buf s1 = buf s
      ∧ BytesIO_tell s1 = base + offset + len data
      ∧ data = (if a <? 0 then drop (Z.to_nat (base + offset)) (buf s)
                else py_slice (buf s) (base + offset) (base + offset + a))
      ∧ (0 ≤ a → len data = Z.min a (Z.max 0 (len (buf s) - (base + offset))))
      ∧ (0 ≤ a → 0 ≤ b → base + offset + a < 2 ^ 63 → a + b < 2 ^ 63 →
         ∃ data2 s2 s3,
           read_at s1 base (offset + a) b = Ok (data2, s2)
           ∧ read_at s base offset (a + b) = Ok (data ++ data2, s3))
  | Raise e =>
      (e = ValueError ∧ - 2 ^ 63 ≤ base + offset < 0)
      ∨ (e = OverflowError
         ∧ (¬ (- 2 ^ 63 ≤ base + offset < 2 ^ 63)
            ∨ ¬ (- 2 ^ 63 ≤ a < 2 ^ 63)))
  | OutOfFuel => False
  end.
Proof.
  intros Hbuf.
  assert (fits_ssize_t (len (buf s)) = true) as Hfit_buf
    by (apply fits_ssize_t_iff; unfold len in *; lia).
  rewrite read_at_eq, Hfit_buf, andb_true_r.
  destruct (negb (base + offset =? BytesIO_tell s)
            && negb (fits_ssize_t (base + offset))) eqn:Hseek.
  { right. split; [reflexivity|]. left.
    apply andb_true_iff in Hseek as [_ Hfit].
    apply negb_true_iff, fits_ssize_t_false in Hfit. exact Hfit. }
  destruct (Z.ltb_spec (base + offset) 0) as [Hneg|Hpos].
  { left. split; [reflexivity|].
    apply andb_false_iff in Hseek as [H|H].
    - apply negb_false_iff, Z.eqb_eq in H. unfold BytesIO_tell in H. lia.
    - apply negb_false_iff, fits_ssize_t_iff in H. lia. }
  destruct (fits_ssize_t a) eqn:Hfit_a; cbn [negb];
    [|right; split; [reflexivity|right; apply fits_ssize_t_false, Hfit_a]].
  apply fits_ssize_t_iff in Hfit_a.
  cbv zeta. set (rest := drop (Z.to_nat (base + offset)) (buf s)).
  set (data := if a <? 0 then rest else take (Z.to_nat a) rest).
  split; [assumption|]. split; [exact Hfit_a|]. split; [reflexivity|]. split.
  { unfold BytesIO_tell, len. cbn [pos]. lia. }
  split.
  { subst data. unfold py_slice.
    replace (base + offset + a - (base + offset)) with a by lia. reflexivity. }
  split.
  { intros Ha. subst data rest. destruct (Z.ltb_spec a 0); [lia|].
    unfold len. rewrite length_take, length_drop. lia. }
  intros Ha Hb Hend Hsum. rewrite !read_at_eq. cbn [buf].
  rewrite Hseek, Hfit_buf, !andb_true_r.
  assert (fits_ssize_t (base + (offset + a)) = true) as ->
    by (apply fits_ssize_t_iff; lia).
  rewrite andb_false_r.
  assert (fits_ssize_t b = true) as -> by (apply fits_ssize_t_iff; lia).
  assert (fits_ssize_t (a + b) = true) as -> by (apply fits_ssize_t_iff; lia).
  cbn [negb].
  destruct (Z.ltb_spec (base + (offset + a)) 0); [lia|].
  destruct (Z.ltb_spec (base + offset) 0); [lia|].
  cbv zeta. do 3 eexists. split; [reflexivity|].
  f_equal. f_equal. fold rest. subst data.
  destruct (Z.ltb_spec a 0); [lia|]. destruct (Z.ltb_spec b 0); [lia|].
  destruct (Z.ltb_spec (a + b) 0); [lia|].
  rewrite Z2Nat.inj_add by lia. rewrite take_add. f_equal. f_equal.
  subst rest. rewrite drop_drop. f_equal. lia.
Qed.

Lemma Volume_read_is_a_slice_of_the_stream_witness :
  let s := {| buf := le_bytes 4 0x04030201 ++ le_bytes 4 0x08070605; pos := 7 |} in
  len (buf s) < 2 ^ 63
  ∧ ∃ data2 s1 s2 s3,
      read_at s 1 2 3 = Ok (le_bytes 3 0x060504, s1)
      ∧ BytesIO_tell s1 = 1 + 2 + 3
      ∧ read_at s1 1 (2 + 3) 2 = Ok (data2, s2)
      ∧ read_at s 1 2 (3 + 2) = Ok (le_bytes 3 0x060504 ++ data2, s3).
Proof.
  intros s.
  assert (len (buf s) < 2 ^ 63) as Hbuf by (vm_compute; reflexivity).
  split; [exact Hbuf|].
  pose proof (Volume_read_is_a_slice_of_the_stream s 1 2 3 2 Hbuf) as H.
  destruct (read_at s 1 2 3) as [[data s1]| |] eqn:E;
    [|vm_compute in E; discriminate|vm_compute in E; discriminate].
  destruct H as (_ & _ & _ & Htell & Hdata & _ & Hjoin).
  destruct Hjoin as (data2 & s2 & s3 & H2 & H3); [lia|lia|lia|lia|].
  assert (data = le_bytes 3 0x060504) as -> by (rewrite Hdata; reflexivity).
  exists data2, s1, s2, s3. split; [reflexivity|]. split; [exact Htell|].
  split; [exact H2|exact H3].
Defined.

(** ** ext4_struct.__getattr__ *)

Lemma lor_shiftl hi lo n :
  0 ≤ n → 0 ≤ lo < 2 ^ n → Z.lor (Z.shiftl hi n) lo = lo + 2 ^ n * hi.
Proof.
  intros Hn Hlo.
  assert (Z.land (Z.shiftl hi n) lo = 0) as Hland.
  { apply Z.bits_inj'. intros k Hk. rewrite Z.land_spec, Z.bits_0.
    destruct (Z.lt_ge_cases k n).
    - rewrite Z.shiftl_spec_low by lia. reflexivity.
    - destruct (Z.eq_dec lo 0) as [->|].
      + rewrite Z.bits_0. apply andb_false_r.
      + rewrite (Z.bits_above_log2 lo k); [apply andb_false_r|lia|].
        apply Z.log2_lt_pow2; [lia|].
        apply Z.lt_le_trans with (2 ^ n); [lia|].
        apply Z.pow_le_mono_r; lia. }
  rewrite <- Z.lxor_lor by assumption.
  rewrite <- Z.add_nocarry_lxor by assumption.
  rewrite Z.shiftl_mul_pow2 by lia. lia.
Qed.

Lemma read_field_range raw f : 0 ≤ read_field raw f < 2 ^ (8 * Z.of_nat (snd f)).
Proof.
  unfold read_field.
  pose proof (int_from_bytes_little_range (take (snd f) (drop (fst f) raw))) as H.
  split; [lia|]. eapply Z.lt_le_trans; [apply H|].
  apply Z.pow_le_mono_r; [lia|]. unfold len. rewrite length_take. lia.
Qed.

(** X11. For a name that is not itself a field but has a [_lo] and a
    [_hi] field, attribute access returns [lo + 2 ^ (8 * size of lo) * hi]:
    the two halves as one unsigned number, within the range of their
    combined width.  (The halves need not be adjacent or equally wide.) *)
Theorem getattr_combines_lo_and_hi {t} (s : struct t) (name : string)
    (lo_field hi_field : nat * nat) :
  find_field (c_fields t) name = None →
  find_field (c_fields t) (name +:+ "_lo") = Some lo_field →
  find_field (c_fields t) (name +:+ "_hi") = Some hi_field →
  ∃ lo hi,
    getattr s (name +:+ "_lo") = Ok lo
    ∧ getattr s (name +:+ "_hi") = Ok hi
    ∧ getattr s name = Ok (lo + 2 ^ (8 * Z.of_nat (snd lo_field)) * hi)
    ∧ 0 ≤ lo < 2 ^ (8 * Z.of_nat (snd lo_field))
    ∧ 0 ≤ hi < 2 ^ (8 * Z.of_nat (snd hi_field))
    ∧ 0 ≤ lo + 2 ^ (8 * Z.of_nat (snd lo_field)) * hi
        < 2 ^ (8 * Z.of_nat (snd lo_field + snd hi_field)).
Proof.
  intros Hname Hlo Hhi.
  pose proof (read_field_range (s_raw s) lo_field) as Rlo.
  pose proof (read_field_range (s_raw s) hi_field) as Rhi.
  exists (read_field (s_raw s) lo_field), (read_field (s_raw s) hi_field).
  unfold getattr. cbv zeta. rewrite Hname, Hlo, Hhi.
  split; [reflexivity|]. split; [reflexivity|].
  split; [f_equal; apply lor_shiftl; lia|].
  split; [exact Rlo|]. split; [exact Rhi|].
  rewrite Nat2Z.inj_add, Z.mul_add_distr_l, Z.pow_add_r by lia. nia.
Qed.

Lemma getattr_combines_lo_and_hi_witness :
  let s : struct ext4_extent :=
    {| s_raw := le_bytes 4 0 ++ le_bytes 2 1 ++ le_bytes 2 0x12 ++ le_bytes 4 0x34 |} in
  getattr s "ee_start" = Ok (0x34 + 2 ^ 32 * 0x12).
Proof.
  intros s.
  destruct (getattr_combines_lo_and_hi s "ee_start" (8, 4)%nat (6, 2)%nat
              eq_refl eq_refl eq_refl) as (lo & hi & Hlo & Hhi & H & _).
  vm_compute in Hlo, Hhi. injection Hlo as <-. injection Hhi as <-.
  exact H.
Defined.


(** ** Volume.__init__ *)

Lemma getattr_field {t} (s : struct t) name f :
  find_field (c_fields t) name = Some f →
  getattr s name = Ok (read_field (s_raw s) f).
Proof. intros H. unfold getattr. cbv zeta. rewrite H. reflexivity. Qed.

Lemma mapM_Ok {A B} (f : A → result B) l : ∀ ys,
  mapM f l = Ok ys →
  length ys = length l
  ∧ ∀ i y, ys !! i = Some y → ∃ x, l !! i = Some x ∧ f x = Ok y.
Proof.
  induction l as [|x l IH]; intros ys; cbn [mapM].
  - intros [= <-]. split; [reflexivity|]. intros i y H. discriminate.
  - intros H. apply bind_Ok in H as (y & Hy & H).
    apply bind_Ok in H as (ys' & Hys & [= <-]).
    destruct (IH _ Hys) as [Hlen Hnth]. split; [simpl; congruence|].
    intros [|i] y'; simpl.
    + intros [= <-]. eauto.
    + apply Hnth.
Qed.

Lemma mapM_not_Ok {A B} (f : A → result B) l :
  match mapM f l with
  | Ok _ => True
  | Raise e => ∃ x, x ∈ l ∧ f x = Raise e
  | OutOfFuel => ∃ x, x ∈ l ∧ f x = OutOfFuel
  end.
Proof.
  induction l as [|x l IH]; cbn [mapM]; [exact I|].
  destruct (f x) as [y|e|] eqn:Hx; cbn [bind].
  - destruct (mapM f l) as [ys|e|]; cbn [bind]; [exact I| |];
      destruct IH as (x' & Hin & Hx'); exists x'; split;
      try assumption; right; assumption.
  - exists x. split; [left|assumption].
  - exists x. split; [left|assumption].
Qed.

Lemma from_buffer_copy_Ok t raw s :
  from_buffer_copy t raw = Ok s →
  s_raw s = take (c_sizeof t) raw ∧ len (s_raw s) = Z.of_nat (c_sizeof t).
Proof.
  unfold from_buffer_copy. destruct (Z.ltb_spec (len raw) (Z.of_nat (c_sizeof t)));
    [discriminate|]. intros [= <-]. cbn [s_raw]. split; [reflexivity|].
  unfold len in *. rewrite length_take. lia.
Qed.

Lemma read_struct_Ok data base offset t s :
  (let* raw := read_bytes data base offset (Z.of_nat (c_sizeof t)) in
   from_buffer_copy t raw) = Ok s →
  0 ≤ base + offset
  ∧ s_raw s = py_slice data (base + offset) (base + offset + Z.of_nat (c_sizeof t))
  ∧ len (s_raw s) = Z.of_nat (c_sizeof t).
Proof.
  intros H. apply bind_Ok in H as (raw & Hraw & H).
  rewrite read_bytes_eq in Hraw.
  destruct (negb (fits_ssize_t (base + offset))); [discriminate|].
  destruct (Z.ltb_spec (base + offset) 0); [discriminate|].
  destruct (negb (fits_ssize_t (Z.of_nat (c_sizeof t)) && _)); [discriminate|].
  cbv zeta in Hraw. destruct (Z.ltb_spec (Z.of_nat (c_sizeof t)) 0); [lia|].
  injection Hraw as <-. apply from_buffer_copy_Ok in H as [Hraw Hlen].
  split; [assumption|]. split; [|assumption].
  rewrite Hraw. unfold py_slice.
  replace (base + offset + Z.of_nat (c_sizeof t) - (base + offset))
    with (Z.of_nat (c_sizeof t)) by lia.
  rewrite Nat2Z.id, take_take, Nat.min_id. reflexivity.
Qed.

Lemma read_struct_not_Ok data base offset t :
  match (let* raw := read_bytes data base offset (Z.of_nat (c_sizeof t)) in
         from_buffer_copy t raw) with
  | Ok _ => True
  | Raise e => e = ValueError ∨ e = OverflowError
  | OutOfFuel => False
  end.
Proof.
  rewrite read_bytes_eq.
  destruct (negb _); cbn [bind]; [right; reflexivity|].
  destruct (_ <? 0); cbn [bind]; [left; reflexivity|].
  destruct (negb _); cbn [bind]; [right; reflexivity|].
  cbv zeta. unfold from_buffer_copy.
  destruct (_ <? _); [left; reflexivity|exact I].
Qed.

Lemma first_block_after_superblock k :
  0 ≤ k →
  let block_size := Z.shiftl 1 (10 + k) in
  (0x400 / block_size + 1) * block_size = Z.max 2048 block_size.
Proof.
  intros Hk block_size. subst block_size.
  rewrite Z.shiftl_1_l, Z.pow_add_r by lia. change (2 ^ 10) with 1024.
  destruct (Z.eq_dec k 0) as [->|Hne].
  - reflexivity.
  - assert (2 ^ 1 ≤ 2 ^ k) as Hp by (apply Z.pow_le_mono_r; lia).
    change (2 ^ 1) with 2 in Hp.
    rewrite Z.div_small by lia. lia.
Qed.


(** X12. What [Volume.__init__] leaves behind.  When it returns, the volume
    holds the arguments; its superblock is the 1024 bytes of the stream at
    [offset + 0x400], all of them present; unless [ignore_magic] was
    passed, [s_magic] is 0xEF53; there are [s_inodes_count //
    s_inodes_per_group] group descriptors, and descriptor [i] is the 64
    bytes at [i * s_desc_size] behind the first block after the superblock
    (at 2048 for a block size of 1024, at the block size otherwise).  When
    it raises, that is [ValueError] (a stream that is too short, or a
    negative position), [OverflowError] (a position that does not fit in
    64 bits), [ZeroDivisionError] ([s_inodes_per_group] is 0), or
    [MagicError], the last never with [ignore_magic]. *)
Theorem Volume_init_outcome (data : bytes) (offset : Z)
    (with_ignore_flags with_ignore_magic : bool) :
  match Volume_init data offset with_ignore_flags with_ignore_magic with
  | Ok v =>
      ignore_flags v = with_ignore_flags
      ∧ ignore_magic v = with_ignore_magic
      ∧ Volume_offset v = offset
      ∧ stream v = data
      ∧ s_raw (superblock v) = py_slice data (offset + 0x400) (offset + 0x800)
      ∧ len (s_raw (superblock v)) = 0x400
      ∧ (with_ignore_magic = false → getattr (superblock v) "s_magic" = Ok 0xEF53)
      ∧ ∃ count per_group desc_size block_size,
          getattr (superblock v) "s_inodes_count" = Ok count
          ∧ getattr (superblock v) "s_inodes_per_group" = Ok per_group
          ∧ getattr (superblock v) "s_desc_size" = Ok desc_size
          ∧ Volume_block_size v = Ok block_size
          ∧ per_group ≠ 0
          ∧ len (group_descriptors v) = count / per_group
          ∧ ∀ (i : nat) group_descriptor,
              group_descriptors v !! i = Some group_descriptor →
              let position :=
                offset + Z.max 2048 block_size + Z.of_nat i * desc_size in
              s_raw group_descriptor = py_slice data position (position + 64)
              ∧ len (s_raw group_descriptor) = 64
  | Raise e =>
      e = ValueError ∨ e = OverflowError ∨ e = ZeroDivisionError
      ∨ (e = MagicError ∧ with_ignore_magic = false)
  | OutOfFuel => False
  end.
Proof.
  assert (∀ e, e = ValueError ∨ e = OverflowError →
               e = ValueError ∨ e = OverflowError ∨ e = ZeroDivisionError
               ∨ (e = MagicError ∧ with_ignore_magic = false))
    as Hstream by (intros e [->| ->]; auto).
  unfold Volume_init.
  pose proof (read_struct_not_Ok data offset 0x400 ext4_superblock) as Hsb.
  destruct (let* raw := read_bytes data offset 0x400
                          (Z.of_nat (c_sizeof ext4_superblock)) in
            from_buffer_copy ext4_superblock raw) as [sb|e|] eqn:Esb;
    cbn [bind]; [clear Hsb|apply Hstream; exact Hsb|exact Hsb].
  apply read_struct_Ok in Esb as (Hpos & Hraw & Hlen).
  rewrite (getattr_field sb "s_inodes_count" _ eq_refl).
  rewrite (getattr_field sb "s_inodes_per_group" _ eq_refl).
  unfold superblock_block_size.
  rewrite (getattr_field sb "s_log_block_size" _ eq_refl).
  assert (magic_differs with_ignore_magic sb "s_magic" 0xEF53
          = Ok (negb with_ignore_magic
                && negb (read_field (s_raw sb) (0x38, 2)%nat =? 0xEF53))) as ->.
  { unfold magic_differs. rewrite (getattr_field sb "s_magic" _ eq_refl).
    destruct with_ignore_magic; reflexivity. }
  cbn [bind].
  destruct (negb with_ignore_magic
            && negb (read_field (s_raw sb) (56, 2)%nat =? 61267)) eqn:Emagic.
  { right. right. right. split; [reflexivity|].
    destruct with_ignore_magic; [discriminate|reflexivity]. }
  unfold floordiv.
  set (count := read_field (s_raw sb) (0x0, 4)%nat).
  set (per_group := read_field (s_raw sb) (0x28, 4)%nat).
  set (log_block_size := read_field (s_raw sb) (0x18, 4)%nat).
  destruct (Z.eqb_spec per_group 0) as [E0|Hne]; cbn [bind];
    [right; right; left; reflexivity|].
  assert (0 ≤ log_block_size) as Hlog by apply read_field_nonneg.
  rewrite (first_block_after_superblock log_block_size Hlog).
  set (block_size := Z.shiftl 1 (10 + log_block_size)).
  match goal with |- context [mapM ?f ?l] =>
    pose proof (mapM_not_Ok f l) as Hno; pose proof (mapM_Ok f l) as Hok;
    destruct (mapM f l) as [gds|e|] end; cbn [bind].
  - clear Hno. destruct (Hok gds eq_refl) as [Hcount Hnth]. clear Hok.
    cbn [ignore_flags ignore_magic Volume_offset stream superblock
         group_descriptors].
    repeat (split; [first [reflexivity|assumption]|]).
    split.
    { replace (offset + 0x800) with (offset + 0x400 + Z.of_nat (c_sizeof ext4_superblock))
        by (cbn [c_sizeof ext4_superblock]; lia). exact Hraw. }
    split; [exact Hlen|]. split.
    { intros ->. rewrite (getattr_field sb "s_magic" _ eq_refl). f_equal.
      cbn [negb andb] in Emagic. apply negb_false_iff, Z.eqb_eq in Emagic.
      exact Emagic. }
    exists count, per_group, (read_field (s_raw sb) (0xFE, 2)%nat), block_size.
    split; [reflexivity|]. split; [reflexivity|]. split; [reflexivity|].
    split; [reflexivity|]. split; [exact Hne|]. split.
    { unfold len. rewrite Hcount, length_seq.
      assert (0 ≤ count) by apply read_field_nonneg.
      assert (0 ≤ per_group) by apply read_field_nonneg.
      rewrite Z2Nat.id; [reflexivity|]. apply Z.div_pos; lia. }
    intros i gd Hgd. destruct (Hnth i gd Hgd) as (x & Hx & Hread).
    apply lookup_seq in Hx as [-> _]. cbn [Nat.add] in Hread.
    rewrite (getattr_field sb "s_desc_size" _ eq_refl) in Hread.
    cbn [bind] in Hread.
    apply read_struct_Ok in Hread as (_ & Hgraw & Hglen).
    cbv zeta. split; [|exact Hglen]. rewrite Hgraw.
    f_equal; cbn [c_sizeof ext4_group_descriptor]; lia.
  - destruct Hno as (x & _ & Hx).
    rewrite (getattr_field sb "s_desc_size" _ eq_refl) in Hx. cbn [bind] in Hx.
    match type of Hx with ?m = _ =>
      match m with context [read_bytes ?d ?b ?o _] =>
        pose proof (read_struct_not_Ok d b o ext4_group_descriptor) as H end end.
    rewrite Hx in H. apply Hstream. exact H.
  - destruct Hno as (x & _ & Hx).
    rewrite (getattr_field sb "s_desc_size" _ eq_refl) in Hx. cbn [bind] in Hx.
    match type of Hx with ?m = _ =>
      match m with context [read_bytes ?d ?b ?o _] =>
        pose proof (read_struct_not_Ok d b o ext4_group_descriptor) as H end end.
    rewrite Hx in H. exact H.
Qed.


(** ** Inode.open_dir: a record of length 0 *)

Lemma record_at_in_range raw_data offset r :
  0 ≤ offset → record_at raw_data offset = Some r → offset < len raw_data.
Proof.
  intros Hoff H. unfold record_at in H.
  pose proof (length_drop raw_data (Z.to_nat offset)) as Hlen.
  destruct (drop (Z.to_nat offset) raw_data); [discriminate|].
  simpl in Hlen. unfold len. lia.
Qed.

(** X13. A directory record whose [rec_len] is 0 stops [open_dir] from
    ever finishing: the loop stays at that record, so however long it is
    run it has not returned, and unless the record is a checksum record or
    its name does not decode, it yields that same entry over and over. *)
Theorem open_dir_zero_rec_len_never_ends {Name}
    (decode_name : bytes → result Name) raw_data offset r :
  0 ≤ offset →
  record_at raw_data offset = Some r →
  d_rec_len r = 0 →
  ∀ fuel,
    snd (open_dir_loop fuel decode_name raw_data offset) ≠ Ok tt
    ∧ (∀ entry, is_checksum r = false → entry_of decode_name r = Ok entry →
         open_dir_loop fuel decode_name raw_data offset
         = (repeat entry fuel, OutOfFuel)).
Proof.
  intros Hoff Hr Hlen fuel.
  pose proof (record_at_in_range _ _ _ Hoff Hr) as Hin.
  induction fuel as [|fuel [IH1 IH2]]; [split; [discriminate|reflexivity]|].
  rewrite (open_dir_loop_step decode_name fuel raw_data offset Hoff).
  destruct (Z.ltb_spec offset (len raw_data)); [|lia].
  rewrite Hr, Hlen, Z.add_0_r. cbv zeta. split.
  - destruct (is_checksum r); [exact IH1|].
    destruct (entry_of decode_name r); [exact IH1|discriminate|discriminate].
  - intros entry Hck He. rewrite Hck, He, (IH2 entry Hck He). reflexivity.
Qed.

Lemma open_dir_zero_rec_len_never_ends_witness :
  let raw_data := le_bytes 4 5 ++ le_bytes 2 0 ++ le_bytes 1 0 ++ le_bytes 1 1 in
  let entry : bytes * Z * Z := ([], 5, 1) in
  open_dir_loop 3 Ok raw_data 0 = ([entry; entry; entry], OutOfFuel).
Proof.
  intros raw_data entry.
  assert (record_at raw_data 0
          = Some {| d_inode := 5; d_rec_len := 0; d_file_type := 1; d_name := [] |})
    as Hr by reflexivity.
  exact (proj2 (open_dir_zero_rec_len_never_ends Ok raw_data 0 _
                  (Z.le_refl 0) Hr eq_refl 3%nat) entry eq_refl eq_refl).
Defined.


(** ** Inode.get_inode along a path in two parts *)

Section PathComposition.
Context {Name : Type} `{EqDecision Name}.
Variable utf8 : bytes → result Name.
Variable is_str : Name → bool.

Lemma join_path_then_raise {A} parts (k : unit → result A) r :
  (∀ u r', k u ≠ Ok r') → (let* u := join_path is_str parts in k u) ≠ Ok r.
Proof.
  intros Hk. destruct (join_path is_str parts) as [u| |]; cbn [bind];
    [apply Hk|discriminate|discriminate].
Qed.

(** A round of the loop that does not raise. *)
Lemma get_inode_loop_round fuel self decode_name relative_path i part rest
    current_inode last_idx r :
  get_inode_loop utf8 is_str fuel self decode_name relative_path i
    (part :: rest) current_inode last_idx = Ok r
  ↔ flags_refuse (Inode_volume self) current_inode = Ok false
    ∧ ∃ inode_idx next_inode,
        (let g := Inode_open_dir utf8 fuel current_inode decode_name in
         first_match (fst g) (snd g) part) = Ok (Some inode_idx)
        ∧ Volume_get_inode (Inode_volume current_inode) inode_idx = Ok next_inode
        ∧ get_inode_loop utf8 is_str fuel self decode_name relative_path (S i)
            rest next_inode (Some inode_idx) = Ok r.
Proof.
  cbn [get_inode_loop]. cbv zeta. split.
  - intros H. apply bind_Ok in H as (refused & Href & H).
    destruct refused.
    { exfalso. revert H. apply join_path_then_raise. intros _ r'.
      destruct last_idx; discriminate. }
    split; [exact Href|].
    apply bind_Ok in H as (found & Hfound & H).
    destruct found as [idx|].
    + apply bind_Ok in H as (next & Hnext & H). eauto.
    + exfalso. revert H. apply join_path_then_raise. intros _ r'.
      destruct (format_d (inode_idx current_inode)); discriminate.
  - intros (Href & idx & next & Hfound & Hnext & H).
    rewrite Href. cbn [bind]. rewrite Hfound. cbn [bind].
    rewrite Hnext. cbn [bind]. exact H.
Qed.

(** The path, the position in it and the last index found only serve the
    error messages. *)
Lemma get_inode_loop_Ok_params fuel decode_name rest :
  ∀ self self' relative_path relative_path' i i' current_inode last_idx
    last_idx' r,
  Inode_volume self' = Inode_volume self →
  get_inode_loop utf8 is_str fuel self decode_name relative_path i rest
    current_inode last_idx = Ok r →
  get_inode_loop utf8 is_str fuel self' decode_name relative_path' i' rest
    current_inode last_idx' = Ok r.
Proof.
  induction rest as [|part rest IH];
    intros self self' rp rp' i i' cur last last' r Hvol H; [exact H|].
  apply get_inode_loop_round in H
    as (Href & idx & next & Hfound & Hnext & H).
  apply get_inode_loop_round. rewrite Hvol. split; [exact Href|].
  exists idx, next. split; [exact Hfound|]. split; [exact Hnext|].
  eapply IH; eassumption.
Qed.

Lemma get_inode_loop_volume fuel decode_name rest :
  ∀ self relative_path i current_inode last_idx r,
  get_inode_loop utf8 is_str fuel self decode_name relative_path i rest
    current_inode last_idx = Ok r →
  Inode_volume r = Inode_volume current_inode.
Proof.
  induction rest as [|part rest IH]; intros self rp i cur last r H.
  - injection H as <-. reflexivity.
  - apply get_inode_loop_round in H
      as (Href & idx & next & Hfound & Hnext & H).
    apply IH in H. apply Volume_get_inode_volume in Hnext as [Hvol _].
    congruence.
Qed.

Lemma get_inode_loop_app fuel decode_name self relative_path first second :
  ∀ i current_inode last_idx r,
  get_inode_loop utf8 is_str fuel self decode_name relative_path i
    (first ++ second) current_inode last_idx = Ok r
  ↔ ∃ mid last_idx',
      get_inode_loop utf8 is_str fuel self decode_name relative_path i
        first current_inode last_idx = Ok mid
      ∧ get_inode_loop utf8 is_str fuel self decode_name relative_path
          (i + length first) second mid last_idx' = Ok r.
Proof.
  induction first as [|part first IH]; intros i cur last r.
  - cbn [app length get_inode_loop]. rewrite Nat.add_0_r. split.
    + intros H. exists cur, last. split; [reflexivity|exact H].
    + intros (mid & last' & [= <-] & H).
      eapply get_inode_loop_Ok_params; [reflexivity|exact H].
  - rewrite <- app_comm_cons, !get_inode_loop_round. split.
    + intros (Href & idx & next & Hfound & Hnext & H).
      apply IH in H as (mid & last' & H1 & H2).
      exists mid, last'. split.
      * apply get_inode_loop_round. eauto 10.
      * cbn [length]. rewrite Nat.add_succ_r. exact H2.
    + intros (mid & last' & H1 & H2).
      apply get_inode_loop_round in H1
        as (Href & idx & next & Hfound & Hnext & H1).
      split; [exact Href|]. exists idx, next.
      split; [exact Hfound|]. split; [exact Hnext|].
      apply IH. exists mid, last'. split; [exact H1|].
      cbn [length] in H2. rewrite Nat.add_succ_r in H2. exact H2.
Qed.

Lemma Inode_get_inode_Ok fuel self relative_path decode_name r :
  Inode_get_inode utf8 is_str fuel self relative_path decode_name = Ok r
  ↔ Inode_is_dir self = Ok true
    ∧ get_inode_loop utf8 is_str fuel self decode_name relative_path 0
        relative_path self None = Ok r.
Proof.
  unfold Inode_get_inode. split.
  - intros H. apply bind_Ok in H as (is_dir & Hdir & H).
    destruct is_dir; cbn [negb] in H; [auto|].
    destruct (format_d (inode_idx self)); discriminate.
  - intros [-> H]. exact H.
Qed.

(** X14. Looking up a path in two steps or in one gives the same inode.
    If [get_inode] on the path [first] returns [mid] and [mid.get_inode]
    on [second] returns an inode, [get_inode] on the joined path returns
    that inode; and if [get_inode] on the joined path returns, so does
    [get_inode] on [first], with an inode from which, when it is a
    directory, [second] leads to the same result. *)
Theorem get_inode_of_joined_paths fuel self first second decode_name :
  (∀ mid r,
     Inode_get_inode utf8 is_str fuel self first decode_name = Ok mid →
     Inode_get_inode utf8 is_str fuel mid second decode_name = Ok r →
     Inode_get_inode utf8 is_str fuel self (first ++ second) decode_name = Ok r)
  ∧ (∀ r,
       Inode_get_inode utf8 is_str fuel self (first ++ second) decode_name = Ok r →
       ∃ mid,
         Inode_get_inode utf8 is_str fuel self first decode_name = Ok mid
         ∧ Inode_volume mid = Inode_volume self
         ∧ (Inode_is_dir mid = Ok true →
            Inode_get_inode utf8 is_str fuel mid second decode_name = Ok r)).
Proof.
  split.
  - intros mid r H1 H2. apply Inode_get_inode_Ok in H1 as [Hdir H1].
    apply Inode_get_inode_Ok in H2 as [_ H2].
    apply Inode_get_inode_Ok. split; [exact Hdir|].
    pose proof (get_inode_loop_volume _ _ _ _ _ _ _ _ _ H1) as Hvol.
    apply get_inode_loop_app. exists mid, None. split.
    + eapply get_inode_loop_Ok_params; [reflexivity|exact H1].
    + eapply get_inode_loop_Ok_params; [|exact H2]. symmetry. exact Hvol.
  - intros r H. apply Inode_get_inode_Ok in H as [Hdir H].
    apply get_inode_loop_app in H as (mid & last' & H1 & H2).
    pose proof (get_inode_loop_volume _ _ _ _ _ _ _ _ _ H1) as Hvol.
    exists mid. split; [|split; [exact Hvol|]].
    + apply Inode_get_inode_Ok. split; [exact Hdir|].
      eapply get_inode_loop_Ok_params; [reflexivity|exact H1].
    + intros Hmid. apply Inode_get_inode_Ok. split; [exact Hmid|].
      eapply get_inode_loop_Ok_params; [|exact H2]. exact Hvol.
Qed.

End PathComposition.


Lemma get_inode_of_joined_paths_witness :
  ∃ mid r,
    Inode_get_inode latin1 (λ _, true) 5 example_tree_root ["d"%string]
      (Some latin1) = Ok mid
    ∧ inode_idx mid = Some 11
    ∧ Inode_get_inode latin1 (λ _, true) 5 mid ["g"%string] (Some latin1) = Ok r
    ∧ inode_idx r = Some 13
    ∧ Inode_get_inode latin1 (λ _, true) 5 example_tree_root
        (["d"%string] ++ ["g"%string]) (Some latin1) = Ok r.
Proof.
  destruct (Inode_get_inode latin1 (λ _, true) 5 example_tree_root
              ["d"%string] (Some latin1)) as [mid| |] eqn:Hmid;
    [|vm_compute in Hmid; discriminate..].
  assert (inode_idx mid = Some 11) as Hidx
    by (vm_compute in Hmid; injection Hmid as <-; reflexivity).
  destruct (Inode_get_inode latin1 (λ _, true) 5 mid ["g"%string]
              (Some latin1)) as [r| |] eqn:Hr.
  - exists mid, r. split; [reflexivity|]. split; [exact Hidx|].
    split; [exact Hr|]. split.
    + vm_compute in Hmid. injection Hmid as <-.
      vm_compute in Hr. injection Hr as <-. reflexivity.
    + exact (proj1 (get_inode_of_joined_paths latin1 (λ _, true) 5
                      example_tree_root ["d"%string] ["g"%string]
                      (Some latin1)) mid r Hmid Hr).
  - exfalso. vm_compute in Hmid. injection Hmid as <-.
    vm_compute in Hr. discriminate.
  - exfalso. vm_compute in Hmid. injection Hmid as <-.
    vm_compute in Hr. discriminate.
Defined.


(** ** Reading within one block, at once or byte by byte *)

Lemma div_in_block x b block_size :
  0 < block_size →
  b * block_size ≤ x < (b + 1) * block_size →
  x / block_size = b ∧ x mod block_size = x - b * block_size.
Proof.
  intros Hbs Hx.
  assert (x / block_size = b) as Hdiv
    by (symmetry; apply Z.div_unique with (x - b * block_size); lia).
  split; [exact Hdiv|]. rewrite Z.mod_eq by lia. rewrite Hdiv. lia.
Qed.

(** A read that stays within file block [b]. *)
Lemma read_in_block r n b block_size :
  Volume_block_size (BlockReader_volume r) = Ok block_size →
  0 < n ≤ byte_size r - cursor r →
  b * block_size ≤ cursor r →
  cursor r + n ≤ (b + 1) * block_size →
  BlockReader_read r n =
  match get_block_mapping_scan (block_map r) b with
  | None => (Raise BlockMapError, r)
  | Some disk_block =>
      match Volume_read (BlockReader_volume r)
              (disk_block * block_size + (cursor r - b * block_size)) n with
      | Ok data =>
          if negb (len data =? n)
          then (Raise EndOfStreamError, set_cursor r (cursor r + len data))
          else (Ok data, set_cursor r (cursor r + len data))
      | Raise e => (Raise e, r)
      | OutOfFuel => (OutOfFuel, r)
      end
  end.
Proof.
  intros Hbs Hn Hlo Hhi.
  destruct (Volume_block_size_Ok (BlockReader_volume r)) as (bs & Hbs' & Hmin).
  assert (bs = block_size) as -> by congruence. clear Hbs'.
  destruct (div_in_block (cursor r) b block_size) as [Hdiv Hmod]; [lia|lia|].
  destruct (div_in_block (cursor r + n - 1) b block_size) as [Hdiv' _];
    [lia|lia|].
  rewrite BlockReader_read_unfold.
  assert (wanted_bytes r n = n) as ->.
  { unfold wanted_bytes. destruct (Z.eqb_spec n (-1)); lia. }
  destruct (Z.ltb_spec n (-1)); [lia|].
  destruct (Z.eqb_spec n 0); [lia|].
  unfold BlockReader_fetch. rewrite Hbs. cbn [bind]. cbv zeta.
  rewrite Hdiv, Hdiv', Z.eqb_refl, Hmod.
  unfold BlockReader_get_block_mapping.
  destruct (get_block_mapping_scan (block_map r) b) as [disk_block|];
    cbn [bind]; reflexivity.
Qed.

(** A read of bytes that the stream has. *)
Lemma Volume_read_present v offset n :
  0 ≤ Volume_offset v + offset →
  0 ≤ n →
  Volume_offset v + offset + n ≤ len (stream v) →
  len (stream v) < 2 ^ 63 →
  Volume_read v offset n
  = Ok (take (Z.to_nat n) (drop (Z.to_nat (Volume_offset v + offset)) (stream v))).
Proof.
  intros Hpos Hn Hend Hlen. unfold Volume_read. rewrite read_bytes_eq.
  assert (fits_ssize_t (Volume_offset v + offset) = true) as ->
    by (apply fits_ssize_t_iff; lia).
  assert (fits_ssize_t n = true) as -> by (apply fits_ssize_t_iff; lia).
  assert (fits_ssize_t (len (stream v)) = true) as ->
    by (apply fits_ssize_t_iff; unfold len in *; lia).
  cbn [negb andb].
  destruct (Z.ltb_spec (Volume_offset v + offset) 0); [lia|].
  destruct (Z.ltb_spec n 0); [lia|]. reflexivity.
Qed.

(** A read that returned all the bytes asked for. *)
Lemma Volume_read_full v offset n data :
  0 < n →
  Volume_read v offset n = Ok data →
  len data = n →
  0 ≤ Volume_offset v + offset
  ∧ data = take (Z.to_nat n)
             (drop (Z.to_nat (Volume_offset v + offset)) (stream v))
  ∧ Volume_offset v + offset + n ≤ len (stream v)
  ∧ len (stream v) < 2 ^ 63.
Proof.
  intros Hn H Hlen. unfold Volume_read in H. rewrite read_bytes_eq in H.
  destruct (negb (fits_ssize_t (Volume_offset v + offset))); [discriminate|].
  destruct (Z.ltb_spec (Volume_offset v + offset) 0); [discriminate|].
  destruct (fits_ssize_t n && fits_ssize_t (len (stream v))) eqn:Hfit;
    [|discriminate].
  apply andb_true_iff in Hfit as [_ Hfit]. apply fits_ssize_t_iff in Hfit.
  cbn [negb] in H. cbv zeta in H.
  destruct (Z.ltb_spec n 0); [lia|]. injection H as <-.
  split; [assumption|]. split; [reflexivity|]. split; [|lia].
  unfold len in *. rewrite length_take, length_drop in Hlen. lia.
Qed.

Lemma read_bytewise_in_block r b block_size disk_block :
  Volume_block_size (BlockReader_volume r) = Ok block_size →
  get_block_mapping_scan (block_map r) b = Some disk_block →
  len (stream (BlockReader_volume r)) < 2 ^ 63 →
  ∀ (m : nat) c,
    let position :=
      Volume_offset (BlockReader_volume r)
      + (disk_block * block_size + (c - b * block_size)) in
    b * block_size ≤ c →
    c + Z.of_nat m ≤ (b + 1) * block_size →
    c + Z.of_nat m ≤ byte_size r →
    0 ≤ position →
    position + Z.of_nat m ≤ len (stream (BlockReader_volume r)) →
    read_bytewise m (set_cursor r c)
    = (Ok (take m (drop (Z.to_nat position) (stream (BlockReader_volume r)))),
       set_cursor r (c + Z.of_nat m)).
Proof.
  intros Hbs Hscan Hbuf m. induction m as [|m IH];
    intros c position Hlo Hhi Hsize Hpos Hlen.
  - cbn [read_bytewise take]. rewrite Z.add_0_r. reflexivity.
  - cbn [read_bytewise].
    rewrite (read_in_block (set_cursor r c) 1 b block_size);
      cbn [set_cursor cursor byte_size BlockReader_volume block_map];
      [|exact Hbs|lia|lia|lia].
    rewrite Hscan.
    rewrite Volume_read_present by (fold position; lia). fold position.
    set (s := stream (BlockReader_volume r)) in *.
    assert (len (take (Z.to_nat 1) (drop (Z.to_nat position) s)) = 1) as Hone.
    { unfold len in *. rewrite length_take, length_drop. lia. }
    rewrite Hone. cbn [Z.eqb Pos.eqb negb].
    change (set_cursor (set_cursor r c) (c + 1)) with (set_cursor r (c + 1)).
    rewrite (IH (c + 1)); [|lia|lia|lia|lia|].
    + f_equal; [|f_equal; lia]. f_equal.
      change (S m) with (1 + m)%nat. rewrite take_add. f_equal.
      rewrite drop_drop. f_equal. f_equal. lia.
    + replace (Volume_offset (BlockReader_volume r)
               + (disk_block * block_size + (c + 1 - b * block_size)))
        with (position + 1) by (subst position; lia).
      lia.
Qed.

Lemma read_bytewise_at_end m : ∀ r,
  byte_size r - cursor r ≤ 0 → read_bytewise m r = (Ok [], r).
Proof.
  induction m as [|m IH]; intros r Hend; [reflexivity|].
  cbn [read_bytewise]. rewrite BlockReader_read_unfold.
  assert (wanted_bytes r 1 = 0) as ->.
  { unfold wanted_bytes. change (1 =? -1) with false. cbv iota. lia. }
  cbn [Z.ltb Z.compare Z.eqb]. rewrite (IH r Hend). reflexivity.
Qed.

Lemma read_bytewise_add a : ∀ b r,
  read_bytewise (a + b) r
  = match read_bytewise a r with
    | (Ok first, r1) =>
        match read_bytewise b r1 with
        | (Ok second, r2) => (Ok (first ++ second), r2)
        | other => other
        end
    | other => other
    end.
Proof.
  induction a as [|a IH]; intros b r.
  - cbn [Nat.add read_bytewise]. destruct (read_bytewise b r) as [[d| |] r2];
      reflexivity.
  - cbn [Nat.add read_bytewise].
    destruct (BlockReader_read r 1) as [[d| |] r1]; try reflexivity.
    rewrite IH. destruct (read_bytewise a r1) as [[first| |] r2]; try reflexivity.
    destruct (read_bytewise b r2) as [[second| |] r3]; try reflexivity.
    rewrite app_assoc. reflexivity.
Qed.

(** X15. Within one block, reading at once and reading byte by byte agree:
    when [read(n)] returns and the [n] bytes from the cursor on lie in one
    file block, [n] reads of one byte return the same bytes joined and
    leave the reader in the same state. *)
Theorem read_within_a_block_is_bytewise r n block_size data r' :
  Volume_block_size (BlockReader_volume r) = Ok block_size →
  0 < n →
  cursor r / block_size = (cursor r + n - 1) / block_size →
  BlockReader_read r n = (Ok data, r') →
  read_bytewise (Z.to_nat n) r = (Ok data, r').
Proof.
  intros Hbs Hn Hblock Hread.
  destruct (Volume_block_size_Ok (BlockReader_volume r)) as (bs & Hbs' & Hmin).
  assert (bs = block_size) as -> by congruence. clear Hbs'.
  set (b := cursor r / block_size) in *.
  assert (b * block_size ≤ cursor r) as Hlo.
  { subst b. rewrite Z.mul_comm. apply Z.mul_div_le. lia. }
  assert (cursor r + n ≤ (b + 1) * block_size) as Hhi.
  { rewrite Hblock.
    pose proof (Z.mod_pos_bound (cursor r + n - 1) block_size ltac:(lia)).
    pose proof (Z.div_mod (cursor r + n - 1) block_size ltac:(lia)). lia. }
  destruct (Z.le_gt_cases (byte_size r - cursor r) 0) as [Hend|Hrem].
  { rewrite BlockReader_read_unfold in Hread.
    assert (wanted_bytes r n = 0) as Hw.
    { unfold wanted_bytes. destruct (Z.eqb_spec n (-1)); lia. }
    rewrite Hw in Hread. destruct (Z.ltb_spec n (-1)); [lia|].
    cbn [Z.eqb] in Hread. injection Hread as <- <-.
    apply read_bytewise_at_end. exact Hend. }
  set (wanted := Z.min n (byte_size r - cursor r)).
  assert (BlockReader_read r n = BlockReader_read r wanted) as Hsame.
  { rewrite !BlockReader_read_unfold.
    assert (wanted_bytes r n = wanted) as ->
      by (unfold wanted_bytes; destruct (Z.eqb_spec n (-1)); lia).
    assert (wanted_bytes r wanted = wanted) as ->
      by (unfold wanted_bytes; destruct (Z.eqb_spec wanted (-1)); lia).
    destruct (Z.ltb_spec n (-1)); [lia|].
    destruct (Z.ltb_spec wanted (-1)); [lia|]. reflexivity. }
  rewrite Hsame in Hread.
  rewrite (read_in_block r wanted b block_size) in Hread by (try assumption; lia).
  destruct (get_block_mapping_scan (block_map r) b) as [disk_block|] eqn:Hscan;
    [|discriminate].
  destruct (Volume_read (BlockReader_volume r)
              (disk_block * block_size + (cursor r - b * block_size)) wanted)
    as [found| |] eqn:Hfound; [|discriminate|discriminate].
  destruct (Z.eqb_spec (len found) wanted) as [Hlen|]; [|discriminate].
  cbn [negb] in Hread. rewrite Hlen in Hread. injection Hread as <- <-.
  assert (0 < wanted) as Hwanted by lia.
  destruct (Volume_read_full _ _ _ _ Hwanted Hfound Hlen)
    as (Hpos & -> & Hpresent & Hbuf).
  set (position := Volume_offset (BlockReader_volume r)
                   + (disk_block * block_size + (cursor r - b * block_size))) in *.
  replace (Z.to_nat n) with (Z.to_nat wanted + Z.to_nat (n - wanted))%nat by lia.
  rewrite read_bytewise_add. rewrite <- (set_cursor_cursor r) at 1.
  rewrite (read_bytewise_in_block r b block_size disk_block Hbs Hscan Hbuf);
    fold position; try lia.
  rewrite Z2Nat.id by lia.
  destruct (Z.eq_dec n wanted) as [E|E].
  - rewrite E, Z.sub_diag. change (Z.to_nat 0) with 0%nat.
    cbn [read_bytewise]. rewrite app_nil_r. reflexivity.
  - rewrite read_bytewise_at_end by (cbn [set_cursor byte_size cursor]; lia).
    rewrite app_nil_r. reflexivity.
Qed.

Lemma read_within_a_block_is_bytewise_witness :
  let r := {| byte_size := 2048;
              BlockReader_volume := volume_or_empty example_volume;
              cursor := 1000;
              block_map := [MappingEntry_init 0 8 1; MappingEntry_init 1 10 1] |} in
  read_bytewise 20 r = (Ok (repeat "A"%byte 20), set_cursor r 1020).
Proof.
  intros r.
  apply (read_within_a_block_is_bytewise r 20 1024);
    [vm_compute; reflexivity|lia|reflexivity|vm_compute; reflexivity].
Defined.




(** ** Inode.open_read: the reader it returns and what it raises *)









(** ** Inode.mode_str *)

Lemma mode_strings_checked_all :
  mode_strings_checked (Z.to_nat 4096) 0 = true.
Proof. vm_compute. reflexivity. Qed.

Lemma mode_strings_checked_each count : ∀ first i_mode,
  mode_strings_checked count first = true →
  first ≤ i_mode < first + Z.of_nat count →
  mode_string_checked i_mode = true.
Proof.
  induction count as [|count IH]; intros first i_mode Hall Hin; [lia|].
  cbn [mode_strings_checked] in Hall. apply andb_true_iff in Hall as [H0 Hall].
  destruct (Z.eq_dec i_mode first) as [->|Hne]; [exact H0|].
  apply (IH (first + 1)); [exact Hall|lia].
Qed.

Lemma permission_strings_land i_mode :
  permission_strings (Z.land i_mode 0xFFF) = permission_strings i_mode.
Proof.
  unfold permission_strings. cbv zeta. rewrite <- !Z.land_assoc. reflexivity.
Qed.

Lemma device_type_of_char i_mode :
  ∃ c, device_type_of i_mode = String c EmptyString.
Proof.
  unfold device_type_of, device_types, dict_get.
  repeat match goal with
         | |- context [if ?b then _ else _] => destruct b
         end; eauto.
Qed.

Lemma mode_string_permission_bits i_mode :
  String.length (mode_string i_mode) = 10%nat
  ∧ permission_bits (mode_string i_mode) = Z.land i_mode 0xFFF.
Proof.
  assert (0 ≤ Z.land i_mode 0xFFF < 4096) as Hrange.
  { change 0xFFF with (Z.ones 12). rewrite Z.land_ones by lia.
    apply Z.mod_pos_bound. reflexivity. }
  pose proof (mode_strings_checked_each _ 0 (Z.land i_mode 0xFFF)
                mode_strings_checked_all ltac:(lia)) as Hck.
  unfold mode_string_checked in Hck. cbv zeta in Hck.
  rewrite permission_strings_land in Hck.
  apply andb_true_iff in Hck as [Hbits Hlen].
  apply Z.eqb_eq in Hbits. apply Nat.eqb_eq in Hlen.
  unfold mode_string. cbv zeta.
  destruct (device_type_of_char i_mode) as [c ->].
  split; [exact Hlen|]. rewrite <- Hbits. reflexivity.
Qed.

(** X17. [mode_str] never raises and always has ten characters, and its
    nine permission characters lose nothing: the twelve permission bits of
    [i_mode] (read, write, execute for owner, group and others, set-uid,
    set-gid and sticky) can be read back from them, so two inodes with the
    same mode string have the same permission bits. *)
Theorem mode_str_keeps_permission_bits (ino : Inode) :
  ∃ i_mode s,
    getattr (inode ino) "i_mode" = Ok i_mode
    ∧ Inode_mode_str ino = Ok s
    ∧ String.length s = 10%nat
    ∧ permission_bits s = Z.land i_mode 0xFFF
    ∧ ∀ other i_mode',
        getattr (inode other) "i_mode" = Ok i_mode' →
        Inode_mode_str other = Ok s →
        Z.land i_mode' 0xFFF = Z.land i_mode 0xFFF.
Proof.
  exists (read_field (s_raw (inode ino)) (0, 2)%nat).
  exists (mode_string (read_field (s_raw (inode ino)) (0, 2)%nat)).
  destruct (mode_string_permission_bits
              (read_field (s_raw (inode ino)) (0, 2)%nat)) as [Hlen Hbits].
  split; [reflexivity|]. split; [reflexivity|].
  split; [exact Hlen|]. split; [exact Hbits|].
  intros other m' Hm' Hs'.
  change (getattr (inode other) "i_mode")
    with (Ok (A:=Z) (read_field (s_raw (inode other)) (0, 2)%nat)) in Hm'.
  injection Hm' as <-.
  change (Inode_mode_str other)
    with (Ok (mode_string (read_field (s_raw (inode other)) (0, 2)%nat))) in Hs'.
  injection Hs' as Hs'.
  rewrite <- Hbits, <- Hs'. symmetry. apply mode_string_permission_bits.
Qed.


(** ** BlockReader.get_range_mapping on a mapping without gaps *)

Section RangeMapping.
Variables file_block count : Z.
Hypothesis count_pos : 0 < count.

Lemma intersects_iff e :
  intersects file_block count e = true
  ↔ file_block_idx e ≤ file_block < file_block_idx e + block_count e
    ∨ file_block ≤ file_block_idx e < file_block + count.
Proof.
  unfold intersects.
  rewrite orb_true_iff, !andb_true_iff, !Z.leb_le, !Z.ltb_lt. reflexivity.
Qed.

Lemma intersects_false e :
  intersects file_block count e = false
  ↔ ¬ (file_block_idx e ≤ file_block < file_block_idx e + block_count e
       ∨ file_block ≤ file_block_idx e < file_block + count).
Proof.
  rewrite <- intersects_iff. destruct (intersects file_block count e);
    split; congruence || auto.
Qed.

(** Behind the entry that holds [file_block]: the entries that start
    before the end of the range are selected, and they reach that end. *)
Lemma range_selection_tail l : ∀ f,
  contiguous_from f l →
  Forall (λ e, 0 < block_count e) l →
  file_block < f →
  file_block + count ≤ f + sum_block_count l →
  let selected := List.filter (intersects file_block count) l in
  contiguous_from f selected
  ∧ Forall (λ e, file_block_idx e < file_block + count ∧ e ∈ l) selected
  ∧ file_block + count ≤ f + sum_block_count selected
  ∧ (file_block + count ≤ f → selected = []).
Proof.
  induction l as [|e l IH]; intros f Hcont Hpos Hf Hend; cbn [List.filter].
  - cbn [sum_block_count foldr] in Hend. cbv zeta.
    split; [exact I|]. split; [constructor|].
    cbn [sum_block_count foldr]. split; [lia|reflexivity].
  - destruct Hcont as [He Hcont]. apply Forall_cons in Hpos as [Hc Hpos].
    cbn [sum_block_count foldr] in Hend. fold (sum_block_count l) in Hend.
    destruct (IH (f + block_count e) Hcont Hpos ltac:(lia) ltac:(lia))
      as (Hcont' & Hsel & Hreach & Hnone).
    cbv zeta in *.
    destruct (intersects file_block count e) eqn:Hi.
    + apply intersects_iff in Hi.
      split; [split; [exact He|exact Hcont']|]. split.
      * constructor; [split; [lia|left]|].
        eapply Forall_impl; [exact Hsel|]. intros x [Hx Hin].
        split; [exact Hx|right; exact Hin].
      * cbn [sum_block_count foldr].
        fold (sum_block_count (List.filter (intersects file_block count) l)).
        split; [lia|intros; lia].
    + apply intersects_false in Hi.
      assert (file_block + count ≤ f) as Hle by lia.
      rewrite (Hnone ltac:(lia)). split; [exact I|]. split; [constructor|].
      cbn [sum_block_count foldr]. split; [lia|reflexivity].
Qed.

(** The selection starts with the entry that holds [file_block]. *)
Lemma range_selection l : ∀ f,
  contiguous_from f l →
  Forall (λ e, 0 < block_count e) l →
  f ≤ file_block →
  file_block + count ≤ f + sum_block_count l →
  ∃ first selected,
    List.filter (intersects file_block count) l = first :: selected
    ∧ first ∈ l
    ∧ file_block_idx first ≤ file_block < file_block_idx first + block_count first
    ∧ contiguous_from (file_block_idx first + block_count first) selected
    ∧ Forall (λ e, file_block_idx e < file_block + count ∧ e ∈ l) selected
    ∧ file_block + count
      ≤ file_block_idx first + block_count first + sum_block_count selected.
Proof.
  induction l as [|e l IH]; intros f Hcont Hpos Hf Hend.
  - cbn [sum_block_count foldr] in Hend. lia.
  - destruct Hcont as [He Hcont]. apply Forall_cons in Hpos as [Hc Hpos].
    cbn [sum_block_count foldr] in Hend. fold (sum_block_count l) in Hend.
    cbn [List.filter].
    destruct (Z.le_gt_cases (f + block_count e) file_block) as [Hskip|Hhold].
    + assert (intersects file_block count e = false) as ->
        by (apply intersects_false; lia).
      destruct (IH (f + block_count e) Hcont Hpos Hskip ltac:(lia))
        as (first & selected & Hfilter & Hin & Hhold & Hcont' & Hsel & Hreach).
      exists first, selected. split; [exact Hfilter|].
      split; [right; exact Hin|]. split; [exact Hhold|].
      split; [exact Hcont'|]. split; [|exact Hreach].
      eapply Forall_impl; [exact Hsel|]. intros x [Hx Hx'].
      split; [exact Hx|right; exact Hx'].
    + assert (intersects file_block count e = true) as ->
        by (apply intersects_iff; lia).
      destruct (range_selection_tail l (f + block_count e) Hcont Hpos
                  ltac:(lia) ltac:(lia))
        as (Hcont' & Hsel & Hreach & _).
      cbv zeta in *.
      exists e, (List.filter (intersects file_block count) l).
      split; [reflexivity|]. split; [left|]. split; [lia|].
      rewrite He. split; [exact Hcont'|]. split; [|lia].
      eapply Forall_impl; [exact Hsel|]. intros x [Hx Hx'].
      split; [exact Hx|right; exact Hx'].
Qed.

Lemma sum_block_count_cons e l :
  sum_block_count (e :: l) = block_count e + sum_block_count l.
Proof. reflexivity. Qed.

(** The right trim of a selection without gaps. *)
Lemma trim_right m : ∀ f last,
  contiguous_from f m →
  Forall (λ e, file_block_idx e < file_block + count) m →
  m !! (length m - 1)%nat = Some last →
  file_block + count ≤ f + sum_block_count m →
  let diff := file_block_idx last + block_count last - (file_block + count) in
  let trimmed :=
    if diff >? 0
    then <[(length m - 1)%nat := add_block_count last (- diff)]> m
    else m in
  0 ≤ diff
  ∧ contiguous_from f trimmed
  ∧ f + sum_block_count trimmed = file_block + count.
Proof.
  induction m as [|e m IH]; intros f last Hcont Hlt Hlast Hreach;
    [discriminate|].
  destruct Hcont as [He Hcont]. apply Forall_cons in Hlt as [Hlt_e Hlt].
  rewrite sum_block_count_cons in Hreach.
  destruct m as [|e' m'].
  - cbn [length Nat.sub lookup list_lookup] in Hlast. injection Hlast as <-.
    cbn [sum_block_count foldr] in Hreach. cbv zeta.
    split; [lia|].
    destruct (Z.gtb_spec (file_block_idx e + block_count e - (file_block + count)) 0).
    + cbn. split; [auto|]. lia.
    + cbn. split; [auto|]. lia.
  - assert (length (e :: e' :: m') - 1 = S (length (e' :: m') - 1))%nat as Hlen
      by (cbn [length]; lia).
    rewrite Hlen in Hlast. rewrite Hlen. cbn [lookup list_lookup] in Hlast.
    destruct (IH (f + block_count e) last Hcont Hlt Hlast ltac:(lia))
      as (Hdiff & Hcont' & Hsum).
    cbv zeta in *. split; [exact Hdiff|].
    destruct (file_block_idx last + block_count last - (file_block + count) >? 0).
    + change (<[S (length (e' :: m') - 1) := ?x]> (e :: e' :: m'))
        with (e :: <[(length (e' :: m') - 1)%nat := x]> (e' :: m')).
      split; [split; [exact He|exact Hcont']|].
      rewrite sum_block_count_cons. lia.
    + split; [split; [exact He|exact Hcont']|].
      rewrite sum_block_count_cons. lia.
Qed.

End RangeMapping.


(** X18. On a block map without gaps (every entry starts where the one
    before ends, all counts positive), [get_range_mapping] for a range
    inside the mapped blocks returns exactly that range: the entries
    returned start at [file_block_idx], follow one another without a gap,
    count [block_count] blocks together, and each of them is a part of an
    entry of the block map, on the disk blocks that entry gives. *)
Theorem get_range_mapping_restricts r first_block file_block count :
  contiguous_from first_block (block_map r) →
  Forall (λ e, 0 < block_count e) (block_map r) →
  0 < count →
  first_block ≤ file_block →
  file_block + count ≤ first_block + sum_block_count (block_map r) →
  ∃ mapping,
    BlockReader_get_range_mapping r file_block count = Ok mapping
    ∧ contiguous_from file_block mapping
    ∧ sum_block_count mapping = count
    ∧ Forall (λ piece, 0 < block_count piece
                       ∧ ∃ e, e ∈ block_map r ∧ piece_of piece e) mapping.
Proof.
  intros Hcont Hpos Hcount Hfirst Hend.
  destruct (range_selection file_block count Hcount (block_map r) first_block
              Hcont Hpos Hfirst Hend)
    as (first & selected & Hfilter & Hin & Hhold & Hcont' & Hsel & Hreach).
  unfold BlockReader_get_range_mapping.
  rewrite map_MappingEntry_copy, Hfilter. cbv zeta.
  change (len (first :: selected) =? 0) with false. cbv iota.
  rewrite (py_index_0 (first :: selected) first eq_refl). cbn [bind].
  set (left_trimmed :=
         if file_block - file_block_idx first >? 0
         then <[0%nat := {| file_block_idx :=
                              file_block_idx first
                              + (file_block - file_block_idx first);
                            disk_block_idx :=
                              disk_block_idx first
                              + (file_block - file_block_idx first);
                            block_count :=
                              block_count first
                              - (file_block - file_block_idx first) |}]>
                (first :: selected)
         else first :: selected).
  assert (∃ first', left_trimmed = first' :: selected
                    ∧ file_block_idx first' = file_block
                    ∧ file_block_idx first' + block_count first'
                      = file_block_idx first + block_count first
                    ∧ piece_of first' first) as (first' & Hleft & Hf & He & Hp).
  { subst left_trimmed.
    destruct (Z.gtb_spec (file_block - file_block_idx first) 0).
    - eexists. split; [reflexivity|]. unfold piece_of. cbn. lia.
    - exists first. split; [reflexivity|]. unfold piece_of. lia. }
  clearbody left_trimmed. subst left_trimmed.
  destruct (py_index_last (first' :: selected)) as (last & Hlast & ->);
    [cbn [length]; lia|].
  cbn [bind].
  assert (Forall (λ e, file_block_idx e < file_block + count)
            (first' :: selected)) as Hlt.
  { constructor; [lia|]. eapply Forall_impl; [exact Hsel|]. intros x [Hx _].
    exact Hx. }
  assert (contiguous_from file_block (first' :: selected)) as Hcont1.
  { split; [exact Hf|]. rewrite <- Hf, He. exact Hcont'. }
  destruct (trim_right file_block count (first' :: selected) file_block last
              Hcont1 Hlt Hlast)
    as (Hdiff & Hcont2 & Hsum).
  { rewrite sum_block_count_cons. lia. }
  cbv zeta in Hcont2, Hsum.
  eexists. split; [reflexivity|]. split; [exact Hcont2|]. split; [lia|].
  assert (Forall (λ piece, 0 < block_count piece
                           ∧ ∃ e, e ∈ block_map r ∧ piece_of piece e)
            (first' :: selected)) as Hpieces.
  { constructor.
    - split; [lia|]. exists first. split; [exact Hin|exact Hp].
    - apply Forall_forall. intros x Hx.
      rewrite Forall_forall in Hsel. destruct (Hsel x Hx) as [_ Hx'].
      rewrite Forall_forall in Hpos. split; [apply Hpos, Hx'|].
      exists x. split; [exact Hx'|]. unfold piece_of. lia. }
  destruct (_ >? 0) eqn:Hgt; [|exact Hpieces].
  apply Forall_insert; [exact Hpieces|].
  rewrite Forall_forall in Hpieces, Hlt.
  assert (last ∈ first' :: selected) as Hlast_in
    by (eapply list_elem_of_lookup_2; exact Hlast).
  destruct (Hpieces last Hlast_in) as (Hc & e & He_in & Hpe).
  pose proof (Hlt last Hlast_in) as Hlast_lt.
  apply Z.gtb_lt in Hgt.
  split; [cbn; lia|]. exists e. split; [exact He_in|].
  unfold piece_of in *. cbn. lia.
Qed.

Lemma get_range_mapping_restricts_witness :
  let r := {| byte_size := 5000;
              BlockReader_volume := empty_volume;
              cursor := 0;
              block_map := [MappingEntry_init 0 8 2; MappingEntry_init 2 20 3] |} in
  BlockReader_get_range_mapping r 1 3
  = Ok [MappingEntry_init 1 9 1; MappingEntry_init 2 20 2].
Proof.
  intros r.
  destruct (get_range_mapping_restricts r 0 1 3) as (mapping & Hm & _);
    [cbn; auto|repeat constructor|lia|lia|cbn; lia|].
  rewrite Hm. vm_compute in Hm. injection Hm as <-. reflexivity.
Defined.
